(** * q2cli.commands: the dynamic command tree of the QIIME 2 command line

    A shallow embedding of [q2cli/commands.py] (RootCommand, PluginCommand,
    ActionCommand) and the properties of its dispatch, resolution and
    reporting logic.

    Python values are modelled as follows.
    - [str] is a list of Unicode code points ([pystr]); ASCII literals of
      the source are written [lit "..."].
    - [dict] used as a finite map is a [gmap] (also the [OrderedDict] of
      generated handlers, which these methods only index); a [dict] that is
      iterated is the list of its items in insertion order.
    - Side effects (stream output, process exit, temporary files, calls to
      collaborators that live outside this module) are threaded through a
      state-and-exit monad [M] over a [World]. *)

From Stdlib Require Import ZArith NArith Ascii String.
From stdpp Require Import gmap strings list fin_maps sorting.

Local Open Scope Z_scope.
Local Open Scope list_scope.

(** ** Python strings *)

Module PyStr.

Abbreviation pystr := (list N).

(** An ASCII literal of the source, as code points. *)
Definition lit (s : string) : pystr :=
  List.map N_of_ascii (list_ascii_of_string s).
#[global] Arguments lit : simpl never.

(** [sep.join(parts)] *)
Fixpoint join (sep : pystr) (parts : list pystr) : pystr :=
  match parts with
  | [] => []
  | [p] => p
  | p :: rest => p ++ sep ++ join sep rest
  end.

(** [s.startswith(p)], returning what follows the prefix. *)
Fixpoint drop_prefix (p s : pystr) : option pystr :=
  match p, s with
  | [], _ => Some s
  | a :: p', b :: s' => if decide (a = b) then drop_prefix p' s' else None
  | _ :: _, [] => None
  end.

(** [x in s] on strings: [x] occurs as a contiguous run of [s]. *)
Fixpoint str_in (x s : pystr) : bool :=
  match drop_prefix x s with
  | Some _ => true
  | None => match s with
            | [] => false
            | _ :: s' => str_in x s'
            end
  end.

(** The relation computed by [str_in]. *)
Definition occurs_in (x s : pystr) : Prop :=
  ∃ before after, s = before ++ x ++ after.

(** Unicode whitespace, the class that [\s] matches on a [str] pattern
    (and [\S] excludes). *)
Definition is_space (c : N) : bool :=
  ((9 <=? c) && (c <=? 13) || (28 <=? c) && (c <=? 32)
   || (c =? 133) || (c =? 160) || (c =? 5760)
   || (8192 <=? c) && (c <=? 8202)
   || (c =? 8232) || (c =? 8233) || (c =? 8239) || (c =? 8287)
   || (c =? 12288))%N.

(** A string without whitespace: every character is matched by [\S]. *)
Definition no_space (s : pystr) : Prop :=
  forallb (λ c, negb (is_space c)) s = true.

(** [a <= b] on strings: lexicographic on code points. *)
Fixpoint str_leb (a b : pystr) : bool :=
  match a, b with
  | [], _ => true
  | _ :: _, [] => false
  | x :: a', y :: b' =>
      if (x <? y)%N then true
      else if (y <? x)%N then false
      else str_leb a' b'
  end.

Definition str_le (a b : pystr) : Prop := str_leb a b = true.

#[global] Instance str_le_dec : RelDecision str_le.
Proof. intros a b. unfold str_le. apply _. Defined.

(** [sorted(keys)] *)
Definition sorted (keys : list pystr) : list pystr := merge_sort str_le keys.

End PyStr.
Export PyStr.

(** ** A regular-expression matcher for the patterns of this module

    Only the constructs that [commands.py] uses: literal text and the
    capturing group [(\S+)]. [fullmatch] is a backtracking matcher; the
    quantifier is greedy, as in Python's [re]. *)

Module Re.

Inductive atom :=
| Lit (text : pystr)          (* literal characters *)
| GroupNonSpacePlus.          (* (\S+) *)

Definition regex := list atom.

(** Match one or more non-space characters, longest first, then hand the
    captured text and the remaining input to the continuation [k]. *)
Fixpoint nonspace_plus {R} (k : pystr → pystr → option R)
    (captured s : pystr) : option R :=
  match s with
  | [] => None
  | c :: s' =>
      if is_space c then None
      else match nonspace_plus k (captured ++ [c]) s' with
           | Some r => Some r
           | None => k (captured ++ [c]) s'
           end
  end.

(** [pattern.fullmatch(s)]: [Some groups] when the whole of [s] matches. *)
Fixpoint fullmatch (p : regex) (s : pystr) : option (list pystr) :=
  match p with
  | [] => match s with [] => Some [] | _ => None end
  | Lit text :: p' =>
      match drop_prefix text s with
      | Some rest => fullmatch p' rest
      | None => None
      end
  | GroupNonSpacePlus :: p' =>
      nonspace_plus (λ g rest, cons g <$> fullmatch p' rest) [] s
  end.

End Re.

(** ** The world the commands act on *)

(** Python objects that travel through option parsing and resolution. *)
Inductive value :=
| VNone
| VBool (b : bool)
| VInt (n : Z)
| VStr (s : pystr).

Inductive stream := Stdout | Stderr.

(** [fg]/[bold] keyword arguments of [click.secho]; [click.echo] is the
    unstyled case. *)
Inductive style := Plain | RedBold | Green.

(** The values the local variable [log] of [ActionCommand.__call__] takes;
    it is also what [q2cli.util.exit_with_error] is given as [traceback]. *)
Inductive log_ref :=
| LogNone                       (* None *)
| LogFile (name : pystr)        (* the open temporary log file *)
| LogStderr.                    (* the string 'stderr' *)

Inductive exn :=
| KeyError (key : pystr)
| FileExistsError               (* tempfile found no usable name *)
| AttributeError
| ValueError
| EngineError (msg : pystr)     (* an [Exception] raised by the action *)
| EngineAbort (msg : pystr).    (* a [BaseException] that is no [Exception] *)

(** A result object of the execution engine: its [type] label and what
    [save(path)] returns. *)
Record Result := {
  r_type : pystr;
  r_save : value → pystr;
}.

(** Observable effects, in program order. Calls into collaborators outside
    this module are logged so that call order can be stated. *)
Inductive event :=
| Echo (to : stream) (st : style) (text : pystr)  (* click.echo, click.secho *)
| SuperInit                                (* click.MultiCommand.__init__ *)
| CacheRead                                (* q2cli.cache.CACHE.plugins *)
| GetValue (name : pystr)                  (* get_value of an entry's handler *)
| ActionCall (arguments : gmap pystr value)       (* the call of the action *)
| StreamWrite (to : stream) (text : pystr) (* the action writes to a stream *)
| TempCreate (name : pystr)               (* NamedTemporaryFile(delete=False) *)
| Close (name : pystr)                     (* log.close() *)
| Remove (name : pystr)                    (* os.remove(log.name) *)
| ErrorReport (e : exn) (header : pystr) (tb : log_ref)
                                           (* q2cli.util.exit_with_error *)
| Save (result : Result) (output : value). (* result.save(output) *)

(** ** Registry data (read-only snapshot of the plugin registry) *)

Inductive entry_type := Input | Param | Output.

(** One entry of an action's signature: [item['type']], [item['name']],
    [item['ast']['type']] and the default of the entry, if it has one. *)
Record SigItem := {
  item_type : entry_type;
  item_name : pystr;
  item_ast_type : pystr;
  item_default : option value;
}.

Record Action := {
  a_id : pystr;
  a_name : pystr;
  a_description : pystr;
  a_signature : list SigItem;
}.

(** [plugin['actions']] is kept as its items in insertion order. *)
Record Plugin := {
  p_name : pystr;
  p_version : pystr;
  p_website : pystr;
  p_description : pystr;
  p_short_description : pystr;
  p_user_support_text : pystr;
  p_actions : list (pystr * Action);
}.

(** A snapshot of all plugins: the items of the dict, in insertion order. *)
Definition snapshot := list (pystr * Plugin).

(** ** State, exit and exceptions *)

(** The state of the process and of its host:
    - [sys_argv]: [sys.argv];
    - [trace]: the effects so far, oldest first;
    - [files]: the temporary directory, each file with the text written to it;
    - [tmp_candidates]: the random name parts [tempfile] tries, in order;
    - [cache_plugins]: [q2cli.cache.CACHE.plugins];
    - [parent_help]: [click.get_current_context().parent.get_help()];
    - [handler_missing]: the attribute [missing] of the handler that
      [generated_handlers] binds to each signature name. *)
Record World := {
  sys_argv : list pystr;
  trace : list event;
  files : gmap pystr (list pystr);
  tmp_candidates : list pystr;
  cache_plugins : snapshot;
  parent_help : pystr;
  handler_missing : gmap pystr (list pystr)
}.

Inductive outcome (A : Type) :=
| Ret (a : A)
| Exit (status : Z)      (* sys.exit / ctx.exit *)
| Raise (e : exn).
Arguments Ret {A} a.
Arguments Exit {A} status.
Arguments Raise {A} e.

Definition M (A : Type) : Type := World → outcome A * World.

#[global] Instance M_ret : MRet M := λ A a w, (Ret a, w).

#[global] Instance M_bind : MBind M := λ A B k m w,
  match m w with
  | (Ret a, w') => k a w'
  | (Exit st, w') => (Exit st, w')
  | (Raise e, w') => (Raise e, w')
  end.

Definition exit {A} (status : Z) : M A := λ w, (Exit status, w).
Definition raise {A} (e : exn) : M A := λ w, (Raise e, w).
(** Read a component of the world. *)
Definition gets {A} (f : World → A) : M A := λ w, (Ret (f w), w).

Definition set_trace (t : list event) (w : World) : World :=
  {| sys_argv := sys_argv w; trace := t; files := files w;
     tmp_candidates := tmp_candidates w; cache_plugins := cache_plugins w;
     parent_help := parent_help w; handler_missing := handler_missing w |}.

Definition set_files (f : gmap pystr (list pystr)) (w : World) : World :=
  {| sys_argv := sys_argv w; trace := trace w; files := f;
     tmp_candidates := tmp_candidates w; cache_plugins := cache_plugins w;
     parent_help := parent_help w; handler_missing := handler_missing w |}.

Definition set_handler_missing (h : gmap pystr (list pystr)) (w : World)
    : World :=
  {| sys_argv := sys_argv w; trace := trace w; files := files w;
     tmp_candidates := tmp_candidates w; cache_plugins := cache_plugins w;
     parent_help := parent_help w; handler_missing := h |}.

Definition emit (e : event) : M unit :=
  λ w, (Ret tt, set_trace (trace w ++ [e]) w).

(** [click.echo(text, err=True)] *)
Definition echo_err (text : pystr) : M unit := emit (Echo Stderr Plain text).

(** [click.secho(text, err=True, fg='red', bold=True)] *)
Definition secho_err_red (text : pystr) : M unit :=
  emit (Echo Stderr RedBold text).

(** [click.secho(text, fg='green')] *)
Definition secho_green (text : pystr) : M unit := emit (Echo Stdout Green text).

(** [if cond: body] *)
Definition when (cond : bool) (body : M unit) : M unit :=
  if cond then body else mret tt.

(** [for x in xs: body], threading the variables the body updates. *)
Fixpoint for_ {A S} (xs : list A) (body : S → A → M S) (s : S) : M S :=
  match xs with
  | [] => mret s
  | x :: xs' => s' ← body s x; for_ xs' body s'
  end.

(** Truth value of a list: [if xs:] *)
Definition nonempty {A} (xs : list A) : bool :=
  match xs with [] => false | _ => true end.

(** ** Collaborators outside [commands.py] *)

(** Parsed flag values, [Dict[click_name, Obj]]. *)
Abbreviation kwargs := (gmap pystr value).

(** A fallback function: called with a handler's name and CLI name,
    [None] stands for [ValueNotFoundException]. *)
Definition fallback := pystr → pystr → option value.

(** What [handler.get_value] does: return a value, or raise
    [ValueNotFoundException] after appending [recorded] to [self.missing]. *)
Inductive resolution :=
| Resolved (v : value)
| NotFound (recorded : list pystr).

(** A handler of one signature entry. [h_is_metadata] is the
    [isinstance(handler, (MetadataHandler, MetadataColumnHandler))] test;
    such a handler is also given [verbose]. *)
Record Handler := {
  h_is_metadata : bool;
  h_get_value : option bool → kwargs → fallback → resolution;
}.

(** What one call of the action does: the text it writes to its standard
    streams, whether the host reaped an untouched temporary file while it
    ran, and how it ended. *)
Inductive action_end :=
| Returned (results : list Result)
| Failed (e : exn)
| Exited (status : Z).

Record action_run := {
  run_writes : list (stream * pystr);
  run_tmp_reaped : bool;
  run_end : action_end;
}.

(** The interface of the modules this one imports: [q2cli.util],
    [q2cli.handlers], the execution engine behind [qiime2.sdk] and the
    builtin [repr]. The handler classes stand for the objects they
    construct: the three entry handlers and the collection wrapper for a
    [Handler], the four meta-handlers for their [get_value]. [run_action]
    is the callable that [_get_action] finds for a plugin name and an
    action id; [error_exit_status] is the status [exit_with_error] exits
    with. *)
Class Collaborators := {
  to_cli_name : pystr → pystr;
  py_repr : pystr → pystr;
  ArtifactHandler : SigItem → Handler;
  parameter_handler_factory : SigItem → Handler;
  ResultHandler : SigItem → Handler;
  CollectionHandler : Handler → SigItem → Handler;
  VerboseHandler : kwargs → fallback → bool;
  QuietHandler : kwargs → fallback → bool;
  OutputDirHandler : kwargs → fallback → fallback;
  CommandConfigHandler : pystr → pystr → kwargs → fallback;
  run_action : pystr → pystr → gmap pystr value → action_run;
  error_exit_status : Z;
}.

(** [except Exception] catches [e]. *)
Definition is_Exception (e : exn) : bool :=
  match e with
  | EngineAbort _ => false
  | _ => true
  end.

Definition nl : pystr := [10%N].

Section Commands.

Context {collab : Collaborators}.

(** *** ActionCommand *)

Record ActionCommand := {
  ac_name : pystr;
  plugin : Plugin;
  action : Action;
  generated_handlers : gmap pystr Handler;
  verbose_handler : kwargs → fallback → bool;
  quiet_handler : kwargs → fallback → bool;
  output_dir_handler : kwargs → fallback → fallback;
  cmd_config_handler : kwargs → fallback;
}.

(** [handler_map[type]] *)
Definition handler_map (type : entry_type) : SigItem → Handler :=
  match type with
  | Input => ArtifactHandler
  | Param => parameter_handler_factory
  | Output => ResultHandler
  end.

Definition build_generated_handlers (act : Action) : gmap pystr Handler :=
  foldl (λ handlers item,
           let type := item_type item in
           let handler :=
             if decide (item_ast_type item = lit "collection") then
               let inner_handler := handler_map type item in
               CollectionHandler inner_handler item
             else handler_map type item in
           <[item_name item := handler]> handlers)
        ∅ (a_signature act).

(** The attributes [ActionCommand.__init__] sets. The options it hands to
    click ([get_click_parameters]) are not part of this model. *)
Definition new_ActionCommand (name : pystr) (pl : Plugin) (act : Action)
    : ActionCommand :=
  {| ac_name := name;
     plugin := pl;
     action := act;
     generated_handlers := build_generated_handlers act;
     verbose_handler := VerboseHandler;
     quiet_handler := QuietHandler;
     output_dir_handler := OutputDirHandler;
     cmd_config_handler :=
       CommandConfigHandler (to_cli_name (p_name pl))
                            (to_cli_name (a_id act)) |}.

(** [ActionCommand.__init__]; every handler it builds is a new object,
    whose [missing] list is empty. *)
Definition ActionCommand_init (name : pystr) (pl : Plugin) (act : Action)
    : M ActionCommand :=
  λ w, (Ret (new_ActionCommand name pl act), set_handler_missing ∅ w).

(** [self.generated_handlers[name]] *)
Definition lookup_handler (self : ActionCommand) (name : pystr) : M Handler :=
  match generated_handlers self !! name with
  | Some handler => mret handler
  | None => raise (KeyError name)
  end.

(** A call of [handler.get_value] inside [try: ... except
    ValueNotFoundException]: [None] when the exception was raised, the
    handler having appended to its [missing] list before. *)
Definition try_get_value (name : pystr) (handler : Handler)
    (verbose : option bool) (kw : kwargs) (fb : fallback) : M (option value) :=
  emit (GetValue name);;
  match h_get_value handler verbose kw fb with
  | Resolved v => mret (Some v)
  | NotFound recorded =>
      λ w, (Ret None,
            set_handler_missing
              (<[name := default [] (handler_missing w !! name) ++ recorded]>
                 (handler_missing w)) w)
  end.

(** [handler.missing] *)
Definition handler_missing_of (name : pystr) : M (list pystr) :=
  gets (λ w, default [] (handler_missing w !! name)).

(** The body of the loop of [handle_in_params]. *)
Definition in_params_body (self : ActionCommand) (kw : kwargs)
    (cmd_fallback : fallback) (verbose : bool)
    (acc : gmap pystr value * list pystr) (item : SigItem)
    : M (gmap pystr value * list pystr) :=
  let '(arguments, missing) := acc in
  match item_type item with
  | Input | Param =>
      let name := item_name item in
      handler ← lookup_handler self name;
      r ← (if h_is_metadata handler
           then try_get_value name handler (Some verbose) kw cmd_fallback
           else try_get_value name handler None kw cmd_fallback);
      match r with
      | Some v => mret (<[name := v]> arguments, missing)
      | None =>
          recorded ← handler_missing_of name;
          mret (arguments, missing ++ recorded)
      end
  | Output => mret (arguments, missing)
  end.

Definition handle_in_params (self : ActionCommand) (kw : kwargs)
    : M (gmap pystr value * list pystr * bool * bool) :=
  let cmd_fallback := cmd_config_handler self kw in
  let verbose := verbose_handler self kw cmd_fallback in
  let quiet := quiet_handler self kw cmd_fallback in
  when (verbose && quiet) (
    secho_err_red
      (lit "Unsure of how to be quiet and verbose at the same time.");;
    exit 1);;
  '(arguments, missing) ←
    for_ (a_signature (action self))
         (in_params_body self kw cmd_fallback verbose) (∅, []);
  mret (arguments, missing, verbose, quiet).

(** The body of the loop of [handle_out_params]. *)
Definition out_params_body (self : ActionCommand) (kw : kwargs)
    (fallback : fallback) (acc : list value * list pystr) (item : SigItem)
    : M (list value * list pystr) :=
  let '(outputs, missing) := acc in
  match item_type item with
  | Output =>
      let name := item_name item in
      handler ← lookup_handler self name;
      r ← try_get_value name handler None kw fallback;
      match r with
      | Some v => mret (outputs ++ [v], missing)
      | None =>
          recorded ← handler_missing_of name;
          mret (outputs, missing ++ recorded)
      end
  | Input | Param => mret (outputs, missing)
  end.

Definition handle_out_params (self : ActionCommand) (kw : kwargs)
    : M (list value * list pystr) :=
  let cmd_fallback := cmd_config_handler self kw in
  let out_fallback := output_dir_handler self kw cmd_fallback in
  let fallback : fallback :=
    λ name cli_name,
      match cmd_fallback name cli_name with
      | Some v => Some v
      | None => out_fallback name cli_name
      end in
  for_ (a_signature (action self)) (out_params_body self kw fallback) ([], []).

Definition _OUTPUT_OPTION_ERR_MSG : pystr :=
  lit "Note: When only providing names for a subset of the output Artifacts or"
  ++ nl ++
  lit "Visualizations, you must specify an output directory through use of the"
  ++ nl ++
  lit "--output-dir DIRECTORY flag.".

(** [tempfile.NamedTemporaryFile(prefix=..., suffix=..., delete=False,
    mode='w')]: the first candidate name that is not taken is created,
    empty; it is never deleted on close. *)
Definition NamedTemporaryFile (prefix suffix : pystr) : M pystr :=
  λ w,
    match List.find (λ name, bool_decide (files w !! name = None))
                    (List.map (λ r, prefix ++ r ++ suffix) (tmp_candidates w))
    with
    | Some name =>
        (Ret name,
         set_files (<[name := []]> (files w))
                   (set_trace (trace w ++ [TempCreate name]) w))
    | None => (Raise FileExistsError, w)
    end.

(** [os.path.exists(name)] *)
Definition path_exists (name : pystr) : M bool :=
  gets (λ w, bool_decide (is_Some (files w !! name))).

(** [os.remove(name)] *)
Definition os_remove (name : pystr) : M unit :=
  λ w, (Ret tt, set_files (delete name (files w))
                          (set_trace (trace w ++ [Remove name]) w)).

(** One write of the action while [qiime2.util.redirected_stdio(stdout=log,
    stderr=log)] is active: into the log file, or to the live stream when
    [log] is [None]. *)
Definition redirected_write (log : log_ref) (to : stream) (text : pystr)
    : M unit :=
  match log with
  | LogFile name =>
      λ w, (Ret tt, set_files (alter (λ old, old ++ [text]) name (files w)) w)
  | _ => emit (StreamWrite to text)
  end.

(** The host removing the temporary file behind the back of the process. *)
Definition host_reaps (log : log_ref) : M unit :=
  match log with
  | LogFile name => λ w, (Ret tt, set_files (delete name (files w)) w)
  | _ => mret tt
  end.

(** [with qiime2.util.redirected_stdio(stdout=log, stderr=log):
       results = action(<arguments>)] *)
Definition call_action (self : ActionCommand) (log : log_ref)
    (arguments : gmap pystr value) : M (list Result) :=
  let run :=
    run_action (p_name (plugin self)) (a_id (action self)) arguments in
  emit (ActionCall arguments);;
  for_ (run_writes run) (λ _ '(to, text), redirected_write log to text) tt;;
  when (run_tmp_reaped run) (host_reaps log);;
  match run_end run with
  | Returned results => mret results
  | Failed e => raise e
  | Exited status => exit status
  end.

(** Modelled from the spec: [q2cli.util.exit_with_error] is defined
    outside this module. It reports the error through one formatting path,
    with the header and the traceback reference it is given, and never
    returns: it terminates the process with a non-zero status. *)
Definition exit_with_error {A} (e : exn) (header : pystr)
    (traceback : log_ref) : M A :=
  emit (ErrorReport e header traceback);;
  exit error_exit_status.

(** The [finally:] clause of [__call__]:
    [if log and cleanup_logfile and os.path.exists(log.name)] *)
Definition finally_clause (log : log_ref) (cleanup_logfile : bool) : M unit :=
  match log with
  | LogNone => mret tt
  | LogFile name =>
      if cleanup_logfile then
        e ← path_exists name;
        when e (emit (Close name);; os_remove name)
      else mret tt
  | LogStderr =>
      (* a str has no attribute [name] *)
      if cleanup_logfile then raise AttributeError else mret tt
  end.

(** [try: body  finally: fin] *)
Definition try_finally {A} (body : M A) (fin : M unit) : M A :=
  λ w, match body w with
       | (o, w') =>
           match fin w' with
           | (Ret _, w'') => (o, w'')
           | (Exit st, w'') => (Exit st, w'')
           | (Raise e, w'') => (Raise e, w'')
           end
       end.

(** The [try / except Exception / else / finally] statement of
    [__call__]; [log] and [cleanup_logfile] are the local variables the
    clauses share. *)
Definition run_logged (self : ActionCommand) (verbose : bool) (log : log_ref)
    (arguments : gmap pystr value) : M (list Result) :=
  let cleanup_logfile := false in
  λ w, match call_action self log arguments w with
       | (Ret results, w') =>
           (* else: *)
           let cleanup_logfile := true in
           (finally_clause log cleanup_logfile;; mret results) w'
       | (Raise e, w') =>
           if is_Exception e then
             (* except Exception as e: *)
             let header := lit "Plugin error from "
                           ++ to_cli_name (p_name (plugin self)) ++ lit ":" in
             let log := if verbose then LogStderr else log in
             try_finally (exit_with_error e header log)
                         (finally_clause log cleanup_logfile) w'
           else try_finally (raise e) (finally_clause log cleanup_logfile) w'
       | (Exit st, w') =>
           try_finally (exit st) (finally_clause log cleanup_logfile) w'
       end.

(** The second half of [ActionCommand.__call__], from
    [action = self._get_action()] on: the logged call of the action and the
    saving of its results. *)
Definition execute (self : ActionCommand) (verbose quiet : bool)
    (arguments : gmap pystr value) (outputs : list value) : M unit :=
  log ← (if negb verbose then
           name ← NamedTemporaryFile (lit "qiime2-q2cli-err-") (lit ".log");
           mret (LogFile name)
         else mret LogNone);
  results ← run_logged self verbose log arguments;
  for_ (zip results outputs)
       (λ _ '(result, output),
          emit (Save result output);;
          let path := r_save result output in
          when (negb quiet)
            (secho_green
               (lit "Saved " ++ r_type result ++ lit " to: " ++ path)))
       tt.

(** [ActionCommand.__call__] *)
Definition ActionCommand_call (self : ActionCommand) (kw : kwargs) : M unit :=
  '(arguments, missing_in, verbose, quiet) ← handle_in_params self kw;
  '(outputs, missing_out) ← handle_out_params self kw;
  when (nonempty missing_in || nonempty missing_out) (
    help ← gets parent_help;
    echo_err (help ++ nl);;
    for_ (missing_in ++ missing_out)
         (λ _ option,
            secho_err_red (lit "Error: Missing option: --" ++ option))
         tt;;
    when (nonempty missing_out) (echo_err _OUTPUT_OPTION_ERR_MSG);;
    exit 1);;
  execute self verbose quiet arguments outputs.

(** *** PluginCommand *)

Record PluginCommand := {
  pc_name : pystr;
  _plugin : Plugin;
  _action_lookup : gmap pystr Action;
  pc_help : pystr;
  pc_short_help : pystr;
}.

(** [PluginCommand.__init__] *)
Definition PluginCommand_init (pl : Plugin) (name : pystr) : PluginCommand :=
  let support := lit "Getting user support: " ++ p_user_support_text pl in
  let website := lit "Plugin website: " ++ p_website pl in
  let description := lit "Description: " ++ p_description pl in
  {| pc_name := name;
     _plugin := pl;
     _action_lookup :=
       foldl (λ lookup '(id, a), <[to_cli_name id := a]> lookup) ∅
             (p_actions pl);
     pc_help := join (nl ++ nl) [description; website; support];
     pc_short_help := p_short_description pl |}.

(** [PluginCommand.list_commands] *)
Definition PluginCommand_list_commands (self : PluginCommand) : list pystr :=
  sorted (map_to_list (_action_lookup self)).*1.

(** [PluginCommand.get_command] *)
Definition PluginCommand_get_command (self : PluginCommand) (name : pystr)
    : M ActionCommand :=
  act ← match _action_lookup self !! name with
        | Some act => mret act
        | None =>
            (* except KeyError: *)
            echo_err (lit "Error: QIIME 2 plugin "
                      ++ py_repr (p_name (_plugin self))
                      ++ lit " has no action " ++ py_repr name ++ lit ".");;
            exit 2
        end;
  ActionCommand_init name (_plugin self) act.

(** *** RootCommand *)

Inductive builtin := info | tools | dev.

Definition _builtin_commands : list (pystr * builtin) :=
  [(lit "info", info); (lit "tools", tools); (lit "dev", dev)].

Record RootCommand := {
  _plugins : option snapshot;
}.

Definition unicodes : list pystr :=
  [[8216]; [8217]; [8220]; [8221]; [8212]]%N.

(** [re.compile(r'--m-(\S+)-category')] *)
Definition category_regex : Re.regex :=
  [Re.Lit (lit "--m-"); Re.GroupNonSpacePlus; Re.Lit (lit "-category")].

(** The body of [for command in sys.argv]. *)
Definition scan_token (acc : list pystr * list (pystr * pystr))
    (command : pystr) : M (list pystr * list (pystr * pystr)) :=
  let '(invalid_chars, categories) := acc in
  let invalid_chars :=
    if existsb (λ x, str_in x command) unicodes
    then invalid_chars ++ [command] else invalid_chars in
  match Re.fullmatch category_regex command with
  | Some groups =>
      match groups with
      | [param_name] =>
          mret (invalid_chars,
                categories
                ++ [(command, lit "--m-" ++ param_name ++ lit "-column")])
      | _ => raise ValueError
      end
  | None => mret (invalid_chars, categories)
  end.

Definition invalid_chars_msg (invalid_chars : list pystr) : pystr :=
  lit "Error: Detected invalid character in: " ++ join (lit ", ") invalid_chars
  ++ nl ++ lit "Verify the correct quotes or dashes (ASCII) are being used.".

Definition categories_msg (categories : list (pystr * pystr)) : pystr :=
  let old_to_new_names :=
    join nl
      (List.map (λ '(old, new),
                   lit "Instead of " ++ old ++ lit ", trying using " ++ new)
                categories) in
  lit "Error: The following options no longer exist because "
  ++ lit "metadata *categories* are now called metadata "
  ++ lit "*columns* in QIIME 2." ++ nl ++ nl ++ old_to_new_names.

(** [RootCommand.__init__] *)
Definition RootCommand_init : M RootCommand :=
  argv ← gets sys_argv;
  '(invalid_chars, categories) ← for_ argv scan_token ([], []);
  when (nonempty invalid_chars || nonempty categories) (
    when (nonempty invalid_chars)
         (secho_err_red (invalid_chars_msg invalid_chars));;
    when (nonempty categories)
         (secho_err_red (categories_msg categories));;
    exit (-1));;
  emit SuperInit;;
  mret {| _plugins := None |}.

(** The loop of [_plugin_lookup] that builds [name_map]. *)
Definition name_map_of (plugins : snapshot) : gmap pystr Plugin :=
  foldl (λ name_map '(name, pl),
           if nonempty (p_actions pl)
           then <[to_cli_name name := pl]> name_map
           else name_map)
        ∅ plugins.

(** The property [RootCommand._plugin_lookup]; it returns the name map
    and the object, whose [_plugins] it may have set. *)
Definition _plugin_lookup (self : RootCommand)
    : M (gmap pystr Plugin * RootCommand) :=
  plugins ← match _plugins self with
            | None =>
                emit CacheRead;;
                gets cache_plugins
            | Some plugins => mret plugins
            end;
  let self := {| _plugins := Some plugins |} in
  mret (name_map_of plugins, self).

(** [RootCommand.list_commands] *)
Definition RootCommand_list_commands (self : RootCommand)
    : M (list pystr * RootCommand) :=
  let builtins := _builtin_commands.*1 in
  '(lookup, self) ← _plugin_lookup self;
  let plugins := sorted (map_to_list lookup).*1 in
  mret (builtins ++ plugins, self).

(** [RootCommand.get_command]; [None] is the not-found signal. *)
Definition RootCommand_get_command (self : RootCommand) (name : pystr)
    : M (option (builtin + PluginCommand) * RootCommand) :=
  match list_find (λ entry, entry.1 = name) _builtin_commands with
  | Some (_, (_, cmd)) => mret (Some (inl cmd), self)
  | None =>
      '(lookup, self) ← _plugin_lookup self;
      match lookup !! name with
      | Some pl => mret (Some (inr (PluginCommand_init pl name)), self)
      | None => mret (None, self)
      end
  end.

End Commands.

(** ** Handlers, as the design describes them *)

(** Modelled from the spec: the first step of the resolution protocol that
    [q2cli.handlers] implements outside this module, the explicit
    command-line value if present and non-default. A flag that was not
    given is absent from the parsed flags or left at [None]. *)
Definition explicit_value (kw : kwargs) (click_name : pystr) : option value :=
  match kw !! click_name with
  | None | Some VNone => None
  | Some v => Some v
  end.

(** Modelled from the spec: the resolution protocol of a handler, which
    [q2cli.handlers] implements outside this module. Resolution order is
    always (a) the explicit command-line value if present and non-default,
    (b) else the fallback function, invoked with the handler's canonical
    option name, (c) else signal absent and record the canonical option
    name as missing. *)
Definition spec_locate_value (kw : kwargs) (fb : fallback)
    (name cli_name : pystr) : resolution :=
  match explicit_value kw name with
  | Some v => Resolved v
  | None =>
      match fb name cli_name with
      | Some v => Resolved v
      | None => NotFound [cli_name]
      end
  end.

(** Modelled from the spec: the result handler [q2cli.handlers.ResultHandler]
    of an output entry, which follows the resolution protocol and is not
    metadata-bearing. [to_cli] normalises the entry name to its option
    name. *)
Definition spec_ResultHandler (to_cli : pystr → pystr) (item : SigItem)
    : Handler :=
  {| h_is_metadata := false;
     h_get_value := λ _ kw fb,
       spec_locate_value kw fb (item_name item) (to_cli (item_name item)) |}.

(** Modelled from the spec: the output-directory meta-handler
    [q2cli.handlers.OutputDirHandler]. Its own value ([--output-dir PATH])
    is resolved by the protocol; as a fallback provider it derives a path
    under the declared output directory from the parameter's default file
    name, and fails for every name when no directory was declared. *)
Definition spec_OutputDirHandler (to_cli : pystr → pystr)
    (kw : kwargs) (fb : fallback) : fallback :=
  match spec_locate_value kw fb (lit "output_dir")
                          (to_cli (lit "output_dir")) with
  | Resolved (VStr dir) => λ name _, Some (VStr (dir ++ lit "/" ++ name))
  | _ => λ _ _, None
  end.

(** The first provider that succeeds, in the order given. *)
Fixpoint first_success (providers : list (option value)) : option value :=
  match providers with
  | [] => None
  | Some v :: _ => Some v
  | None :: rest => first_success rest
  end.

(** ** Vocabulary of the properties *)

Section Vocabulary.

Context {collab : Collaborators}.

Definition is_in (item : SigItem) : bool :=
  match item_type item with Output => false | _ => true end.

Definition is_out (item : SigItem) : bool :=
  match item_type item with Output => true | _ => false end.

(** The handler that one pass of the loop of [build_generated_handlers]
    constructs for [item]. *)
Definition entry_handler (item : SigItem) : Handler :=
  if decide (item_ast_type item = lit "collection")
  then CollectionHandler (handler_map (item_type item) item) item
  else handler_map (item_type item) item.

(** The fallback function [handle_out_params] defines locally. *)
Definition composite_fallback (self : ActionCommand) (kw : kwargs) : fallback :=
  λ name cli_name,
    match cmd_config_handler self kw name cli_name with
    | Some v => Some v
    | None =>
        output_dir_handler self kw (cmd_config_handler self kw) name cli_name
    end.

Definition resolved_verbose (self : ActionCommand) (kw : kwargs) : bool :=
  verbose_handler self kw (cmd_config_handler self kw).

Definition resolved_quiet (self : ActionCommand) (kw : kwargs) : bool :=
  quiet_handler self kw (cmd_config_handler self kw).

(** How the handler of an input or parameter entry answers. *)
Definition in_resolution (self : ActionCommand) (kw : kwargs) (item : SigItem)
    : resolution :=
  let handler := entry_handler item in
  h_get_value handler
    (if h_is_metadata handler then Some (resolved_verbose self kw) else None)
    kw (cmd_config_handler self kw).

(** How the handler of an output entry answers. *)
Definition out_resolution (self : ActionCommand) (kw : kwargs) (item : SigItem)
    : resolution :=
  h_get_value (entry_handler item) None kw (composite_fallback self kw).

Definition recorded_of (r : resolution) : list pystr :=
  match r with NotFound recorded => recorded | Resolved _ => [] end.

Definition value_of (r : resolution) : option value :=
  match r with Resolved v => Some v | NotFound _ => None end.

Definition in_entries (self : ActionCommand) : list SigItem :=
  List.filter is_in (a_signature (action self)).

Definition out_entries (self : ActionCommand) : list SigItem :=
  List.filter is_out (a_signature (action self)).

(** The option names recorded by the input and parameter entries that do
    not resolve, in signature order. *)
Definition in_missing (self : ActionCommand) (kw : kwargs) : list pystr :=
  flat_map (λ item, recorded_of (in_resolution self kw item))
           (in_entries self).

(** The same for the output entries. *)
Definition out_missing (self : ActionCommand) (kw : kwargs) : list pystr :=
  flat_map (λ item, recorded_of (out_resolution self kw item))
           (out_entries self).

(** The resolved arguments: one binding per entry that resolves. *)
Definition in_arguments (self : ActionCommand) (kw : kwargs)
    : gmap pystr value :=
  foldl (λ arguments item,
           match in_resolution self kw item with
           | Resolved v => <[item_name item := v]> arguments
           | NotFound _ => arguments
           end)
        ∅ (in_entries self).

(** The resolved output locations, in signature order. *)
Definition out_values (self : ActionCommand) (kw : kwargs) : list value :=
  omap (λ item, value_of (out_resolution self kw item)) (out_entries self).

(** [handler.missing] of every handler after the loop over [items], where
    [res] tells how the handler of an entry answers. *)
Definition record_missing (res : SigItem → resolution)
    (store : gmap pystr (list pystr)) (items : list SigItem)
    : gmap pystr (list pystr) :=
  foldl (λ store item,
           match res item with
           | NotFound recorded =>
               <[item_name item :=
                   default [] (store !! item_name item) ++ recorded]> store
           | Resolved _ => store
           end)
        store items.

(** The calls of [get_value] that resolution makes: every input and
    parameter entry, then every output entry, in signature order. *)
Definition resolution_events (self : ActionCommand) : list event :=
  ((λ item, GetValue (item_name item)) <$> in_entries self)
  ++ ((λ item, GetValue (item_name item)) <$> out_entries self).

(** An entry does not resolve. *)
Definition fails (self : ActionCommand) (kw : kwargs) (item : SigItem) : Prop :=
  (is_in item = true ∧ value_of (in_resolution self kw item) = None)
  ∨ (is_out item = true ∧ value_of (out_resolution self kw item) = None).

(** The world once [handle_in_params] and [handle_out_params] are through
    (and [verbose] and [quiet] did not clash): every input and parameter
    entry has been asked, then every output entry, in signature order. *)
Definition after_resolution (self : ActionCommand) (kw : kwargs) (w : World)
    : World :=
  set_handler_missing
    (record_missing (out_resolution self kw)
       (record_missing (in_resolution self kw) (handler_missing w)
          (in_entries self))
       (out_entries self))
    (set_trace (trace w
                ++ ((λ item, GetValue (item_name item)) <$> in_entries self)
                ++ ((λ item, GetValue (item_name item)) <$> out_entries self))
               w).

(** What the saving loop of [__call__] does for the results it pairs with
    output locations. *)
Definition save_events (quiet : bool) (pairs : list (Result * value))
    : list event :=
  flat_map (λ '(result, output),
              Save result output
              :: (if quiet then []
                  else [Echo Stdout Green
                          (lit "Saved " ++ r_type result ++ lit " to: "
                           ++ r_save result output)]))
           pairs.

(** The name [NamedTemporaryFile] gives the log file in world [w], if the
    candidates have one that is free. *)
Definition temp_name (w : World) : option pystr :=
  List.find (λ name, bool_decide (files w !! name = None))
            (List.map (λ r, lit "qiime2-q2cli-err-" ++ r ++ lit ".log")
                      (tmp_candidates w)).

(** The header [__call__] passes to the error reporter. *)
Definition error_header (self : ActionCommand) : pystr :=
  lit "Plugin error from " ++ to_cli_name (p_name (plugin self)) ++ lit ":".

(** The run of the action that [__call__] starts. *)
Definition the_run (self : ActionCommand) (arguments : gmap pystr value)
    : action_run :=
  run_action (p_name (plugin self)) (a_id (action self)) arguments.

(** What the temporary directory holds when a call that was logged to
    [name] is over, before any cleanup. *)
Definition files_after_call (run : action_run) (name : pystr) (w : World)
    : gmap pystr (list pystr) :=
  if run_tmp_reaped run then delete name (files w)
  else <[name := (run_writes run).*2]> (files w).

(** The providers an output entry is resolved from, in the order they are
    tried: the command line, the command-config file, the output
    directory. *)
Definition output_chain (self : ActionCommand) (kw : kwargs) (item : SigItem)
    : option value :=
  first_success
    [ explicit_value kw (item_name item);
      cmd_config_handler self kw (item_name item)
        (to_cli_name (item_name item));
      output_dir_handler self kw (cmd_config_handler self kw)
        (item_name item) (to_cli_name (item_name item)) ].

(** A handler that fails records at least one option name. *)
Definition records_names (h : Handler) : Prop :=
  ∀ verbose kw fb recorded,
    h_get_value h verbose kw fb = NotFound recorded → recorded ≠ [].

(** The lines [__call__] prints for missing options. *)
Definition missing_report (help : pystr) (missing_in missing_out : list pystr)
    : list event :=
  [Echo Stderr Plain (help ++ nl)]
  ++ ((λ option,
         Echo Stderr RedBold (lit "Error: Missing option: --" ++ option))
        <$> (missing_in ++ missing_out))
  ++ (if nonempty missing_out
      then [Echo Stderr Plain _OUTPUT_OPTION_ERR_MSG] else []).

(** The test [any(x in command for x in unicodes)] of [__init__]. *)
Definition has_invalid_char (command : pystr) : bool :=
  existsb (λ x, str_in x command) unicodes.

(** The smart quotes and the em-dash. *)
Definition disallowed : list N := [8216; 8217; 8220; 8221; 8212]%N.

(** The pair [__init__] appends to [categories] for a legacy token. *)
Definition legacy_rename (command : pystr) : option (pystr * pystr) :=
  match Re.fullmatch category_regex command with
  | Some [param_name] =>
      Some (command, lit "--m-" ++ param_name ++ lit "-column")
  | _ => None
  end.

Definition invalid_tokens (argv : list pystr) : list pystr :=
  List.filter has_invalid_char argv.

Definition legacy_renames (argv : list pystr) : list (pystr * pystr) :=
  omap legacy_rename argv.

(** What [__init__] prints before it exits. *)
Definition token_reports (argv : list pystr) : list event :=
  (if nonempty (invalid_tokens argv)
   then [Echo Stderr RedBold (invalid_chars_msg (invalid_tokens argv))]
   else [])
  ++ (if nonempty (legacy_renames argv)
      then [Echo Stderr RedBold (categories_msg (legacy_renames argv))]
      else []).

(** The legacy pattern matches the whole of [command]. *)
Definition is_legacy (command : pystr) : bool :=
  match Re.fullmatch category_regex command with
  | Some _ => true
  | None => false
  end.

(** [command] makes [__init__] stop. *)
Definition offending (command : pystr) : bool :=
  has_invalid_char command || is_legacy command.

(** The ways a run reaches the property [_plugin_lookup]. *)
Inductive root_access :=
| AccessLookup                  (* self._plugin_lookup *)
| AccessList                    (* self.list_commands(ctx) *)
| AccessGet (name : pystr).     (* self.get_command(ctx, name) *)

Definition access (a : root_access) (self : RootCommand) : M RootCommand :=
  match a with
  | AccessLookup => '(_, self) ← _plugin_lookup self; mret self
  | AccessList => '(_, self) ← RootCommand_list_commands self; mret self
  | AccessGet name =>
      '(_, self) ← RootCommand_get_command self name; mret self
  end.

(** A run: accesses one after the other on the same root command. *)
Definition accesses (run : list root_access) (self : RootCommand)
    : M RootCommand :=
  for_ run (λ self a, access a self) self.

(** How often the process-wide cache was read. *)
Definition cache_reads (t : list event) : nat :=
  length (List.filter
            (λ e, match e with CacheRead => true | _ => false end) t).

(** One invocation of an action from the command line: the command is
    built, then called with the parsed flags. *)
Definition invoke (name : pystr) (pl : Plugin) (act : Action) (kw : kwargs)
    : M unit :=
  self ← ActionCommand_init name pl act;
  ActionCommand_call self kw.

End Vocabulary.

(** ** Worlds at process start *)

(** The world a process starts in: nothing printed yet, an empty temporary
    directory, no handler built. *)
Definition start_world (argv : list pystr) (cache : snapshot) (help : pystr)
    (candidates : list pystr) : World :=
  {| sys_argv := argv; trace := []; files := ∅; tmp_candidates := candidates;
     cache_plugins := cache; parent_help := help; handler_missing := ∅ |}.

(** ** Example inputs *)

(** [``x''] typed with smart quotes. *)
Definition quoted_token : pystr := [8220%N] ++ lit "x" ++ [8221%N].

Definition legacy_token : pystr := lit "--m-foo-category".

(** A legacy flag with a value attached whose text ends in [-category]. *)
Definition attached_token : pystr := lit "--m-a-category=b-category".

Definition bad_argv_world : World :=
  start_world [lit "qiime"; quoted_token; legacy_token] [] [] [].

Definition attached_argv_world : World :=
  start_world [lit "qiime"; attached_token] [] [] [].

(** A plugin with one action, [do_it], of signature
    [{a: input, b: parameter, c: output}], and the collaborators of a small
    deployment: names are normalised by replacing [_] with [-], handlers
    follow the resolution protocol, the config file of the action supplies
    [output-dir] and [b], and the engine returns one result, fails when
    [b] is 13, and loses its log to the host when [b] is 99. *)
Definition item_a : SigItem :=
  {| item_type := Input; item_name := lit "a";
     item_ast_type := lit "expression"; item_default := None |}.

Definition item_b : SigItem :=
  {| item_type := Param; item_name := lit "b";
     item_ast_type := lit "expression"; item_default := None |}.

Definition item_c : SigItem :=
  {| item_type := Output; item_name := lit "c";
     item_ast_type := lit "expression"; item_default := None |}.

Definition demo_signature : list SigItem := [item_a; item_b; item_c].

Definition demo_action : Action :=
  {| a_id := lit "do_it"; a_name := lit "Do it";
     a_description := lit "Does it."; a_signature := demo_signature |}.

Definition demo_plugin : Plugin :=
  {| p_name := lit "dummy_plugin"; p_version := lit "1.0";
     p_website := lit "https://example.org"; p_description := lit "A plugin.";
     p_short_description := lit "Plugin."; p_user_support_text := lit "Ask.";
     p_actions := [(lit "do_it", demo_action)] |}.

Definition demo_to_cli_name (name : pystr) : pystr :=
  (λ c, if (c =? 95)%N then 45%N else c) <$> name.

Definition demo_flag (name : pystr) (kw : kwargs) (fb : fallback) : bool :=
  match spec_locate_value kw fb name (demo_to_cli_name name) with
  | Resolved (VBool b) => b
  | _ => false
  end.

Definition demo_config_file : list (pystr * value) :=
  [(lit "output-dir", VStr (lit "results")); (lit "b", VInt 7)].

Definition demo_CommandConfigHandler (plugin_name action_name : pystr)
    (kw : kwargs) : fallback :=
  match explicit_value kw (lit "cmd_config") with
  | Some _ => λ _ cli_name,
      snd <$> List.find (λ entry, bool_decide (entry.1 = cli_name))
                        demo_config_file
  | None => λ _ _, None
  end.

Definition demo_result : Result :=
  {| r_type := lit "FeatureTable"; r_save := λ output,
       match output with VStr path => path ++ lit ".qza" | _ => [] end |}.

Definition demo_run (plugin_name action_id : pystr)
    (arguments : gmap pystr value) : action_run :=
  {| run_writes := [(Stdout, lit "working"); (Stderr, lit "careful")];
     run_tmp_reaped :=
       match arguments !! lit "b" with Some (VInt 99) => true | _ => false end;
     run_end :=
       match arguments !! lit "b" with
       | Some (VInt 13) => Failed (EngineError (lit "boom"))
       | _ => Returned [demo_result]
       end |}.

Definition demo : Collaborators :=
  {| to_cli_name := demo_to_cli_name;
     py_repr := λ s, lit "'" ++ s ++ lit "'";
     ArtifactHandler := spec_ResultHandler demo_to_cli_name;
     parameter_handler_factory := spec_ResultHandler demo_to_cli_name;
     ResultHandler := spec_ResultHandler demo_to_cli_name;
     CollectionHandler := λ inner _, inner;
     VerboseHandler := demo_flag (lit "verbose");
     QuietHandler := demo_flag (lit "quiet");
     OutputDirHandler := spec_OutputDirHandler demo_to_cli_name;
     CommandConfigHandler := demo_CommandConfigHandler;
     run_action := demo_run;
     error_exit_status := 1 |}.

(** Parsed flags: [--a] and [--b] only; all three; with the config file;
    and the two logging flags together. *)
Definition kw_partial : kwargs :=
  <[lit "a" := VStr (lit "table.qza")]> (<[lit "b" := VInt 5]> ∅).

Definition kw_full : kwargs := <[lit "c" := VStr (lit "out")]> kw_partial.

Definition kw_config : kwargs :=
  <[lit "cmd_config" := VStr (lit "defaults.cfg")]> kw_partial.

Definition kw_failing : kwargs := <[lit "b" := VInt 13]> kw_full.

Definition kw_slow : kwargs := <[lit "b" := VInt 99]> kw_full.

Definition kw_verbose_failing : kwargs :=
  <[lit "verbose" := VBool true]> kw_failing.

Definition kw_clash : kwargs :=
  <[lit "verbose" := VBool true]> (<[lit "quiet" := VBool true]> ∅).

Definition demo_world : World :=
  start_world [] [] (lit "Usage: qiime dummy-plugin do-it [OPTIONS]")
              [lit "k3x9"].

Definition demo_command : ActionCommand :=
  new_ActionCommand (collab := demo) (lit "do-it") demo_plugin demo_action.

(** The name the log file gets in [demo_world]. *)
Definition log_name : pystr := lit "qiime2-q2cli-err-k3x9.log".

(** An action whose signature breaks the invariant of distinct names. *)
Definition twin_action : Action :=
  {| a_id := lit "twice"; a_name := lit "Twice"; a_description := lit "Twice.";
     a_signature := [item_a; item_a] |}.

(** A snapshot injected in place of the cache. *)
Definition injected_snapshot : snapshot := [(lit "dummy_plugin", demo_plugin)].

(** ** Vocabulary of the dispatch properties *)

(** The last element of [l] that satisfies [p]. *)
Definition last_such {A} (p : A → bool) (l : list A) : option A :=
  List.find p (rev l).

Section DispatchVocabulary.

Context {collab : Collaborators}.

(** A plugin entry of a snapshot that the root command shows under the
    command name [k]: it has actions and its name normalises to [k]. *)
Definition shown_as (k : pystr) (entry : pystr * Plugin) : bool :=
  nonempty (p_actions entry.2) && bool_decide (to_cli_name entry.1 = k).

(** An action entry of a plugin that is reached under the name [k]. *)
Definition reached_as (k : pystr) (entry : pystr * Action) : bool :=
  bool_decide (to_cli_name entry.1 = k).

(** A signature entry whose name is [k]. *)
Definition named (k : pystr) (item : SigItem) : bool :=
  bool_decide (item_name item = k).

(** The snapshot a lookup on [self] works from in world [w]: its own, or
    the cache when it has none yet. *)
Definition snapshot_in_use (self : RootCommand) (w : World) : snapshot :=
  default (cache_plugins w) (_plugins self).

(** The names of the builtin commands. *)
Definition builtin_names : list pystr := _builtin_commands.*1.

(** The names [list_commands] of the root returns. *)
Definition root_lists (self : RootCommand) (w : World) : list pystr :=
  match (RootCommand_list_commands self w).1 with
  | Ret (names, _) => names
  | _ => []
  end.

(** Whether [get_command] of the root returns a command for [name]. *)
Definition root_finds (self : RootCommand) (name : pystr) (w : World) : bool :=
  match (RootCommand_get_command self name w).1 with
  | Ret (Some _, _) => true
  | _ => false
  end.

End DispatchVocabulary.

(** ** Vocabulary of the properties of any signature *)

(** What a step leaves alone when it only logs events and records missing
    options: the argument vector, the temporary directory, the names
    [tempfile] will try, the cache and the help text. *)
Definition same_host (w w' : World) : Prop :=
  sys_argv w' = sys_argv w ∧ files w' = files w
  ∧ tmp_candidates w' = tmp_candidates w
  ∧ cache_plugins w' = cache_plugins w ∧ parent_help w' = parent_help w.

(** The results saved in a trace, with the locations they were saved to. *)
Definition saves (t : list event) : list (Result * value) :=
  omap (λ e, match e with Save result output => Some (result, output)
                     | _ => None end) t.

(** The event shows on the terminal: a line printed by the command, or
    text the action writes to a live stream. *)
Definition prints (e : event) : bool :=
  match e with
  | Echo _ _ _ | StreamWrite _ _ => true
  | _ => false
  end.

(** The calls of the action in a trace. *)
Definition calls (t : list event) : list (gmap pystr value) :=
  omap (λ e, match e with ActionCall arguments => Some arguments
                     | _ => None end) t.

(** How often [k] occurs in a listing. *)
Definition occurrences (k : pystr) (names : list pystr) : nat :=
  length (List.filter (λ x, bool_decide (x = k)) names).

Section MissingVocabulary.

Context {collab : Collaborators}.

(** The names [handle_in_params] takes over from the handler of [item]
    when the handlers' [missing] lists are [store] before the call. *)
Definition reported_again (self : ActionCommand) (kw : kwargs)
    (store : gmap pystr (list pystr)) (item : SigItem) : list pystr :=
  match in_resolution self kw item with
  | NotFound recorded => default [] (store !! item_name item) ++ recorded
  | Resolved _ => []
  end.

End MissingVocabulary.

(** ** The options an action command hands to click *)

(** What the handlers of [q2cli.handlers] and [q2cli.util] contribute to
    the command line: the [click.Option]s that [get_click_options] of a
    generated handler yields, those of the four meta-handlers of a command,
    and the citations option. *)
Class ClickOptions := {
  click_option : Type;
  get_click_options : Handler → list click_option;
  output_dir_options : list click_option;
  cmd_config_options : list click_option;
  verbose_options : list click_option;
  quiet_options : list click_option;
  citations_option : click_option;
}.

(** [d[k] = v] on an [OrderedDict] kept as its items in order: a key that
    is present keeps its place and takes the new value, a new key goes to
    the end. *)
Fixpoint od_set {V} (k : pystr) (v : V) (d : list (pystr * V))
    : list (pystr * V) :=
  match d with
  | [] => [(k, v)]
  | (k', v') :: d' =>
      if decide (k' = k) then (k, v) :: d' else (k', v') :: od_set k v d'
  end.

Section ClickParameters.

Context {collab : Collaborators} {opts : ClickOptions}.

(** [build_generated_handlers], keeping the order of the [OrderedDict] it
    returns. *)
Definition ordered_handlers (act : Action) : list (pystr * Handler) :=
  foldl (λ handlers item,
           let type := item_type item in
           let handler :=
             if decide (item_ast_type item = lit "collection") then
               let inner_handler := handler_map type item in
               CollectionHandler inner_handler item
             else handler_map type item in
           od_set (item_name item) handler handlers)
        [] (a_signature act).

(** [ActionCommand.get_click_parameters], for the command that [__init__]
    builds for [act]. *)
Definition get_click_parameters (act : Action) : list click_option :=
  flat_map (λ handler, get_click_options handler) (ordered_handlers act).*2
  ++ output_dir_options
  ++ cmd_config_options
  ++ verbose_options
  ++ quiet_options
  ++ [citations_option].

(** The options of every kind of command, in the order they are added. *)
Definition meta_options : list click_option :=
  output_dir_options ++ cmd_config_options ++ verbose_options
  ++ quiet_options ++ [citations_option].

End ClickParameters.

(** ** Further example inputs *)

(** A second plugin whose name normalises to that of [demo_plugin]. *)
Definition shadow_plugin : Plugin :=
  {| p_name := lit "dummy-plugin"; p_version := lit "2.0";
     p_website := lit "https://example.org"; p_description := lit "A twin.";
     p_short_description := lit "Twin."; p_user_support_text := lit "Ask.";
     p_actions := [(lit "redo", demo_action)] |}.

Definition twin_snapshot : snapshot :=
  [(lit "dummy_plugin", demo_plugin); (lit "dummy-plugin", shadow_plugin)].

(** A plugin with two actions whose ids normalise to the same name. *)
Definition twin_plugin : Plugin :=
  {| p_name := lit "twins"; p_version := lit "1.0";
     p_website := lit "https://example.org"; p_description := lit "Twins.";
     p_short_description := lit "Twins."; p_user_support_text := lit "Ask.";
     p_actions := [(lit "do_it", demo_action); (lit "do-it", twin_action)] |}.

(** A snapshot with a plugin called like a builtin command. *)
Definition info_snapshot : snapshot := [(lit "info", demo_plugin)].

(** A world in which the handler of entry [a] has recorded its option in
    an earlier call. *)
Definition second_call_world : World :=
  set_handler_missing {[ lit "a" := [lit "a"] ]} demo_world.

(** Options as their flags: a handler of the example deployment stands for
    one option, and each meta-handler for one. *)
Definition demo_options : ClickOptions :=
  {| click_option := pystr;
     get_click_options := λ handler,
       if h_is_metadata handler then [lit "--m-file"] else [lit "--option"];
     output_dir_options := [lit "--output-dir"];
     cmd_config_options := [lit "--cmd-config"];
     verbose_options := [lit "--verbose"];
     quiet_options := [lit "--quiet"];
     citations_option := lit "--citations" |}.

(** * Properties *)

(** ** Strings and the legacy-flag pattern *)

Lemma drop_prefix_Some p s r : drop_prefix p s = Some r ↔ s = p ++ r.
Proof.
  revert s. induction p as [|a p IH]; intros s; simpl.
  - split; [intros [= ->]; done | intros ->; done].
  - destruct s as [|b s]; [split; [done | intros [=]]|].
    case_decide as Hab.
    + subst b. rewrite IH. split; [intros ->; done | intros [= ->]; done].
    + split; [done | intros [= -> _]; done].
Qed.

Lemma drop_prefix_app p s : drop_prefix p (p ++ s) = Some s.
Proof. by apply drop_prefix_Some. Qed.

Lemma str_in_occurs x s : str_in x s = true ↔ occurs_in x s.
Proof.
  induction s as [|c s IH].
  - simpl. destruct (drop_prefix x []) as [r|] eqn:E.
    + apply drop_prefix_Some in E. split; [|done].
      intros _. exists [], r. done.
    + split; [done|]. intros (b & a & Hs).
      destruct b; [|done]. simpl in Hs.
      assert (drop_prefix x [] = Some a) by (by apply drop_prefix_Some).
      congruence.
  - cbn [str_in]. destruct (drop_prefix x (c :: s)) as [r|] eqn:E.
    + apply drop_prefix_Some in E. split; [|done].
      intros _. exists [], r. done.
    + rewrite IH. split.
      * intros (b & a & ->). exists (c :: b), a. done.
      * intros (b & a & Hs). destruct b as [|c' b].
        -- simpl in Hs.
           assert (drop_prefix x (c :: s) = Some a) by (by apply drop_prefix_Some).
           congruence.
        -- injection Hs as -> ->. exists b, a. done.
Qed.

Lemma occurs_in_join sep parts x : x ∈ parts → occurs_in x (join sep parts).
Proof.
  induction parts as [|p parts IH]; [by intros ?%elem_of_nil|].
  intros [->|Hin]%elem_of_cons.
  - destruct parts as [|q parts].
    + exists [], []. simpl. by rewrite app_nil_r.
    + exists [], (sep ++ join sep (q :: parts)). done.
  - destruct (IH Hin) as (b & a & Hj).
    destruct parts as [|q parts]; [by apply elem_of_nil in Hin|].
    exists (p ++ sep ++ b), a.
    change (join sep (p :: q :: parts)) with (p ++ sep ++ join sep (q :: parts)).
    rewrite Hj. by rewrite <- !app_assoc.
Qed.

Lemma occurs_in_app_l x a b : occurs_in x a → occurs_in x (a ++ b).
Proof.
  intros (p & q & ->). exists p, (q ++ b). by rewrite <- !app_assoc.
Qed.

Lemma occurs_in_app_r x a b : occurs_in x b → occurs_in x (a ++ b).
Proof.
  intros (p & q & ->). exists (a ++ p), q. by rewrite <- !app_assoc.
Qed.

Lemma nonspace_plus_sound {R} (k : pystr → pystr → option R) acc s r :
  Re.nonspace_plus k acc s = Some r →
  ∃ x rest, s = x ++ rest ∧ x ≠ [] ∧ no_space x ∧ k (acc ++ x) rest = Some r.
Proof.
  revert acc. induction s as [|c s IH]; intros acc; simpl; [done|].
  destruct (is_space c) eqn:Hc; [done|].
  destruct (Re.nonspace_plus k (acc ++ [c]) s) as [r'|] eqn:E.
  - intros [= ->]. destruct (IH _ E) as (x & rest & -> & _ & Hx & Hk).
    exists (c :: x), rest. split_and!; [done | done | |].
    + unfold no_space in *. simpl. by rewrite Hc.
    + by rewrite <- app_assoc in Hk.
  - intros Hk. exists [c], s. split_and!; [done | done | | done].
    unfold no_space. simpl. by rewrite Hc.
Qed.

Lemma nonspace_plus_complete {R} (k : pystr → pystr → option R) acc x rest :
  x ≠ [] → no_space x → is_Some (k (acc ++ x) rest) →
  is_Some (Re.nonspace_plus k acc (x ++ rest)).
Proof.
  revert acc. induction x as [|c x IH]; intros acc Hne Hx Hk; [done|].
  unfold no_space in Hx. simpl in Hx. apply andb_true_iff in Hx as [Hc Hx].
  apply negb_true_iff in Hc. simpl. rewrite Hc.
  destruct (Re.nonspace_plus k (acc ++ [c]) (x ++ rest)) eqn:E; [done|].
  destruct x as [|d x].
  - simpl in *. done.
  - assert (is_Some (Re.nonspace_plus k (acc ++ [c]) ((d :: x) ++ rest))) as [? Hs].
    { apply IH; [done | done |]. by rewrite <- app_assoc. }
    congruence.
Qed.

(** What the legacy pattern matches: the whole token is
    [--m-<field>-category], the field not empty and free of whitespace;
    the field is the one group. *)
Lemma category_fullmatch_iff (tok : pystr) (groups : list pystr) :
  Re.fullmatch category_regex tok = Some groups ↔
  ∃ field, groups = [field] ∧ tok = lit "--m-" ++ field ++ lit "-category"
           ∧ field ≠ [] ∧ no_space field.
Proof.
  unfold category_regex. cbn [Re.fullmatch].
  set (k := λ (g rest : pystr),
              cons g <$> match drop_prefix (lit "-category") rest with
                         | Some rest0 => match rest0 with [] => Some [] | _ => None end
                         | None => None
                         end).
  assert (Hk : ∀ g rest r, k g rest = Some r ↔ rest = lit "-category" ∧ r = [g]).
  { intros g rest r. unfold k.
    destruct (drop_prefix (lit "-category") rest) as [r0|] eqn:E.
    - apply drop_prefix_Some in E. destruct r0.
      + rewrite app_nil_r in E. simpl. split; [intros [= <-]; done|].
        intros [_ ->]. done.
      + simpl. split; [done|]. intros [-> _].
        apply (f_equal length) in E. rewrite length_app in E. simpl in E. lia.
    - simpl. split; [done|]. intros [-> _].
      assert (drop_prefix (lit "-category") (lit "-category") = Some []) by done.
      congruence. }
  destruct (drop_prefix (lit "--m-") tok) as [body|] eqn:E.
  - apply drop_prefix_Some in E. subst tok. split.
    + intros Hm. apply nonspace_plus_sound in Hm as (x & rest & -> & Hne & Hx & Hr).
      apply Hk in Hr as [-> ->]. exists x. done.
    + intros (field & -> & Heq & Hne & Hx).
      apply app_inv_head in Heq. subst body.
      assert (is_Some (Re.nonspace_plus k [] (field ++ lit "-category"))) as [r Hr].
      { apply nonspace_plus_complete; [done | done |]. exists [field]. by apply Hk. }
      rewrite Hr. f_equal.
      apply nonspace_plus_sound in Hr as (x & rest & Heq & _ & _ & Hr).
      apply Hk in Hr as [-> ->]. by apply app_inv_tail in Heq as ->.
  - split; [done|]. intros (field & _ & -> & _).
    rewrite drop_prefix_app in E. done.
Qed.

(** ** RootCommand.__init__: the scan of the raw argument vector *)

Lemma has_invalid_char_iff (tok : pystr) :
  has_invalid_char tok = true ↔ ∃ c, c ∈ disallowed ∧ c ∈ tok.
Proof.
  unfold has_invalid_char, unicodes, disallowed.
  assert (Hone : ∀ c, str_in [c] tok = true ↔ c ∈ tok).
  { intros c. rewrite str_in_occurs. split.
    - intros (b & a & ->). set_solver.
    - intros (b & a & ->)%list_elem_of_split. by exists b, a. }
  cbn [existsb]. rewrite !orb_true_iff, !Hone. split.
  - intros [Hc|[Hc|[Hc|[Hc|[Hc|Hc]]]]]; [| | | | |done];
      eexists; (split; [|exact Hc]); clear; set_solver.
  - intros (c & Hc & Hin). rewrite !elem_of_cons in Hc.
    repeat destruct Hc as [->|Hc]; auto 10. by apply elem_of_nil in Hc.
Qed.

Lemma legacy_rename_iff (tok : pystr) (pair : pystr * pystr) :
  legacy_rename tok = Some pair ↔
  ∃ field, tok = lit "--m-" ++ field ++ lit "-category" ∧ field ≠ []
           ∧ no_space field
           ∧ pair = (tok, lit "--m-" ++ field ++ lit "-column").
Proof.
  unfold legacy_rename.
  destruct (Re.fullmatch category_regex tok) as [groups|] eqn:E.
  - apply category_fullmatch_iff in E as (field & -> & Htok & Hne & Hsp).
    split.
    + intros [= <-]. by exists field.
    + intros (field' & Htok' & _ & _ & ->). rewrite Htok in Htok'.
      apply app_inv_head, app_inv_tail in Htok'. by subst.
  - split; [done|]. intros (field & Htok & Hne & Hsp & _).
    assert (Re.fullmatch category_regex tok = Some [field]); [|congruence].
    apply category_fullmatch_iff. by exists field.
Qed.

Lemma legacy_rename_fullmatch (tok : pystr) :
  is_Some (legacy_rename tok) ↔ is_Some (Re.fullmatch category_regex tok).
Proof.
  unfold legacy_rename. split.
  - intros [? Hp]. destruct (Re.fullmatch category_regex tok); [done|done].
  - intros [groups Hg]. rewrite Hg.
    apply category_fullmatch_iff in Hg as (field & -> & _). done.
Qed.

Lemma scan_token_eq invalid_chars categories (tok : pystr) (w : World) :
  scan_token (invalid_chars, categories) tok w
  = (Ret (invalid_chars ++ (if has_invalid_char tok then [tok] else []),
          categories ++ (match legacy_rename tok with Some p => [p] | None => [] end)),
     w).
Proof.
  unfold scan_token, legacy_rename. fold (has_invalid_char tok).
  destruct (Re.fullmatch category_regex tok) as [groups|] eqn:E.
  - apply category_fullmatch_iff in E as (field & -> & _).
    destruct (has_invalid_char tok); by rewrite ?app_nil_r.
  - destruct (has_invalid_char tok); by rewrite ?app_nil_r.
Qed.

Lemma scan_loop (argv : list pystr) invalid_chars categories (w : World) :
  for_ argv scan_token (invalid_chars, categories) w
  = (Ret (invalid_chars ++ invalid_tokens argv,
          categories ++ legacy_renames argv), w).
Proof.
  revert invalid_chars categories.
  induction argv as [|tok argv IH]; intros ic cats.
  - unfold invalid_tokens, legacy_renames. cbn. by rewrite !app_nil_r.
  - cbn [for_]. unfold mbind, M_bind. rewrite scan_token_eq, IH.
    unfold invalid_tokens, legacy_renames. cbn [List.filter omap list_omap].
    destruct (has_invalid_char tok), (legacy_rename tok);
      by rewrite <- ?app_assoc, ?app_nil_r.
Qed.

Lemma set_trace_twice t1 t2 (w : World) :
  set_trace t2 (set_trace t1 w) = set_trace t2 w.
Proof. done. Qed.

Lemma set_trace_same (w : World) : set_trace (trace w) w = w.
Proof. by destruct w. Qed.

Lemma nonempty_false {A} (l : list A) : nonempty l = false ↔ l = [].
Proof. by destruct l. Qed.

Lemma nonempty_true {A} (l : list A) : nonempty l = true ↔ l ≠ [].
Proof. by destruct l. Qed.

Lemma nonempty_existsb (argv : list pystr) :
  nonempty (invalid_tokens argv) || nonempty (legacy_renames argv)
  = existsb offending argv.
Proof.
  unfold invalid_tokens, legacy_renames.
  induction argv as [|tok argv IH]; [done|].
  cbn [List.filter omap list_omap existsb]. rewrite <- IH. unfold offending.
  assert (is_legacy tok = bool_decide (is_Some (legacy_rename tok))) as ->.
  { unfold is_legacy. apply eq_sym. case_bool_decide as Hd.
    - apply legacy_rename_fullmatch in Hd as [? ->]. done.
    - destruct (Re.fullmatch category_regex tok) eqn:E; [|done].
      exfalso. apply Hd, legacy_rename_fullmatch. by rewrite E. }
  destruct (has_invalid_char tok), (legacy_rename tok); cbn;
    rewrite ?orb_true_r; done.
Qed.

(** [__init__] in closed form: either it prints the reports and exits with
    -1, or it goes on to the constructor of the parsing framework. *)
Lemma RootCommand_init_eq (w : World) :
  RootCommand_init w =
  if existsb offending (sys_argv w)
  then (Exit (-1), set_trace (trace w ++ token_reports (sys_argv w)) w)
  else (Ret {| _plugins := None |}, set_trace (trace w ++ [SuperInit]) w).
Proof.
  rewrite <- nonempty_existsb. unfold RootCommand_init, token_reports.
  unfold mbind, M_bind, gets. rewrite scan_loop. cbn [app].
  destruct (nonempty (invalid_tokens (sys_argv w))) eqn:Hi,
           (nonempty (legacy_renames (sys_argv w))) eqn:Hc; cbn.
  all: unfold set_trace; cbn; by rewrite <- ?app_assoc.
Qed.

(** C3. When the raw argument vector has a token with a smart quote or an
    em-dash, or a token of the legacy form, construction of the root
    command prints its reports and exits with status -1 without reaching
    the parsing framework; every token with a disallowed character is named
    in a report, and for every legacy token a report suggests the
    [--m-<field>-column] spelling. *)
Theorem C3_offending_tokens_all_reported (w : World) :
  (∃ tok, tok ∈ sys_argv w
          ∧ ((∃ c, c ∈ disallowed ∧ c ∈ tok)
             ∨ is_Some (Re.fullmatch category_regex tok))) →
  RootCommand_init w
    = (Exit (-1), set_trace (trace w ++ token_reports (sys_argv w)) w)
  ∧ (SuperInit ∉ token_reports (sys_argv w))
  ∧ (∀ tok, tok ∈ sys_argv w → (∃ c, c ∈ disallowed ∧ c ∈ tok) →
       ∃ msg, Echo Stderr RedBold msg ∈ token_reports (sys_argv w)
              ∧ occurs_in tok msg)
  ∧ (∀ tok field, tok ∈ sys_argv w →
       tok = lit "--m-" ++ field ++ lit "-category" → field ≠ [] →
       no_space field →
       ∃ msg, Echo Stderr RedBold msg ∈ token_reports (sys_argv w)
              ∧ occurs_in (lit "Instead of " ++ tok ++ lit ", trying using "
                           ++ lit "--m-" ++ field ++ lit "-column") msg).
Proof.
  intros (tok0 & Hin0 & Hoff). split_and!.
  - rewrite RootCommand_init_eq.
    assert (existsb offending (sys_argv w) = true) as ->; [|done].
    apply existsb_exists. exists tok0. split; [by apply list_elem_of_In|].
    unfold offending. apply orb_true_iff. destruct Hoff as [Hc|[g Hg]].
    + left. by apply has_invalid_char_iff.
    + right. unfold is_legacy. by rewrite Hg.
  - unfold token_reports.
    destruct (nonempty (invalid_tokens _)), (nonempty (legacy_renames _));
      cbn; rewrite ?elem_of_cons, ?elem_of_nil; intuition discriminate.
  - intros tok Hin Hc. apply has_invalid_char_iff in Hc.
    assert (Hmem : tok ∈ invalid_tokens (sys_argv w)).
    { apply list_elem_of_In, filter_In. split; [by apply list_elem_of_In | done]. }
    exists (invalid_chars_msg (invalid_tokens (sys_argv w))). split.
    + unfold token_reports.
      destruct (invalid_tokens (sys_argv w)) eqn:E; [by apply elem_of_nil in Hmem|].
      cbn [nonempty]. apply elem_of_app. left. apply list_elem_of_singleton. done.
    + unfold invalid_chars_msg. apply occurs_in_app_r, occurs_in_app_l.
      by apply occurs_in_join.
  - intros tok field Hin Htok Hne Hsp.
    set (pair := (tok, lit "--m-" ++ field ++ lit "-column")).
    assert (Hmem : pair ∈ legacy_renames (sys_argv w)).
    { apply list_elem_of_omap. exists tok. split; [done|].
      apply legacy_rename_iff. by exists field. }
    exists (categories_msg (legacy_renames (sys_argv w))). split.
    + unfold token_reports.
      destruct (legacy_renames (sys_argv w)) eqn:E; [by apply elem_of_nil in Hmem|].
      cbn [nonempty]. apply elem_of_app. right. apply list_elem_of_singleton. done.
    + unfold categories_msg. do 5 apply occurs_in_app_r.
      apply occurs_in_join.
      apply (list_elem_of_fmap_2 (λ '(old, new),
               lit "Instead of " ++ old ++ lit ", trying using " ++ new) _ pair) in Hmem.
      exact Hmem.
Qed.

(** C3 at an argument vector with a smart-quoted token and a legacy flag. *)
Lemma C3_witness :
  RootCommand_init bad_argv_world
  = (Exit (-1),
     set_trace (trace bad_argv_world ++ token_reports (sys_argv bad_argv_world))
               bad_argv_world).
Proof.
  refine (proj1 (C3_offending_tokens_all_reported bad_argv_world _)).
  exists quoted_token. split.
  - apply (bool_decide_unpack _). vm_compute. exact I.
  - left. exists 8220%N. split; apply (bool_decide_unpack _); vm_compute; exact I.
Defined.

(** C10 as stated fails: a legacy flag with an attached value can be
    detected. This token is of the form [--m-<field>-category=<value>], the
    pattern matches the whole of it with the field [a-category=b], and
    construction exits with -1. *)
Lemma C10_attached_value_detected :
  attached_token = lit "--m-" ++ lit "a" ++ lit "-category=" ++ lit "b-category"
  ∧ legacy_rename attached_token
    = Some (attached_token, lit "--m-a-category=b-column")
  ∧ (RootCommand_init attached_argv_world).1 = Exit (-1).
Proof. split_and!; vm_compute; reflexivity. Qed.

(** C10, amended. The legacy check matches whole tokens only: a token is
    detected exactly when all of it is [--m-<field>-category], the field not
    empty and free of whitespace. A token [--m-<field>-category=<value>] is
    detected exactly when the value itself ends in [-category] and the text
    between [--m-] and that ending has no whitespace and is thus a field.
    Construction exits with -1 exactly when some token is detected or has a
    disallowed character; otherwise it reaches the parsing framework. *)
Theorem C10_legacy_check_whole_token :
  (∀ tok, is_legacy tok = true ↔
          ∃ field, tok = lit "--m-" ++ field ++ lit "-category"
                   ∧ field ≠ [] ∧ no_space field)
  ∧ (∀ field value,
       is_legacy (lit "--m-" ++ field ++ lit "-category=" ++ value) = true ↔
       ∃ stem, value = stem ++ lit "-category"
               ∧ no_space (field ++ lit "-category=" ++ stem))
  ∧ (∀ w, RootCommand_init w =
          if existsb offending (sys_argv w)
          then (Exit (-1), set_trace (trace w ++ token_reports (sys_argv w)) w)
          else (Ret {| _plugins := None |}, set_trace (trace w ++ [SuperInit]) w)).
Proof.
  assert (Hwhole : ∀ tok, is_legacy tok = true ↔
            ∃ field, tok = lit "--m-" ++ field ++ lit "-category"
                     ∧ field ≠ [] ∧ no_space field).
  { intros tok. unfold is_legacy.
    destruct (Re.fullmatch category_regex tok) as [groups|] eqn:E.
    - apply category_fullmatch_iff in E as (field & _ & Htok & Hne & Hsp).
      split; [|done]. intros _. by exists field.
    - split; [done|]. intros (field & Htok & Hne & Hsp).
      assert (Re.fullmatch category_regex tok = Some [field]); [|congruence].
      apply category_fullmatch_iff. by exists field. }
  split_and!; [exact Hwhole | | exact RootCommand_init_eq].
  intros field value. rewrite Hwhole. split.
  - intros (field' & Heq & Hne & Hsp).
    apply app_inv_head in Heq.
    assert (Hsuf : lit "-category" `suffix_of` value).
    { rewrite app_assoc in Heq.
      apply app_eq_inv in Heq as [(k & Hk & Hv)|(k & _ & Hv)]; [|by exists k].
      destruct k as [|x k _] using rev_ind.
      { exists []. by rewrite Hv. }
      exfalso. change (lit "-category=") with (lit "-category" ++ [61%N]) in Hk.
      rewrite !app_assoc in Hk. apply app_inj_tail in Hk as [_ <-].
      assert (Hnot : 61%N ∉ lit "-category").
      { apply (bool_decide_unpack _). vm_compute. exact I. }
      apply Hnot. rewrite Hv. clear. set_solver. }
    destruct Hsuf as [stem ->]. exists stem. split; [done|].
    rewrite !app_assoc in Heq. apply app_inv_tail in Heq.
    rewrite <- Heq in Hsp. by rewrite <- !app_assoc in Hsp.
  - intros (stem & -> & Hsp). exists (field ++ lit "-category=" ++ stem).
    split_and!; [by rewrite <- !app_assoc | | done].
    intros Hnil. apply (f_equal length) in Hnil.
    rewrite !length_app in Hnil.
    change (length (lit "-category=")) with 10%nat in Hnil.
    cbn in Hnil. lia.
Qed.

(** ** PluginCommand.get_command *)

Section PluginProperties.

Context {collab : Collaborators}.

Lemma action_lookup_None (pl : Plugin) (pcname name : pystr) :
  _action_lookup (PluginCommand_init pl pcname) !! name = None ↔
  name ∉ (λ e, to_cli_name e.1) <$> p_actions pl.
Proof.
  cbn [PluginCommand_init _action_lookup].
  cut (∀ (m : gmap pystr Action),
         foldl (λ lookup '(id, a), <[to_cli_name id := a]> lookup) m (p_actions pl)
           !! name = None ↔
         m !! name = None ∧ name ∉ (λ e, to_cli_name e.1) <$> p_actions pl).
  { intros Hc. rewrite Hc, lookup_empty. tauto. }
  induction (p_actions pl) as [|[id a] l IH]; intros m; cbn [foldl fmap list_fmap].
  - rewrite elem_of_nil. tauto.
  - rewrite IH, not_elem_of_cons, lookup_insert_None. cbn. intuition auto.
Qed.

Lemma action_lookup_Some (pl : Plugin) (pcname name : pystr) (act : Action) :
  _action_lookup (PluginCommand_init pl pcname) !! name = Some act →
  ∃ id, (id, act) ∈ p_actions pl ∧ to_cli_name id = name.
Proof.
  cbn [PluginCommand_init _action_lookup].
  cut (∀ (m : gmap pystr Action),
         foldl (λ lookup '(id, a), <[to_cli_name id := a]> lookup) m (p_actions pl)
           !! name = Some act →
         m !! name = Some act
         ∨ ∃ id, (id, act) ∈ p_actions pl ∧ to_cli_name id = name).
  { intros Hc Hl. apply Hc in Hl as [Hl|Hl]; [by rewrite lookup_empty in Hl|done]. }
  induction (p_actions pl) as [|[id a] l IH]; intros m; cbn [foldl]; [by left|].
  intros [Hm|(id' & Hin & Hid)]%IH.
  - apply lookup_insert_Some in Hm as [[<- <-]|[_ Hm]]; [|by left].
    right. exists id. split; [by left|done].
  - right. exists id'. split; [by right|done].
Qed.

(** C7. Under a plugin, a name that none of its actions has makes
    [get_command] print one line to the error stream, naming the plugin and
    the name asked for, and exit with status 2; a name of one of its actions
    yields a new ActionCommand for that action, its handlers fresh. *)
Theorem C7_unknown_action_exits_2 (pl : Plugin) (pcname name : pystr) (w : World) :
  (name ∉ (λ e, to_cli_name e.1) <$> p_actions pl →
   PluginCommand_get_command (PluginCommand_init pl pcname) name w
   = (Exit 2,
      set_trace (trace w ++
                 [Echo Stderr Plain
                    (lit "Error: QIIME 2 plugin " ++ py_repr (p_name pl)
                     ++ lit " has no action " ++ py_repr name ++ lit ".")]) w))
  ∧ (name ∈ (λ e, to_cli_name e.1) <$> p_actions pl →
     ∃ id act, (id, act) ∈ p_actions pl ∧ to_cli_name id = name
               ∧ PluginCommand_get_command (PluginCommand_init pl pcname) name w
                 = (Ret (new_ActionCommand name pl act), set_handler_missing ∅ w)).
Proof.
  split.
  - intros Hno. apply (action_lookup_None pl pcname) in Hno.
    unfold PluginCommand_get_command. rewrite Hno. done.
  - intros Hyes.
    destruct (_action_lookup (PluginCommand_init pl pcname) !! name) as [act|] eqn:E.
    + destruct (action_lookup_Some _ _ _ _ E) as (id & Hin & Hid).
      exists id, act. split_and!; [done | done |].
      unfold PluginCommand_get_command. rewrite E. done.
    + by apply action_lookup_None in E.
Qed.

End PluginProperties.

(** C7 at the example plugin: an unknown and a known action name. *)
Lemma C7_witness :
  PluginCommand_get_command (collab := demo)
    (PluginCommand_init (collab := demo) demo_plugin (lit "dummy-plugin"))
    (lit "undo-it") (start_world [] [] [] [])
  = (Exit 2,
     set_trace [Echo Stderr Plain
                  (lit "Error: QIIME 2 plugin 'dummy_plugin' has no action 'undo-it'.")]
               (start_world [] [] [] []))
  ∧ ∃ id act,
      (id, act) ∈ p_actions demo_plugin ∧ demo_to_cli_name id = lit "do-it"
      ∧ PluginCommand_get_command (collab := demo)
          (PluginCommand_init (collab := demo) demo_plugin (lit "dummy-plugin"))
          (lit "do-it") (start_world [] [] [] [])
        = (Ret (new_ActionCommand (collab := demo) (lit "do-it") demo_plugin act),
           set_handler_missing ∅ (start_world [] [] [] [])).
Proof.
  split.
  - refine (proj1 (C7_unknown_action_exits_2 (collab := demo) demo_plugin
                     (lit "dummy-plugin") (lit "undo-it") (start_world [] [] [] [])) _).
    apply (bool_decide_unpack _). vm_compute. exact I.
  - refine (proj2 (C7_unknown_action_exits_2 (collab := demo) demo_plugin
                     (lit "dummy-plugin") (lit "do-it") (start_world [] [] [] [])) _).
    apply (bool_decide_unpack _). vm_compute. exact I.
Defined.

(** ** RootCommand._plugin_lookup: the memoised snapshot *)

Section RootProperties.

Context {collab : Collaborators}.

Lemma plugin_lookup_memoised (self : RootCommand) (s : snapshot) (w : World) :
  _plugins self = Some s →
  _plugin_lookup self w = (Ret (name_map_of s, self), w).
Proof. destruct self as [p]. cbn. intros ->. done. Qed.

Lemma plugin_lookup_first (self : RootCommand) (w : World) :
  _plugins self = None →
  _plugin_lookup self w
  = (Ret (name_map_of (cache_plugins w), {| _plugins := Some (cache_plugins w) |}),
     set_trace (trace w ++ [CacheRead]) w).
Proof. destruct self as [p]. cbn. intros ->. done. Qed.

Lemma access_memoised (a : root_access) (self : RootCommand) (s : snapshot)
    (w : World) :
  _plugins self = Some s → access a self w = (Ret self, w).
Proof.
  intros Hs. destruct a as [| |name]; unfold access.
  - unfold mbind, M_bind. by rewrite (plugin_lookup_memoised _ _ _ Hs).
  - unfold RootCommand_list_commands, mbind, M_bind.
    by rewrite (plugin_lookup_memoised _ _ _ Hs).
  - unfold RootCommand_get_command, mbind, M_bind.
    destruct (list_find _ _) as [[? [? ?]]|]; [done|].
    rewrite (plugin_lookup_memoised _ _ _ Hs).
    by destruct (name_map_of s !! name).
Qed.

Lemma access_first (a : root_access) (self : RootCommand) (w : World) :
  _plugins self = None →
  access a self w = (Ret self, w)
  ∨ access a self w = (Ret {| _plugins := Some (cache_plugins w) |},
                       set_trace (trace w ++ [CacheRead]) w).
Proof.
  intros Hs. destruct a as [| |name]; unfold access.
  - right. unfold mbind, M_bind. by rewrite (plugin_lookup_first _ _ Hs).
  - right. unfold RootCommand_list_commands, mbind, M_bind.
    by rewrite (plugin_lookup_first _ _ Hs).
  - unfold RootCommand_get_command, mbind, M_bind.
    destruct (list_find _ _) as [[? [? ?]]|]; [by left|]. right.
    rewrite (plugin_lookup_first _ _ Hs).
    by destruct (name_map_of (cache_plugins w) !! name).
Qed.

Lemma accesses_memoised (run : list root_access) (self : RootCommand)
    (s : snapshot) (w : World) :
  _plugins self = Some s → accesses run self w = (Ret self, w).
Proof.
  intros Hs. unfold accesses. induction run as [|a run IH]; [done|].
  cbn [for_]. unfold mbind, M_bind at 1.
  by rewrite (access_memoised a _ _ _ Hs).
Qed.

Lemma cache_reads_snoc (t : list event) :
  cache_reads (t ++ [CacheRead]) = S (cache_reads t).
Proof.
  unfold cache_reads. rewrite List.filter_app, length_app. cbn. lia.
Qed.

(** C8. A lookup on a root command that holds a snapshot, its own or an
    injected one, answers from that snapshot, reads nothing and leaves the
    snapshot in place; a lookup on one that holds none reads the cache once
    and keeps what it read. So in any run of accesses the cache is read at
    most once, and never when a snapshot was injected before. *)
Theorem C8_snapshot_read_at_most_once (self : RootCommand) (w : World) :
  (∀ s, _plugins self = Some s →
        _plugin_lookup self w = (Ret (name_map_of s, self), w))
  ∧ (_plugins self = None →
     _plugin_lookup self w
     = (Ret (name_map_of (cache_plugins w),
             {| _plugins := Some (cache_plugins w) |}),
        set_trace (trace w ++ [CacheRead]) w))
  ∧ (∀ run, ∃ self' w',
       accesses run self w = (Ret self', w')
       ∧ (cache_reads (trace w') ≤ cache_reads (trace w) + 1)%nat
       ∧ (∀ s, _plugins self = Some s →
               self' = self ∧ cache_reads (trace w') = cache_reads (trace w))
       ∧ (cache_reads (trace w') = (cache_reads (trace w) + 1)%nat →
          _plugins self = None ∧ _plugins self' = Some (cache_plugins w))).
Proof.
  split_and!.
  - intros s. apply plugin_lookup_memoised.
  - apply plugin_lookup_first.
  - intros run. destruct (_plugins self) as [s|] eqn:Hs.
    + exists self, w. rewrite (accesses_memoised run self s w Hs).
      split_and!; [done | lia | done | lia].
    + revert self w Hs. induction run as [|a run IH]; intros self w Hs.
      { exists self, w. split_and!; [done | lia | done | lia]. }
      unfold accesses. cbn [for_]. unfold mbind, M_bind at 1.
      destruct (access_first a self w Hs) as [-> | ->].
      * destruct (IH self w Hs) as (self' & w' & Hrun & Hle & Hkeep & Hone).
        exists self', w'. split_and!; [done | done | done | done].
      * eexists _, _. split; [apply (accesses_memoised run _ (cache_plugins w)); done|].
        cbn [trace set_trace]. rewrite cache_reads_snoc.
        split_and!; [lia | done | done].
Qed.

End RootProperties.

(** ** ActionCommand: resolution *)

Section ActionProperties.

Context {collab : Collaborators}.

Lemma NoDup_fmap_eq {A B} (f : A → B) (l : list A) (x y : A) :
  NoDup (f <$> l) → x ∈ l → y ∈ l → f x = f y → x = y.
Proof.
  induction l as [|a l IH]; [by intros _ ?%elem_of_nil|].
  rewrite fmap_cons, NoDup_cons. intros [Hna Hnd] Hx Hy Hf.
  apply elem_of_cons in Hx as [->|Hx], Hy as [->|Hy]; [done | | | by apply IH].
  - exfalso. apply Hna. rewrite Hf. by apply list_elem_of_fmap_2.
  - exfalso. apply Hna. rewrite <- Hf. by apply list_elem_of_fmap_2.
Qed.

Lemma build_handlers_fold (items : list SigItem) (m : gmap pystr Handler)
    (item : SigItem) :
  NoDup (item_name <$> items) →
  let built :=
    foldl (λ handlers item,
             let type := item_type item in
             let handler :=
               if decide (item_ast_type item = lit "collection") then
                 let inner_handler := handler_map type item in
                 CollectionHandler inner_handler item
               else handler_map type item in
             <[item_name item := handler]> handlers) m items in
  (item ∈ items → built !! item_name item = Some (entry_handler item))
  ∧ (∀ name, name ∉ item_name <$> items → built !! name = m !! name).
Proof.
  revert m. induction items as [|x items IH]; intros m Hnd built.
  - split; [by intros ?%elem_of_nil | done].
  - rewrite fmap_cons in Hnd. apply NoDup_cons in Hnd as [Hx Hnd].
    subst built. cbn [foldl]. cbn zeta.
    destruct (IH (<[item_name x := entry_handler x]> m) Hnd) as [Hin Hout].
    unfold entry_handler in Hin, Hout at 1. cbn zeta in Hin, Hout. split.
    + intros [->|Hi]%elem_of_cons; [|by apply Hin].
      rewrite (Hout _ Hx). by rewrite lookup_insert_eq.
    + intros name [Hne Hni]%not_elem_of_cons.
      rewrite (Hout _ Hni). by rewrite lookup_insert_ne.
Qed.

Lemma handlers_lookup (name : pystr) (pl : Plugin) (act : Action) (item : SigItem) :
  NoDup (item_name <$> a_signature act) → item ∈ a_signature act →
  generated_handlers (new_ActionCommand name pl act) !! item_name item
  = Some (entry_handler item).
Proof.
  intros Hnd Hin. cbn [new_ActionCommand generated_handlers].
  by apply (build_handlers_fold (a_signature act) ∅ item Hnd).
Qed.

Lemma try_get_value_eq (name : pystr) (h : Handler) (verbose : option bool)
    (kw : kwargs) (fb : fallback) (w : World) :
  try_get_value name h verbose kw fb w =
  match h_get_value h verbose kw fb with
  | Resolved v => (Ret (Some v), set_trace (trace w ++ [GetValue name]) w)
  | NotFound recorded =>
      (Ret None,
       set_handler_missing
         (<[name := default [] (handler_missing w !! name) ++ recorded]>
            (handler_missing w))
         (set_trace (trace w ++ [GetValue name]) w))
  end.
Proof.
  unfold try_get_value, mbind, M_bind, emit.
  by destruct (h_get_value h verbose kw fb).
Qed.

Ltac world_eq :=
  unfold set_trace, set_handler_missing, set_files; cbn;
  rewrite <- ?app_assoc, ?app_nil_r; try done.

Lemma record_missing_cons (res : SigItem → resolution) store x items :
  record_missing res store (x :: items)
  = record_missing res
      (match res x with
       | NotFound recorded =>
           <[item_name x := default [] (store !! item_name x) ++ recorded]> store
       | Resolved _ => store
       end) items.
Proof. done. Qed.

Lemma record_missing_lookup_ne (res : SigItem → resolution) store items name :
  name ∉ item_name <$> items →
  record_missing res store items !! name = store !! name.
Proof.
  revert store. induction items as [|x items IH]; intros store; [done|].
  rewrite fmap_cons. intros [Hne Hni]%not_elem_of_cons.
  rewrite record_missing_cons, (IH _ Hni).
  destruct (res x); [done|]. by rewrite lookup_insert_ne.
Qed.

(** One pass of the loop of [handle_in_params]. *)
Lemma in_params_body_eq (self : ActionCommand) (kw : kwargs)
    (arguments : gmap pystr value) (missing : list pystr) (x : SigItem)
    (w : World) :
  generated_handlers self !! item_name x = Some (entry_handler x) →
  in_params_body self kw (cmd_config_handler self kw) (resolved_verbose self kw)
    (arguments, missing) x w
  = if is_in x then
      match in_resolution self kw x with
      | Resolved v =>
          (Ret (<[item_name x := v]> arguments, missing),
           set_trace (trace w ++ [GetValue (item_name x)]) w)
      | NotFound recorded =>
          let now := default [] (handler_missing w !! item_name x) ++ recorded in
          (Ret (arguments, missing ++ now),
           set_handler_missing (<[item_name x := now]> (handler_missing w))
             (set_trace (trace w ++ [GetValue (item_name x)]) w))
      end
    else (Ret (arguments, missing), w).
Proof.
  intros Hh. unfold in_params_body, is_in, in_resolution.
  destruct (item_type x); [| |done].
  all: unfold lookup_handler; rewrite Hh; unfold mbind, M_bind, mret, M_ret;
    destruct (h_is_metadata (entry_handler x)); rewrite try_get_value_eq;
    (destruct (h_get_value (entry_handler x) _ kw _); [done|]);
    unfold handler_missing_of, gets; cbn [handler_missing set_handler_missing];
    by rewrite lookup_insert_eq.
Qed.

(** The loop of [handle_in_params] over a signature whose names are
    distinct and whose handlers are new. *)
Lemma in_loop (self : ActionCommand) (kw : kwargs) (items : list SigItem)
    (arguments : gmap pystr value) (missing : list pystr) (w : World) :
  (∀ item, item ∈ items →
     generated_handlers self !! item_name item = Some (entry_handler item)) →
  NoDup (item_name <$> items) →
  (∀ item, item ∈ items → handler_missing w !! item_name item = None) →
  for_ items
       (in_params_body self kw (cmd_config_handler self kw) (resolved_verbose self kw))
       (arguments, missing) w
  = (Ret (foldl (λ arguments item,
                   match in_resolution self kw item with
                   | Resolved v => <[item_name item := v]> arguments
                   | NotFound _ => arguments
                   end) arguments (List.filter is_in items),
          missing ++ flat_map (λ item, recorded_of (in_resolution self kw item))
                              (List.filter is_in items)),
     set_handler_missing
       (record_missing (in_resolution self kw) (handler_missing w)
          (List.filter is_in items))
       (set_trace (trace w ++ ((λ item, GetValue (item_name item))
                                 <$> List.filter is_in items)) w)).
Proof.
  revert arguments missing w.
  induction items as [|x items IH]; intros arguments missing w Hh Hnd Hfresh.
  - cbn. rewrite !app_nil_r. f_equal. by destruct w.
  - rewrite fmap_cons in Hnd. apply NoDup_cons in Hnd as [Hx Hnd].
    assert (Hh' : ∀ item, item ∈ items →
              generated_handlers self !! item_name item = Some (entry_handler item)).
    { intros item Hi. apply Hh. by right. }
    assert (Hfresh' : ∀ item, item ∈ items →
              handler_missing w !! item_name item = None).
    { intros item Hi. apply Hfresh. by right. }
    cbn [for_ List.filter]. unfold mbind at 1, M_bind at 1.
    rewrite in_params_body_eq by (apply Hh; by left).
    destruct (is_in x); [|by apply IH].
    cbn [foldl flat_map fmap list_fmap]. rewrite record_missing_cons.
    destruct (in_resolution self kw x) as [v|recorded] eqn:Hr.
    + rewrite IH; [| done | done | done]. cbn [recorded_of app].
      f_equal. world_eq.
    + cbn zeta. rewrite (Hfresh x) by (by left). cbn [default app].
      rewrite IH; [| done | done |].
      * cbn [recorded_of]. f_equal; [by rewrite <- app_assoc | world_eq].
      * intros item Hi. cbn. rewrite lookup_insert_ne; [by apply Hfresh'|].
        intros Heq. apply Hx. rewrite Heq. by apply list_elem_of_fmap_2.
Qed.

(** One pass of the loop of [handle_out_params]. *)
Lemma out_params_body_eq (self : ActionCommand) (kw : kwargs)
    (outputs : list value) (missing : list pystr) (x : SigItem) (w : World) :
  generated_handlers self !! item_name x = Some (entry_handler x) →
  out_params_body self kw (composite_fallback self kw) (outputs, missing) x w
  = if is_out x then
      match out_resolution self kw x with
      | Resolved v =>
          (Ret (outputs ++ [v], missing),
           set_trace (trace w ++ [GetValue (item_name x)]) w)
      | NotFound recorded =>
          let now := default [] (handler_missing w !! item_name x) ++ recorded in
          (Ret (outputs, missing ++ now),
           set_handler_missing (<[item_name x := now]> (handler_missing w))
             (set_trace (trace w ++ [GetValue (item_name x)]) w))
      end
    else (Ret (outputs, missing), w).
Proof.
  intros Hh. unfold out_params_body, is_out, out_resolution.
  destruct (item_type x); [done|done|].
  unfold lookup_handler; rewrite Hh; unfold mbind, M_bind, mret, M_ret.
  rewrite try_get_value_eq.
  destruct (h_get_value (entry_handler x) _ kw _); [done|].
  unfold handler_missing_of, gets; cbn [handler_missing set_handler_missing].
  by rewrite lookup_insert_eq.
Qed.

(** The loop of [handle_out_params]; only the handlers of output entries
    need to be new. *)
Lemma out_loop (self : ActionCommand) (kw : kwargs) (items : list SigItem)
    (outputs : list value) (missing : list pystr) (w : World) :
  (∀ item, item ∈ items →
     generated_handlers self !! item_name item = Some (entry_handler item)) →
  NoDup (item_name <$> items) →
  (∀ item, item ∈ items → is_out item = true →
           handler_missing w !! item_name item = None) →
  for_ items (out_params_body self kw (composite_fallback self kw))
       (outputs, missing) w
  = (Ret (outputs ++ omap (λ item, value_of (out_resolution self kw item))
                          (List.filter is_out items),
          missing ++ flat_map (λ item, recorded_of (out_resolution self kw item))
                              (List.filter is_out items)),
     set_handler_missing
       (record_missing (out_resolution self kw) (handler_missing w)
          (List.filter is_out items))
       (set_trace (trace w ++ ((λ item, GetValue (item_name item))
                                 <$> List.filter is_out items)) w)).
Proof.
  revert outputs missing w.
  induction items as [|x items IH]; intros outputs missing w Hh Hnd Hfresh.
  - cbn. rewrite !app_nil_r. f_equal. by destruct w.
  - rewrite fmap_cons in Hnd. apply NoDup_cons in Hnd as [Hx Hnd].
    assert (Hh' : ∀ item, item ∈ items →
              generated_handlers self !! item_name item = Some (entry_handler item)).
    { intros item Hi. apply Hh. by right. }
    assert (Hfresh' : ∀ item, item ∈ items → is_out item = true →
              handler_missing w !! item_name item = None).
    { intros item Hi. apply Hfresh. by right. }
    cbn [for_ List.filter]. unfold mbind at 1, M_bind at 1.
    rewrite out_params_body_eq by (apply Hh; by left).
    destruct (is_out x) eqn:Ho; [|by apply IH].
    cbn [foldl flat_map fmap list_fmap omap list_omap]. rewrite record_missing_cons.
    destruct (out_resolution self kw x) as [v|recorded] eqn:Hr.
    + rewrite IH; [| done | done | done]. cbn [recorded_of value_of app].
      f_equal; [by rewrite <- app_assoc | world_eq].
    + cbn zeta. rewrite (Hfresh x) by (by left || done). cbn [default app].
      rewrite IH; [| done | done |].
      * cbn [recorded_of value_of]. f_equal; [by rewrite <- app_assoc | world_eq].
      * intros item Hi Hio. cbn. rewrite lookup_insert_ne; [by apply Hfresh'|].
        intros Heq. apply Hx. rewrite Heq. by apply list_elem_of_fmap_2.
Qed.

(** The names of input and parameter entries are not names of output
    entries. *)
Lemma out_name_not_in (items : list SigItem) (item : SigItem) :
  NoDup (item_name <$> items) → item ∈ items → is_out item = true →
  item_name item ∉ item_name <$> List.filter is_in items.
Proof.
  intros Hnd Hin Hout (y & Hname & Hy)%list_elem_of_fmap.
  apply list_elem_of_In, filter_In in Hy as [Hy Hyin].
  apply list_elem_of_In in Hy.
  assert (item = y) as -> by (by apply (NoDup_fmap_eq item_name items)).
  unfold is_in, is_out in *. by destruct (item_type y).
Qed.

Lemma handle_in_params_clash (self : ActionCommand) (kw : kwargs) (w : World) :
  resolved_verbose self kw = true → resolved_quiet self kw = true →
  handle_in_params self kw w
  = (Exit 1,
     set_trace (trace w ++
                [Echo Stderr RedBold
                   (lit "Unsure of how to be quiet and verbose at the same time.")])
               w).
Proof.
  unfold resolved_verbose, resolved_quiet, handle_in_params. intros -> ->. done.
Qed.

(** [handle_in_params] of a new command, in closed form. *)
Lemma handle_in_params_eq (name : pystr) (pl : Plugin) (act : Action)
    (kw : kwargs) (w : World) :
  let self := new_ActionCommand name pl act in
  NoDup (item_name <$> a_signature act) →
  handler_missing w = ∅ →
  resolved_verbose self kw && resolved_quiet self kw = false →
  handle_in_params self kw w
  = (Ret (in_arguments self kw, in_missing self kw,
          resolved_verbose self kw, resolved_quiet self kw),
     set_handler_missing
       (record_missing (in_resolution self kw) ∅ (in_entries self))
       (set_trace (trace w ++ ((λ item, GetValue (item_name item))
                                 <$> in_entries self)) w)).
Proof.
  intros self Hnd Hfresh Hvq. unfold handle_in_params.
  fold (resolved_verbose self kw). fold (resolved_quiet self kw). rewrite Hvq.
  unfold mbind at 1 2, M_bind at 1 2. cbn [when mret M_ret].
  rewrite in_loop; [| | done |].
  - rewrite Hfresh. done.
  - intros item Hi. by apply handlers_lookup.
  - intros item _. by rewrite Hfresh.
Qed.

(** [handle_out_params] of a new command, run after [handle_in_params]. *)
Lemma handle_out_params_eq (name : pystr) (pl : Plugin) (act : Action)
    (kw : kwargs) (w : World) :
  let self := new_ActionCommand name pl act in
  NoDup (item_name <$> a_signature act) →
  (∀ item, item ∈ a_signature act → is_out item = true →
           handler_missing w !! item_name item = None) →
  handle_out_params self kw w
  = (Ret (out_values self kw, out_missing self kw),
     set_handler_missing
       (record_missing (out_resolution self kw) (handler_missing w)
          (out_entries self))
       (set_trace (trace w ++ ((λ item, GetValue (item_name item))
                                 <$> out_entries self)) w)).
Proof.
  intros self Hnd Hfresh. unfold handle_out_params.
  etransitivity;
    [exact (out_loop self kw (a_signature (action self)) [] [] w
              (λ item Hi, handlers_lookup name pl act item Hnd Hi) Hnd Hfresh)|].
  done.
Qed.

Lemma emit_loop {A} (f : A → event) (l : list A) (w : World) :
  for_ l (λ _ x, emit (f x)) tt w = (Ret tt, set_trace (trace w ++ (f <$> l)) w).
Proof.
  revert w. induction l as [|x l IH]; intros w.
  - cbn. rewrite app_nil_r. by destruct w.
  - cbn [for_]. unfold mbind, M_bind, emit at 1. rewrite IH. f_equal. world_eq.
Qed.

(** [__call__] of a new command, in closed form: a clash of [verbose] and
    [quiet], a report of the missing options, or the execution. *)
Lemma ActionCommand_call_eq (name : pystr) (pl : Plugin) (act : Action)
    (kw : kwargs) (w : World) :
  let self := new_ActionCommand name pl act in
  NoDup (item_name <$> a_signature act) →
  handler_missing w = ∅ →
  ActionCommand_call self kw w =
  if resolved_verbose self kw && resolved_quiet self kw then
    (Exit 1,
     set_trace (trace w ++
                [Echo Stderr RedBold
                   (lit "Unsure of how to be quiet and verbose at the same time.")])
               w)
  else if nonempty (in_missing self kw) || nonempty (out_missing self kw) then
    (Exit 1,
     set_trace (trace (after_resolution self kw w)
                ++ missing_report (parent_help w) (in_missing self kw)
                                  (out_missing self kw))
               (after_resolution self kw w))
  else
    execute self (resolved_verbose self kw) (resolved_quiet self kw)
            (in_arguments self kw) (out_values self kw)
            (after_resolution self kw w).
Proof.
  intros self Hnd Hfresh. unfold ActionCommand_call.
  destruct (resolved_verbose self kw && resolved_quiet self kw) eqn:Hvq.
  { apply andb_true_iff in Hvq as [Hv Hq].
    unfold mbind at 1, M_bind at 1. by rewrite handle_in_params_clash. }
  unfold mbind at 1, M_bind at 1.
  pose proof (handle_in_params_eq name pl act kw w Hnd Hfresh Hvq) as Hin.
  cbn zeta in Hin. fold self in Hin. rewrite Hin. clear Hin.
  unfold mbind at 1, M_bind at 1.
  match goal with
  | |- context [handle_out_params self kw ?w1] =>
      pose proof (handle_out_params_eq name pl act kw w1 Hnd) as Hout
  end.
  cbn zeta in Hout. fold self in Hout. rewrite Hout. clear Hout.
  2:{ intros item Hi Ho. cbn [handler_missing set_handler_missing set_trace].
      rewrite record_missing_lookup_ne; [done|].
      by apply out_name_not_in. }
  assert (Hw2 :
    set_handler_missing
      (record_missing (out_resolution self kw)
         (handler_missing
            (set_handler_missing
               (record_missing (in_resolution self kw) ∅ (in_entries self))
               (set_trace (trace w ++ ((λ item, GetValue (item_name item))
                                         <$> in_entries self)) w)))
         (out_entries self))
      (set_trace
         (trace (set_handler_missing
                   (record_missing (in_resolution self kw) ∅ (in_entries self))
                   (set_trace (trace w ++ ((λ item, GetValue (item_name item))
                                             <$> in_entries self)) w))
          ++ ((λ item, GetValue (item_name item)) <$> out_entries self))
         (set_handler_missing
            (record_missing (in_resolution self kw) ∅ (in_entries self))
            (set_trace (trace w ++ ((λ item, GetValue (item_name item))
                                      <$> in_entries self)) w)))
    = after_resolution self kw w).
  { unfold after_resolution. rewrite Hfresh. world_eq. }
  rewrite Hw2. clear Hw2.
  destruct (nonempty (in_missing self kw) || nonempty (out_missing self kw)) eqn:Hm.
  - unfold mbind, M_bind, when, gets, echo_err, secho_err_red.
    unfold emit at 1.
    rewrite (emit_loop (λ option, Echo Stderr RedBold
                                    (lit "Error: Missing option: --" ++ option))).
    unfold missing_report.
    destruct (nonempty (out_missing self kw)); cbn; f_equal; world_eq.
  - done.
Qed.

Lemma trace_after_resolution (self : ActionCommand) (kw : kwargs) (w : World) :
  trace (after_resolution self kw w) = trace w ++ resolution_events self.
Proof. done. Qed.

Lemma invoke_eq (name : pystr) (pl : Plugin) (act : Action) (kw : kwargs)
    (w0 : World) :
  invoke name pl act kw w0
  = ActionCommand_call (new_ActionCommand name pl act) kw
      (set_handler_missing ∅ w0).
Proof. done. Qed.

(** C4. When the verbose handler and the quiet handler both resolve to
    true, each with the command-config provider as its fallback, the call
    prints one error line and exits with status 1; nothing else has happened
    by then: no entry was resolved and the action was not called. *)
Theorem C4_verbose_and_quiet_exit_1 (self : ActionCommand) (kw : kwargs)
    (w : World) :
  verbose_handler self kw (cmd_config_handler self kw) = true →
  quiet_handler self kw (cmd_config_handler self kw) = true →
  ActionCommand_call self kw w
  = (Exit 1,
     set_trace (trace w ++
                [Echo Stderr RedBold
                   (lit "Unsure of how to be quiet and verbose at the same time.")])
               w).
Proof.
  intros Hv Hq. unfold ActionCommand_call, mbind at 1, M_bind at 1.
  by rewrite handle_in_params_clash.
Qed.

Lemma flat_map_nonempty {A B} (f : A → list B) (l : list A) :
  nonempty (flat_map f l) = true ↔ ∃ x, x ∈ l ∧ f x ≠ [].
Proof.
  rewrite nonempty_true. induction l as [|a l IH]; cbn.
  - split; [done|]. by intros (x & ?%elem_of_nil & _).
  - split.
    + intros Hne. destruct (f a) as [|b bs] eqn:E.
      * apply IH in Hne as (x & Hx & Hfx). exists x. split; [by right|done].
      * exists a. split; [by left|]. by rewrite E.
    + intros (x & [->|Hx]%elem_of_cons & Hfx).
      * by destruct (f a).
      * intros [_ Hnil]%app_eq_nil. apply IH; [|done]. by exists x.
Qed.

Lemma recorded_nonempty (h : Handler) (r : resolution) verbose kw fb :
  records_names h → h_get_value h verbose kw fb = r →
  (recorded_of r ≠ [] ↔ value_of r = None).
Proof.
  intros Hrec Hr. destruct r as [v|recorded]; cbn; [done|].
  split; [done|]. intros _. by apply (Hrec _ _ _ _ Hr).
Qed.

(** C1. An invocation in which some entry does not resolve asks every
    entry all the same, inputs and parameters first, then outputs; collects
    the option names the failing handlers recorded, for the two groups
    separately; prints the help of the parent context, one line per
    collected name and, exactly when an output is among the failures, the
    note about the output directory; and exits with status 1 without
    calling the action. *)
Theorem C1_missing_options_reported (name : pystr) (pl : Plugin) (act : Action)
    (kw : kwargs) (w0 : World) :
  let self := new_ActionCommand name pl act in
  NoDup (item_name <$> a_signature act) →
  (∀ item, item ∈ a_signature act → records_names (entry_handler item)) →
  resolved_verbose self kw && resolved_quiet self kw = false →
  (∃ item, item ∈ a_signature act ∧ fails self kw item) →
  ∃ w',
    invoke name pl act kw w0 = (Exit 1, w')
    ∧ trace w' = trace w0 ++ resolution_events self
                 ++ missing_report (parent_help w0)
                      (in_missing self kw) (out_missing self kw)
    ∧ files w' = files w0
    ∧ (∀ arguments, ActionCall arguments ∉ resolution_events self
                      ++ missing_report (parent_help w0)
                           (in_missing self kw) (out_missing self kw))
    ∧ (∀ item, item ∈ a_signature act →
         GetValue (item_name item) ∈ resolution_events self)
    ∧ (∀ item recorded option, item ∈ a_signature act → is_in item = true →
         in_resolution self kw item = NotFound recorded → option ∈ recorded →
         option ∈ in_missing self kw)
    ∧ (∀ item recorded option, item ∈ a_signature act → is_out item = true →
         out_resolution self kw item = NotFound recorded → option ∈ recorded →
         option ∈ out_missing self kw)
    ∧ (nonempty (out_missing self kw) = true ↔
       ∃ item, item ∈ a_signature act ∧ is_out item = true
               ∧ value_of (out_resolution self kw item) = None).
Proof.
  intros self Hnd Hrec Hvq (bad & Hbad & Hfails).
  assert (Hin_iff : nonempty (in_missing self kw) = true ↔
            ∃ item, item ∈ a_signature act ∧ is_in item = true
                    ∧ value_of (in_resolution self kw item) = None).
  { unfold in_missing. rewrite flat_map_nonempty. split.
    - intros (x & Hx & Hne).
      apply list_elem_of_In, filter_In in Hx as [Hx Hxin].
      apply list_elem_of_In in Hx. exists x. split_and!; [done | done |].
      by apply (recorded_nonempty _ _ _ _ _ (Hrec x Hx) eq_refl).
    - intros (x & Hx & Hxin & Hv). exists x. split.
      + apply list_elem_of_In, filter_In. split; [by apply list_elem_of_In|done].
      + by apply (recorded_nonempty _ _ _ _ _ (Hrec x Hx) eq_refl). }
  assert (Hout_iff : nonempty (out_missing self kw) = true ↔
            ∃ item, item ∈ a_signature act ∧ is_out item = true
                    ∧ value_of (out_resolution self kw item) = None).
  { unfold out_missing. rewrite flat_map_nonempty. split.
    - intros (x & Hx & Hne).
      apply list_elem_of_In, filter_In in Hx as [Hx Hxin].
      apply list_elem_of_In in Hx. exists x. split_and!; [done | done |].
      by apply (recorded_nonempty _ _ _ _ _ (Hrec x Hx) eq_refl).
    - intros (x & Hx & Hxin & Hv). exists x. split.
      + apply list_elem_of_In, filter_In. split; [by apply list_elem_of_In|done].
      + by apply (recorded_nonempty _ _ _ _ _ (Hrec x Hx) eq_refl). }
  assert (Hmiss : nonempty (in_missing self kw) || nonempty (out_missing self kw)
                  = true).
  { apply orb_true_iff. destruct Hfails as [[Hi Hv]|[Ho Hv]].
    - left. apply Hin_iff. by exists bad.
    - right. apply Hout_iff. by exists bad. }
  eexists. split_and!.
  - rewrite invoke_eq.
    pose proof (ActionCommand_call_eq name pl act kw (set_handler_missing ∅ w0)
                  Hnd eq_refl) as Hcall.
    cbn zeta in Hcall. fold self in Hcall. rewrite Hvq, Hmiss in Hcall.
    exact Hcall.
  - cbn [trace set_trace]. rewrite trace_after_resolution.
    cbn [trace set_handler_missing]. by rewrite <- app_assoc.
  - done.
  - intros arguments. unfold resolution_events, missing_report.
    rewrite !elem_of_app, !list_elem_of_fmap.
    intros [[(? & [=] & _)|(? & [=] & _)]|[[=]%list_elem_of_singleton
             |[(? & [=] & _)|Hg]]].
    destruct (nonempty (out_missing self kw));
      [by apply list_elem_of_singleton in Hg | by apply elem_of_nil in Hg].
  - intros item Hi. unfold resolution_events. apply elem_of_app.
    destruct (is_in item) eqn:Hin.
    + left. apply (list_elem_of_fmap_2 (λ item, GetValue (item_name item))).
      apply list_elem_of_In, filter_In. split; [by apply list_elem_of_In|done].
    + right. apply (list_elem_of_fmap_2 (λ item, GetValue (item_name item))).
      apply list_elem_of_In, filter_In. split; [by apply list_elem_of_In|].
      unfold is_in, is_out in *. by destruct (item_type item).
  - intros item recorded option Hi Hin Hr Ho. unfold in_missing.
    apply list_elem_of_In, in_flat_map. exists item. split.
    + apply filter_In. split; [by apply list_elem_of_In|done].
    + rewrite Hr. by apply list_elem_of_In.
  - intros item recorded option Hi Hin Hr Ho. unfold out_missing.
    apply list_elem_of_In, in_flat_map. exists item. split.
    + apply filter_In. split; [by apply list_elem_of_In|done].
    + rewrite Hr. by apply list_elem_of_In.
  - exact Hout_iff.
Qed.

(** *** The logged call *)

Lemma NamedTemporaryFile_eq (w : World) :
  NamedTemporaryFile (lit "qiime2-q2cli-err-") (lit ".log") w =
  match temp_name w with
  | Some name =>
      (Ret name, set_files (<[name := []]> (files w))
                           (set_trace (trace w ++ [TempCreate name]) w))
  | None => (Raise FileExistsError, w)
  end.
Proof. done. Qed.

Lemma temp_name_unique (w : World) (name : pystr) :
  temp_name w = Some name →
  files w !! name = None
  ∧ ∃ r, r ∈ tmp_candidates w ∧ name = lit "qiime2-q2cli-err-" ++ r ++ lit ".log".
Proof.
  unfold temp_name. intros [Hin Hfree]%find_some.
  apply bool_decide_eq_true in Hfree. split; [done|].
  apply in_map_iff in Hin as (r & <- & Hr). exists r.
  split; [by apply list_elem_of_In | done].
Qed.

Lemma live_writes (writes : list (stream * pystr)) (w : World) :
  for_ writes (λ _ '(to, text), redirected_write LogNone to text) tt w
  = (Ret tt,
     set_trace (trace w ++ ((λ '(to, text), StreamWrite to text) <$> writes)) w).
Proof.
  revert w. induction writes as [|[to text] writes IH]; intros w.
  - cbn. rewrite app_nil_r. by destruct w.
  - cbn [for_]. unfold mbind, M_bind. cbn [redirected_write]. unfold emit at 1.
    rewrite IH. f_equal. world_eq.
Qed.

Lemma logged_writes (name : pystr) (writes : list (stream * pystr)) (w : World) :
  for_ writes (λ _ '(to, text), redirected_write (LogFile name) to text) tt w
  = (Ret tt, set_files (alter (λ old, old ++ writes.*2) name (files w)) w).
Proof.
  revert w. induction writes as [|[to text] writes IH]; intros w.
  - cbn [for_ fmap list_fmap]. unfold mret, M_ret. f_equal.
    assert (alter (λ old : list pystr, old ++ []) name (files w) = files w) as ->.
    { apply map_eq. intros k. rewrite lookup_alter.
      case_decide; [|done]. subst k.
      destruct (files w !! name); cbn; by rewrite ?app_nil_r. }
    by destruct w.
  - cbn [for_]. unfold mbind, M_bind. cbn [redirected_write].
    rewrite IH. f_equal. unfold set_files.
    cbn [files sys_argv trace tmp_candidates cache_plugins parent_help
         handler_missing].
    f_equal. rewrite alter_alter_eq. apply alter_ext.
    intros old _. cbn. by rewrite <- app_assoc.
Qed.

(** The call of the action when [log] is [None]: the action writes to the
    live streams. *)
Lemma call_action_live (self : ActionCommand) (arguments : gmap pystr value)
    (w : World) :
  call_action self LogNone arguments w =
  let run := the_run self arguments in
  let w' := set_trace (trace w ++ [ActionCall arguments]
                       ++ ((λ '(to, text), StreamWrite to text) <$> run_writes run))
                      w in
  match run_end run with
  | Returned results => (Ret results, w')
  | Failed e => (Raise e, w')
  | Exited status => (Exit status, w')
  end.
Proof.
  unfold call_action. fold (the_run self arguments).
  unfold mbind, M_bind, emit at 1. rewrite live_writes.
  cbn [trace set_trace].
  destruct (run_tmp_reaped (the_run self arguments)),
           (run_end (the_run self arguments)); cbn; f_equal; world_eq.
Qed.

(** The call of the action when [log] is the file [name], just created:
    what the action writes goes to the file. *)
Lemma call_action_logged (self : ActionCommand) (arguments : gmap pystr value)
    (name : pystr) (w : World) :
  files w !! name = None →
  call_action self (LogFile name) arguments
    (set_files (<[name := []]> (files w))
               (set_trace (trace w ++ [TempCreate name]) w)) =
  let run := the_run self arguments in
  let w' := set_files (files_after_call run name w)
              (set_trace (trace w ++ [TempCreate name; ActionCall arguments]) w) in
  match run_end run with
  | Returned results => (Ret results, w')
  | Failed e => (Raise e, w')
  | Exited status => (Exit status, w')
  end.
Proof.
  intros Hfree. unfold call_action. fold (the_run self arguments).
  unfold mbind, M_bind, emit at 1. rewrite logged_writes.
  unfold files_after_call.
  assert (Halter : alter (λ old, old ++ (run_writes (the_run self arguments)).*2)
                     name (<[name := []]> (files w))
                   = <[name := (run_writes (the_run self arguments)).*2]> (files w)).
  { apply map_eq. intros k. rewrite lookup_alter. case_decide.
    - subst k. by rewrite !lookup_insert_eq.
    - by rewrite !lookup_insert_ne. }
  destruct (run_tmp_reaped (the_run self arguments)) eqn:Hreap,
           (run_end (the_run self arguments)); cbn;
    rewrite ?Halter, ?delete_insert_eq; f_equal; world_eq.
Qed.

Lemma save_loop (quiet : bool) (pairs : list (Result * value)) (w : World) :
  for_ pairs
       (λ _ '(result, output),
          emit (Save result output);;
          let path := r_save result output in
          when (negb quiet)
            (secho_green
               (lit "Saved " ++ r_type result ++ lit " to: " ++ path)))
       tt w
  = (Ret tt, set_trace (trace w ++ save_events quiet pairs) w).
Proof.
  revert w. induction pairs as [|[result output] pairs IH]; intros w.
  - cbn. rewrite app_nil_r. by destruct w.
  - cbn [for_ save_events flat_map]. unfold mbind, M_bind, emit at 1.
    destruct quiet; cbn [negb when]; unfold secho_green, emit at 1, mret, M_ret;
      rewrite IH; f_equal; world_eq.
Qed.

(** The second half of [__call__] in verbose mode, in closed form. *)
Lemma execute_verbose_eq (self : ActionCommand) (quiet : bool)
    (arguments : gmap pystr value) (outputs : list value) (w : World) :
  execute self true quiet arguments outputs w =
  let run := the_run self arguments in
  let called := trace w ++ [ActionCall arguments]
                ++ ((λ '(to, text), StreamWrite to text) <$> run_writes run) in
  match run_end run with
  | Returned results =>
      (Ret tt, set_trace (called ++ save_events quiet (zip results outputs)) w)
  | Failed e =>
      if is_Exception e
      then (Exit error_exit_status,
            set_trace (called ++ [ErrorReport e (error_header self) LogStderr]) w)
      else (Raise e, set_trace called w)
  | Exited status => (Exit status, set_trace called w)
  end.
Proof.
  unfold execute. cbn [negb]. unfold mbind at 1, M_bind at 1, mret at 1, M_ret at 1.
  unfold mbind at 1, M_bind at 1, run_logged. rewrite call_action_live. cbn zeta.
  destruct (run_end (the_run self arguments)) as [results|e|status].
  - unfold finally_clause, mbind at 1, M_bind at 1, mret, M_ret.
    rewrite save_loop. f_equal; world_eq.
  - destruct (is_Exception e); unfold try_finally, exit_with_error, raise,
      mbind, M_bind, emit, exit, finally_clause, mret, M_ret, error_header;
      f_equal; world_eq.
  - unfold try_finally, exit, finally_clause, mret, M_ret. done.
Qed.

(** The [finally] clause after a call that returned and was logged to the
    new file [name]. *)
Lemma finally_after_return (run : action_run) (name : pystr) (t : list event)
    (w : World) :
  files w !! name = None →
  finally_clause (LogFile name) true
    (set_files (files_after_call run name w) (set_trace t w))
  = (Ret tt,
     set_trace (t ++ (if run_tmp_reaped run then []
                      else [Close name; Remove name])) w).
Proof.
  intros Hfree. unfold finally_clause, mbind, M_bind, path_exists, gets,
    files_after_call.
  cbn [files set_files set_trace].
  destruct (run_tmp_reaped run).
  - rewrite lookup_delete_eq.
    rewrite bool_decide_eq_false_2 by (by intros [? [=]]).
    cbn [when]. unfold mret, M_ret. f_equal.
    unfold set_files, set_trace. cbn. rewrite (delete_id _ _ Hfree).
    by rewrite app_nil_r.
  - rewrite lookup_insert_eq. rewrite bool_decide_eq_true_2 by done.
    cbn [when]. unfold mbind, M_bind, emit, os_remove, mret, M_ret.
    f_equal. unfold set_files, set_trace. cbn.
    rewrite delete_insert_eq, (delete_id _ _ Hfree).
    by rewrite <- !app_assoc.
Qed.

(** The second half of [__call__] in non-verbose mode, in closed form:
    with no free temporary name it raises; otherwise the log file is
    created, receives what the action writes, and is removed only after a
    call that returned, if it is still there. *)
Lemma execute_logged_eq (self : ActionCommand) (quiet : bool)
    (arguments : gmap pystr value) (outputs : list value) (w : World) :
  execute self false quiet arguments outputs w =
  match temp_name w with
  | None => (Raise FileExistsError, w)
  | Some name =>
      let run := the_run self arguments in
      let called := trace w ++ [TempCreate name; ActionCall arguments] in
      match run_end run with
      | Returned results =>
          (Ret tt,
           set_trace (called
                      ++ (if run_tmp_reaped run then []
                          else [Close name; Remove name])
                      ++ save_events quiet (zip results outputs)) w)
      | Failed e =>
          if is_Exception e
          then (Exit error_exit_status,
                set_files (files_after_call run name w)
                  (set_trace (called ++ [ErrorReport e (error_header self)
                                           (LogFile name)]) w))
          else (Raise e,
                set_files (files_after_call run name w) (set_trace called w))
      | Exited status =>
          (Exit status,
           set_files (files_after_call run name w) (set_trace called w))
      end
  end.
Proof.
  unfold execute. cbn [negb]. unfold mbind at 1, M_bind at 1.
  unfold mbind at 1, M_bind at 1. rewrite NamedTemporaryFile_eq.
  destruct (temp_name w) as [name|] eqn:Hname; [|done].
  apply temp_name_unique in Hname as [Hfree _].
  unfold mret at 1, M_ret at 1.
  unfold mbind at 1, M_bind at 1, run_logged.
  rewrite (call_action_logged self arguments name w Hfree). cbn zeta.
  destruct (run_end (the_run self arguments)) as [results|e|status].
  - unfold mbind at 1, M_bind at 1.
    rewrite (finally_after_return _ name _ w Hfree).
    unfold mret, M_ret. rewrite save_loop. f_equal; world_eq.
  - destruct (is_Exception e); unfold try_finally, exit_with_error, raise,
      mbind, M_bind, emit, exit, finally_clause, mret, M_ret, error_header;
      f_equal; world_eq.
  - unfold try_finally, exit, finally_clause, mret, M_ret. done.
Qed.

Lemma save_events_kinds (quiet : bool) (pairs : list (Result * value)) (e : event) :
  e ∈ save_events quiet pairs →
  (∃ result output, e = Save result output) ∨ (∃ text, e = Echo Stdout Green text).
Proof.
  unfold save_events. intros (p & Hp & He)%list_elem_of_In%in_flat_map.
  destruct p as [result output]. apply list_elem_of_In in He.
  apply elem_of_cons in He as [->|He]; [left; eauto|].
  destruct quiet; [by apply elem_of_nil in He|].
  apply list_elem_of_singleton in He as ->. right. eauto.
Qed.

(** C6. The second half of [__call__] and its log file. In verbose mode no
    temporary file is created, the temporary directory is left as it was,
    and what the action writes goes to the live streams. In non-verbose
    mode the log file gets a name that was free, nothing the action writes
    reaches the live streams, and the file is closed and removed only after
    a call that returned, and only if it is still there; after a call that
    failed the file is left as the call left it, holding what the action
    wrote to either stream unless the host reaped it. *)
Theorem C6_log_file_lifecycle (self : ActionCommand) (quiet : bool)
    (arguments : gmap pystr value) (outputs : list value) (w : World) :
  let run := the_run self arguments in
  (∃ o w' rest,
     execute self true quiet arguments outputs w = (o, w')
     ∧ files w' = files w
     ∧ trace w' = trace w ++ [ActionCall arguments]
                  ++ ((λ '(to, text), StreamWrite to text) <$> run_writes run)
                  ++ rest
     ∧ (∀ e, e ∈ rest → ∀ name, e ≠ TempCreate name ∧ e ≠ Close name
                                 ∧ e ≠ Remove name))
  ∧ (∀ name, temp_name w = Some name →
       files w !! name = None
       ∧ ∃ o w' rest,
           execute self false quiet arguments outputs w = (o, w')
           ∧ trace w' = trace w ++ [TempCreate name; ActionCall arguments] ++ rest
           ∧ (∀ to text, StreamWrite to text ∉ rest)
           ∧ match run_end run with
             | Returned results =>
                 o = Ret tt
                 ∧ files w' = files w
                 ∧ rest = (if run_tmp_reaped run then []
                           else [Close name; Remove name])
                          ++ save_events quiet (zip results outputs)
             | Failed e =>
                 o = (if is_Exception e then Exit error_exit_status else Raise e)
                 ∧ files w' = files_after_call run name w
                 ∧ (run_tmp_reaped run = false →
                    files w' !! name = Some (run_writes run).*2)
                 ∧ rest = (if is_Exception e
                           then [ErrorReport e (error_header self) (LogFile name)]
                           else [])
             | Exited status =>
                 o = Exit status
                 ∧ files w' = files_after_call run name w
                 ∧ (run_tmp_reaped run = false →
                    files w' !! name = Some (run_writes run).*2)
                 ∧ rest = []
             end).
Proof.
  intros run. split.
  - rewrite execute_verbose_eq. cbn zeta. fold run.
    destruct (run_end run) as [results|e|status].
    + eexists _, _, (save_events quiet (zip results outputs)).
      split_and!; [done | done | cbn; by rewrite <- !app_assoc |].
      intros e [(r & o & ->)|(t & ->)]%save_events_kinds name; done.
    + destruct (is_Exception e).
      * eexists _, _, [ErrorReport e (error_header self) LogStderr].
        split_and!; [done | done | cbn; by rewrite <- !app_assoc |].
        intros e' ->%list_elem_of_singleton name. done.
      * eexists _, _, []. split_and!; [done | done | cbn; by rewrite ?app_nil_r |].
        by intros e' ?%elem_of_nil.
    + eexists _, _, []. split_and!; [done | done | cbn; by rewrite ?app_nil_r |].
      by intros e' ?%elem_of_nil.
  - intros name Hname. split; [by apply temp_name_unique in Hname as [? _]|].
    rewrite execute_logged_eq, Hname. cbn zeta. fold run.
    destruct (run_end run) as [results|e|status].
    + eexists _, _, _. split_and!; [done | cbn; by rewrite <- !app_assoc | |
                                    done | done | done].
      intros to text [Hin|Hin]%elem_of_app.
      * destruct (run_tmp_reaped run); [by apply elem_of_nil in Hin|].
        rewrite !elem_of_cons, elem_of_nil in Hin. intuition discriminate.
      * apply save_events_kinds in Hin as [(r & o & [=])|(t & [=])].
    + destruct (is_Exception e).
      * eexists _, _, _. split_and!; [done | cbn; by rewrite <- !app_assoc | |
                                      done | done | | done].
        -- intros to text [=]%list_elem_of_singleton.
        -- intros Hr. cbn. unfold files_after_call. rewrite Hr.
           by rewrite lookup_insert_eq.
      * eexists _, _, []. split_and!; [done | cbn; by rewrite ?app_nil_r | |
                                       done | done | | done].
        -- by intros to text ?%elem_of_nil.
        -- intros Hr. cbn. unfold files_after_call. rewrite Hr.
           by rewrite lookup_insert_eq.
    + eexists _, _, []. split_and!; [done | cbn; by rewrite ?app_nil_r | |
                                     done | done | | done].
      * by intros to text ?%elem_of_nil.
      * intros Hr. cbn. unfold files_after_call. rewrite Hr.
        by rewrite lookup_insert_eq.
Qed.

(** *** Saving the results *)

Lemma no_failure_no_missing (self : ActionCommand) (kw : kwargs) :
  (∀ item, item ∈ a_signature (action self) → ¬ fails self kw item) →
  in_missing self kw = [] ∧ out_missing self kw = []
  ∧ Forall2 (λ item v, out_resolution self kw item = Resolved v)
            (out_entries self) (out_values self kw).
Proof.
  intros Hok. unfold in_missing, out_missing, out_values, in_entries, out_entries.
  induction (a_signature (action self)) as [|x items IH]; [by split_and!|].
  destruct IH as (Hin & Hout & Hval).
  { intros item Hi. apply Hok. by right. }
  assert (Hx : ¬ fails self kw x) by (apply Hok; by left).
  unfold fails in Hx. cbn [List.filter].
  assert (is_out x = negb (is_in x)) as Hio.
  { unfold is_in, is_out. by destruct (item_type x). }
  rewrite Hio in *. destruct (is_in x) eqn:Hxin; cbn [negb].
  - cbn [flat_map]. rewrite Hin.
    destruct (in_resolution self kw x) eqn:Hr; [done|].
    exfalso. apply Hx. left. done.
  - cbn [flat_map omap list_omap]. rewrite Hout.
    destruct (out_resolution self kw x) eqn:Hr.
    + cbn. split_and!; [done | done |]. by constructor.
    + exfalso. apply Hx. right. done.
Qed.

Lemma zip_all {A B C} (xs : list A) (ys : list B) (zs : list C) (R : C → B → Prop) :
  Forall2 R zs ys → length xs = length zs →
  (zip xs ys).*1 = xs ∧ (zip xs ys).*2 = ys.
Proof.
  intros Hlen%Forall2_length Hx. split.
  - apply fst_zip. lia.
  - apply snd_zip. lia.
Qed.

(** C5. When every entry resolves and the call of the action returns, the
    results are paired with the resolved locations of the output entries,
    in signature order; each pair is saved, and unless quiet is set each
    save is followed by its one confirmation line, which names the type of
    the result and the path [save] returned. With one result per output
    entry, every result and every location is in a pair. *)
Theorem C5_results_saved_in_signature_order (name : pystr) (pl : Plugin)
    (act : Action) (kw : kwargs) (w0 : World) (results : list Result) :
  let self := new_ActionCommand name pl act in
  NoDup (item_name <$> a_signature act) →
  resolved_verbose self kw && resolved_quiet self kw = false →
  (∀ item, item ∈ a_signature act → ¬ fails self kw item) →
  (resolved_verbose self kw = true ∨ is_Some (temp_name w0)) →
  run_end (the_run self (in_arguments self kw)) = Returned results →
  ∃ w' before,
    invoke name pl act kw w0 = (Ret tt, w')
    ∧ trace w' = trace w0 ++ before
                 ++ save_events (resolved_quiet self kw)
                                (zip results (out_values self kw))
    ∧ ActionCall (in_arguments self kw) ∈ before
    ∧ (∀ e, e ∈ before →
         (∀ result output, e ≠ Save result output)
         ∧ (∀ text, e ≠ Echo Stdout Green text))
    ∧ Forall2 (λ item output, out_resolution self kw item = Resolved output)
              (out_entries self) (out_values self kw)
    ∧ (length results = length (out_entries self) →
       (zip results (out_values self kw)).*1 = results
       ∧ (zip results (out_values self kw)).*2 = out_values self kw).
Proof.
  intros self Hnd Hvq Hok Htmp Hend.
  destruct (no_failure_no_missing self kw Hok) as (Hin & Hout & Hvals).
  pose proof (ActionCommand_call_eq name pl act kw (set_handler_missing ∅ w0)
                Hnd eq_refl) as Hcall.
  cbn zeta in Hcall. fold self in Hcall.
  rewrite Hvq, Hin, Hout in Hcall. cbn [nonempty orb] in Hcall.
  change (ActionCommand_call self kw (set_handler_missing ∅ w0))
    with (invoke name pl act kw w0) in Hcall.
  destruct (resolved_verbose self kw) eqn:Hv.
  - rewrite execute_verbose_eq in Hcall. cbn zeta in Hcall. rewrite Hend in Hcall.
    eexists _, (resolution_events self ++ [ActionCall (in_arguments self kw)]
                ++ ((λ '(to, text), StreamWrite to text)
                      <$> run_writes (the_run self (in_arguments self kw)))).
    split_and!; [exact Hcall | | | | done
                | intros Hl; exact (zip_all _ _ _ _ Hvals Hl)].
    + cbn [trace set_trace]. rewrite trace_after_resolution.
      cbn [trace set_handler_missing]. by rewrite <- !app_assoc.
    + rewrite !elem_of_app. right. left. by apply list_elem_of_singleton.
    + intros e. unfold resolution_events.
      rewrite !elem_of_app, !list_elem_of_fmap, list_elem_of_singleton.
      intros [[(? & -> & _)|(? & -> & _)]|[->|([? ?] & -> & _)]]; done.
  - destruct Htmp as [[=]|[tmp Htmp]].
    rewrite execute_logged_eq in Hcall.
    change (temp_name (after_resolution self kw (set_handler_missing ∅ w0)))
      with (temp_name w0) in Hcall.
    rewrite Htmp in Hcall. cbn zeta in Hcall.
    rewrite Hend in Hcall.
    eexists _, (resolution_events self
                ++ [TempCreate tmp; ActionCall (in_arguments self kw)]
                ++ (if run_tmp_reaped (the_run self (in_arguments self kw))
                    then [] else [Close tmp; Remove tmp])).
    split_and!; [exact Hcall | | | | done
                | intros Hl; exact (zip_all _ _ _ _ Hvals Hl)].
    + cbn [trace set_trace]. rewrite trace_after_resolution.
      cbn [trace set_handler_missing]. by rewrite <- !app_assoc.
    + rewrite !elem_of_app. right. left. set_solver.
    + intros e. unfold resolution_events.
      rewrite !elem_of_app, !list_elem_of_fmap.
      intros [[(? & -> & _)|(? & -> & _)]|[He|He]]; [done | done | |].
      * rewrite !elem_of_cons, elem_of_nil in He.
        destruct He as [->|[->|[]]]; done.
      * destruct (run_tmp_reaped _); [by apply elem_of_nil in He|].
        rewrite !elem_of_cons, elem_of_nil in He.
        destruct He as [->|[->|[]]]; done.
Qed.

(** *** The fallback chain of output entries *)

Lemma omap_ext_in {A B} (f g : A → option B) (l : list A) :
  (∀ x, x ∈ l → f x = g x) → omap f l = omap g l.
Proof.
  induction l as [|a l IH]; intros Hfg; [done|].
  cbn [omap list_omap]. rewrite (Hfg a) by (by left).
  fold (omap f l) (omap g l). rewrite IH; [done|].
  intros x Hx. apply Hfg. by right.
Qed.

Lemma flat_map_ext_in {A B} (f g : A → list B) (l : list A) :
  (∀ x, x ∈ l → f x = g x) → flat_map f l = flat_map g l.
Proof.
  induction l as [|a l IH]; intros Hfg; [done|].
  cbn [flat_map]. rewrite (Hfg a) by (by left). rewrite IH; [done|].
  intros x Hx. apply Hfg. by right.
Qed.

Lemma out_resolution_chain (self : ActionCommand) (kw : kwargs) (item : SigItem) :
  (∀ item, ResultHandler item = spec_ResultHandler to_cli_name item) →
  is_out item = true → item_ast_type item ≠ lit "collection" →
  out_resolution self kw item
  = match output_chain self kw item with
    | Some v => Resolved v
    | None => NotFound [to_cli_name (item_name item)]
    end.
Proof.
  intros Hres Hout Hcoll. unfold out_resolution, entry_handler.
  rewrite decide_False by done.
  unfold is_out in Hout. destruct (item_type item) eqn:Ht; [done|done|].
  cbn [handler_map]. rewrite Hres. cbn [spec_ResultHandler h_get_value].
  unfold spec_locate_value, output_chain, composite_fallback. cbn [first_success].
  destruct (explicit_value kw (item_name item)); [done|].
  destruct (cmd_config_handler self kw _ _); [done|].
  by destruct (output_dir_handler self kw _ _ _).
Qed.

(** The values and the missing names of the output entries, with result
    handlers that follow the protocol. *)
Lemma out_values_chain (name : pystr) (pl : Plugin) (act : Action) (kw : kwargs) :
  let self := new_ActionCommand name pl act in
  (∀ item, ResultHandler item = spec_ResultHandler to_cli_name item) →
  (∀ item, item ∈ a_signature act → is_out item = true →
           item_ast_type item ≠ lit "collection") →
  out_values self kw = omap (output_chain self kw) (out_entries self)
  ∧ out_missing self kw
    = flat_map (λ item, match output_chain self kw item with
                        | Some _ => []
                        | None => [to_cli_name (item_name item)]
                        end) (out_entries self).
Proof.
  intros self Hres Hcoll.
  assert (Hchain : ∀ x, x ∈ out_entries self →
     out_resolution self kw x
     = match output_chain self kw x with
       | Some v => Resolved v
       | None => NotFound [to_cli_name (item_name x)]
       end).
  { intros x Hx.
    apply list_elem_of_In, filter_In in Hx as [Hx Hxo]. apply list_elem_of_In in Hx.
    apply out_resolution_chain; [done | done | by apply Hcoll]. }
  split.
  - unfold out_values. apply omap_ext_in. intros x Hx.
    rewrite (Hchain x Hx). by destruct (output_chain self kw x).
  - unfold out_missing. apply flat_map_ext_in. intros x Hx.
    rewrite (Hchain x Hx). by destruct (output_chain self kw x).
Qed.

(** C2. With a result handler that follows the resolution protocol, every
    output entry gets the value of the first provider that has one, tried
    in the order command line, command-config file, output directory; an
    entry for which all three fail is recorded as missing under its option
    name. [handle_out_params] returns these values and names in signature
    order. *)
Theorem C2_output_providers_in_order (name : pystr) (pl : Plugin) (act : Action)
    (kw : kwargs) (w : World) :
  let self := new_ActionCommand name pl act in
  NoDup (item_name <$> a_signature act) →
  (∀ item, ResultHandler item = spec_ResultHandler to_cli_name item) →
  (∀ item, item ∈ a_signature act → is_out item = true →
           item_ast_type item ≠ lit "collection") →
  (∀ item, item ∈ a_signature act → is_out item = true →
           handler_missing w !! item_name item = None) →
  (∀ item, item ∈ a_signature act → is_out item = true →
     out_resolution self kw item
     = match output_chain self kw item with
       | Some v => Resolved v
       | None => NotFound [to_cli_name (item_name item)]
       end)
  ∧ ∃ w',
      handle_out_params self kw w
      = (Ret (omap (output_chain self kw) (out_entries self),
              flat_map (λ item, match output_chain self kw item with
                                | Some _ => []
                                | None => [to_cli_name (item_name item)]
                                end) (out_entries self)),
         w').
Proof.
  intros self Hnd Hres Hcoll Hfresh. split.
  - intros item Hi Ho. apply out_resolution_chain; [done | done | by apply Hcoll].
  - pose proof (handle_out_params_eq name pl act kw w Hnd Hfresh) as Heq.
    cbn zeta in Heq. fold self in Heq.
    destruct (out_values_chain name pl act kw Hres Hcoll) as [Hvals Hmiss].
    fold self in Hvals, Hmiss. rewrite Hvals, Hmiss in Heq.
    eexists. exact Heq.
Qed.

(** C9. With handlers that follow the resolution protocol: when no
    [--output-dir] is given on the command line and the command-config
    file supplies one, the output-directory convention works from the
    directory of the config file, so every output entry resolves, to its
    explicit value, else its config value, else the path of its name under
    that directory, and none is missing. *)
Theorem C9_output_dir_from_config (name : pystr) (pl : Plugin) (act : Action)
    (kw : kwargs) (w : World) (dir : pystr) :
  let self := new_ActionCommand name pl act in
  NoDup (item_name <$> a_signature act) →
  (∀ item, ResultHandler item = spec_ResultHandler to_cli_name item) →
  OutputDirHandler = spec_OutputDirHandler to_cli_name →
  (∀ item, item ∈ a_signature act → is_out item = true →
           item_ast_type item ≠ lit "collection") →
  (∀ item, item ∈ a_signature act → is_out item = true →
           handler_missing w !! item_name item = None) →
  explicit_value kw (lit "output_dir") = None →
  cmd_config_handler self kw (lit "output_dir") (to_cli_name (lit "output_dir"))
    = Some (VStr dir) →
  (∀ entry cli_name,
     output_dir_handler self kw (cmd_config_handler self kw) entry cli_name
     = Some (VStr (dir ++ lit "/" ++ entry)))
  ∧ ∃ w',
      handle_out_params self kw w
      = (Ret ((λ item,
                 default (VStr (dir ++ lit "/" ++ item_name item))
                   (first_success
                      [ explicit_value kw (item_name item);
                        cmd_config_handler self kw (item_name item)
                          (to_cli_name (item_name item)) ]))
                <$> out_entries self,
              []),
         w').
Proof.
  intros self Hnd Hres Hdir Hcoll Hfresh Hflag Hcfg.
  assert (Hprov : ∀ entry cli_name,
     output_dir_handler self kw (cmd_config_handler self kw) entry cli_name
     = Some (VStr (dir ++ lit "/" ++ entry))).
  { intros entry cli_name. subst self.
    cbn [new_ActionCommand output_dir_handler cmd_config_handler] in *.
    rewrite Hdir. unfold spec_OutputDirHandler, spec_locate_value.
    by rewrite Hflag, Hcfg. }
  split; [exact Hprov|].
  pose proof (handle_out_params_eq name pl act kw w Hnd Hfresh) as Hw'.
  cbn zeta in Hw'. fold self in Hw'.
  destruct (out_values_chain name pl act kw Hres Hcoll) as [Hvals Hmiss].
  fold self in Hvals, Hmiss. rewrite Hvals, Hmiss in Hw'. clear Hvals Hmiss.
  eexists. rewrite Hw'.
  assert (Hsome : ∀ x, output_chain self kw x
            = Some (default (VStr (dir ++ lit "/" ++ item_name x))
                      (first_success
                         [ explicit_value kw (item_name x);
                           cmd_config_handler self kw (item_name x)
                             (to_cli_name (item_name x)) ]))).
  { intros x. unfold output_chain. cbn [first_success]. rewrite Hprov.
    destruct (explicit_value kw (item_name x)); [done|].
    by destruct (cmd_config_handler self kw (item_name x)
                   (to_cli_name (item_name x))). }
  clear Hw'. f_equal. f_equal. f_equal.
  - induction (out_entries self) as [|x items IH]; [done|].
    cbn [omap list_omap fmap list_fmap]. fold (omap (output_chain self kw) items).
    by rewrite IH, Hsome.
  - induction (out_entries self) as [|x items IH]; [done|].
    cbn [flat_map]. by rewrite IH, Hsome.
Qed.

End ActionProperties.

(** ** The properties at the example inputs *)

Lemma spec_ResultHandler_records (to_cli : pystr → pystr) (item : SigItem) :
  records_names (spec_ResultHandler to_cli item).
Proof.
  intros verbose kw fb recorded. cbn. unfold spec_locate_value.
  destruct (explicit_value kw (item_name item)); [done|].
  destruct (fb (item_name item) (to_cli (item_name item))); [done|].
  by intros [= <-].
Qed.

Lemma demo_signature_inv (P : SigItem → Prop) :
  Forall P demo_signature → ∀ item, item ∈ demo_signature → P item.
Proof. intros HP item Hin. by apply (proj1 (Forall_forall _ _) HP). Qed.

Lemma demo_names_NoDup : NoDup (item_name <$> a_signature demo_action).
Proof. apply (bool_decide_unpack _). vm_compute. exact I. Defined.

(** C1 at the example action, invoked without a value for its output. *)
Lemma C1_witness :
  ∃ w', invoke (collab := demo) (lit "do-it") demo_plugin demo_action
          kw_partial demo_world = (Exit 1, w')
        ∧ trace w'
          = [GetValue (lit "a"); GetValue (lit "b"); GetValue (lit "c");
             Echo Stderr Plain
               (lit "Usage: qiime dummy-plugin do-it [OPTIONS]" ++ nl);
             Echo Stderr RedBold (lit "Error: Missing option: --c");
             Echo Stderr Plain _OUTPUT_OPTION_ERR_MSG].
Proof.
  destruct (C1_missing_options_reported (collab := demo) (lit "do-it")
              demo_plugin demo_action kw_partial demo_world)
    as (w' & Hrun & Htrace & _).
  - exact demo_names_NoDup.
  - apply demo_signature_inv. repeat constructor; apply spec_ResultHandler_records.
  - vm_compute. reflexivity.
  - exists item_c. split.
    + apply list_elem_of_In. cbn. tauto.
    + right. split; vm_compute; reflexivity.
  - exists w'. split; [exact Hrun|]. rewrite Htrace. vm_compute. reflexivity.
Defined.

Lemma demo_outputs_plain (item : SigItem) :
  item ∈ a_signature demo_action → is_out item = true →
  item_ast_type item ≠ lit "collection".
Proof.
  intros Hin _. revert item Hin. apply demo_signature_inv.
  repeat constructor; vm_compute; discriminate.
Defined.

(** C2 at the example action, its output given on the command line. *)
Lemma C2_witness :
  ∃ w', handle_out_params demo_command kw_full demo_world
        = (Ret ([VStr (lit "out")], []), w').
Proof.
  destruct (C2_output_providers_in_order (collab := demo) (lit "do-it")
              demo_plugin demo_action kw_full demo_world)
    as (_ & w' & Hout).
  - exact demo_names_NoDup.
  - reflexivity.
  - exact demo_outputs_plain.
  - reflexivity.
  - exists w'. exact Hout.
Defined.

(** C4 at the example action, invoked with both logging flags. *)
Lemma C4_witness :
  ActionCommand_call (collab := demo) demo_command kw_clash demo_world
  = (Exit 1,
     set_trace [Echo Stderr RedBold
                  (lit "Unsure of how to be quiet and verbose at the same time.")]
               demo_world).
Proof.
  apply (C4_verbose_and_quiet_exit_1 (collab := demo) demo_command kw_clash
           demo_world); vm_compute; reflexivity.
Defined.

(** C5 at the example action, invoked with all three options. *)
Lemma C5_witness :
  ∃ w' before,
    invoke (collab := demo) (lit "do-it") demo_plugin demo_action
      kw_full demo_world = (Ret tt, w')
    ∧ trace w' = before
                 ++ [Save demo_result (VStr (lit "out"));
                     Echo Stdout Green (lit "Saved FeatureTable to: out.qza")].
Proof.
  destruct (C5_results_saved_in_signature_order (collab := demo) (lit "do-it")
              demo_plugin demo_action kw_full demo_world [demo_result])
    as (w' & before & Hrun & Htrace & _).
  - exact demo_names_NoDup.
  - vm_compute. reflexivity.
  - apply demo_signature_inv.
    repeat constructor; intros [[_ Hv]|[_ Hv]]; vm_compute in Hv; discriminate.
  - right. eexists. vm_compute. reflexivity.
  - vm_compute. reflexivity.
  - exists w', before. split; [exact Hrun|]. exact Htrace.
Defined.

(** C6 at the example action: a logged call that returns. *)
Lemma C6_witness :
  files demo_world !! lit "qiime2-q2cli-err-k3x9.log" = None
  ∧ ∃ w',
      execute (collab := demo) demo_command false false ∅ [VStr (lit "out")]
        demo_world = (Ret tt, w')
      ∧ files w' = files demo_world
      ∧ trace w'
        = [TempCreate (lit "qiime2-q2cli-err-k3x9.log"); ActionCall ∅;
           Close (lit "qiime2-q2cli-err-k3x9.log");
           Remove (lit "qiime2-q2cli-err-k3x9.log");
           Save demo_result (VStr (lit "out"));
           Echo Stdout Green (lit "Saved FeatureTable to: out.qza")].
Proof.
  destruct (proj2 (C6_log_file_lifecycle (collab := demo) demo_command
                     false ∅ [VStr (lit "out")] demo_world)
              (lit "qiime2-q2cli-err-k3x9.log"))
    as (Hfree & o & w' & rest & Hrun & Htrace & _ & Hend).
  - vm_compute. reflexivity.
  - split; [exact Hfree|].
    change (run_end (the_run (collab := demo) demo_command ∅))
      with (Returned [demo_result]) in Hend.
    destruct Hend as (-> & Hfiles & ->).
    exists w'. split_and!; [exact Hrun | exact Hfiles |].
    rewrite Htrace. vm_compute. reflexivity.
Defined.

(** C8 at an injected snapshot, and at a first lookup. *)
Lemma C8_witness :
  _plugin_lookup (collab := demo) {| _plugins := Some injected_snapshot |}
    (start_world [] [] [] [])
  = (Ret (name_map_of (collab := demo) injected_snapshot,
          {| _plugins := Some injected_snapshot |}),
     start_world [] [] [] [])
  ∧ _plugin_lookup (collab := demo) {| _plugins := None |}
      (start_world [] injected_snapshot [] [])
    = (Ret (name_map_of (collab := demo) injected_snapshot,
            {| _plugins := Some injected_snapshot |}),
       set_trace [CacheRead] (start_world [] injected_snapshot [] [])).
Proof.
  split.
  - exact (proj1 (C8_snapshot_read_at_most_once (collab := demo)
                    {| _plugins := Some injected_snapshot |}
                    (start_world [] [] [] []))
                 injected_snapshot eq_refl).
  - exact (proj1 (proj2 (C8_snapshot_read_at_most_once (collab := demo)
                           {| _plugins := None |}
                           (start_world [] injected_snapshot [] [])))
                 eq_refl).
Defined.

(** C9 at the example action, its output directory in the config file. *)
Lemma C9_witness :
  ∃ w', handle_out_params demo_command kw_config demo_world
        = (Ret ([VStr (lit "results/c")], []), w').
Proof.
  destruct (C9_output_dir_from_config (collab := demo) (lit "do-it")
              demo_plugin demo_action kw_config demo_world (lit "results"))
    as (_ & w' & Hout).
  - exact demo_names_NoDup.
  - reflexivity.
  - reflexivity.
  - exact demo_outputs_plain.
  - reflexivity.
  - vm_compute. reflexivity.
  - vm_compute. reflexivity.
  - exists w'. exact Hout.
Defined.

(** ** Worked examples *)

(** A call that fails in non-verbose mode: the reporter is given the log
    file, the process exits with the reporter's status, and the log file
    stays, holding what the action wrote to either stream. *)
Example failing_call_keeps_log :
  let '(o, w') := invoke (collab := demo) (lit "do-it") demo_plugin demo_action
                    kw_failing demo_world in
  o = Exit 1
  ∧ files w' !! log_name = Some [lit "working"; lit "careful"]
  ∧ trace w'
    = [GetValue (lit "a"); GetValue (lit "b"); GetValue (lit "c");
       TempCreate log_name;
       ActionCall (in_arguments (collab := demo) demo_command kw_failing);
       ErrorReport (EngineError (lit "boom"))
         (lit "Plugin error from dummy-plugin:") (LogFile log_name)].
Proof. vm_compute. split_and!; reflexivity. Qed.

(** The same call in verbose mode: no file, the writes go to the live
    streams, and the reporter is told the detail is on the error stream. *)
Example verbose_failing_call :
  let '(o, w') := invoke (collab := demo) (lit "do-it") demo_plugin demo_action
                    kw_verbose_failing demo_world in
  o = Exit 1
  ∧ files w' = ∅
  ∧ trace w'
    = [GetValue (lit "a"); GetValue (lit "b"); GetValue (lit "c");
       ActionCall (in_arguments (collab := demo) demo_command kw_failing);
       StreamWrite Stdout (lit "working"); StreamWrite Stderr (lit "careful");
       ErrorReport (EngineError (lit "boom"))
         (lit "Plugin error from dummy-plugin:") LogStderr].
Proof. vm_compute. split_and!; reflexivity. Qed.

(** A call that returns after the host reaped the log: nothing is closed
    or removed, and the result is saved all the same. *)
Example reaped_log_is_not_removed :
  let '(o, w') := invoke (collab := demo) (lit "do-it") demo_plugin demo_action
                    kw_slow demo_world in
  o = Ret tt
  ∧ files w' = ∅
  ∧ trace w'
    = [GetValue (lit "a"); GetValue (lit "b"); GetValue (lit "c");
       TempCreate log_name;
       ActionCall (in_arguments (collab := demo) demo_command kw_slow);
       Save demo_result (VStr (lit "out"));
       Echo Stdout Green (lit "Saved FeatureTable to: out.qza")].
Proof. vm_compute. split_and!; reflexivity. Qed.

(** With the config file, [b] and the output directory come from it: the
    action is called with [b = 7] unless [--b] is given, and the result goes
    under the directory of the config file. *)
Example config_supplies_defaults :
  let kw : kwargs := <[lit "cmd_config" := VStr (lit "defaults.cfg")]>
                       (<[lit "a" := VStr (lit "table.qza")]> ∅) in
  in_arguments (collab := demo) demo_command kw !! lit "b" = Some (VInt 7)
  ∧ in_arguments (collab := demo) demo_command kw_config !! lit "b"
    = Some (VInt 5)
  ∧ out_values (collab := demo) demo_command kw = [VStr (lit "results/c")].
Proof. vm_compute. split_and!; reflexivity. Qed.

(** Why the signature names must be distinct: two entries of one name share
    one handler, whose [missing] list grows with every failure, so the name
    is reported three times. *)
Example shared_handler_reports_thrice :
  let '(o, w') := invoke (collab := demo) (lit "twice") demo_plugin twin_action
                    ∅ demo_world in
  o = Exit 1
  ∧ trace w'
    = [GetValue (lit "a"); GetValue (lit "a");
       Echo Stderr Plain (lit "Usage: qiime dummy-plugin do-it [OPTIONS]" ++ nl);
       Echo Stderr RedBold (lit "Error: Missing option: --a");
       Echo Stderr RedBold (lit "Error: Missing option: --a");
       Echo Stderr RedBold (lit "Error: Missing option: --a")].
Proof. vm_compute. split_and!; reflexivity. Qed.

(** The commands the root lists: the builtins in their fixed order, then
    the plugins that have actions, sorted. *)
Example root_lists_builtins_first :
  (RootCommand_list_commands (collab := demo)
     {| _plugins := Some ((lit "zeta", demo_plugin) :: injected_snapshot) |}
     (start_world [] [] [] [])).1
  = Ret ([lit "info"; lit "tools"; lit "dev"; lit "dummy-plugin"; lit "zeta"],
         {| _plugins := Some ((lit "zeta", demo_plugin) :: injected_snapshot) |}).
Proof. vm_compute. reflexivity. Qed.

(** * Further properties of the command tree *)

(** ** Dictionaries built in a loop *)

Lemma find_rev_snoc {A} (p : A → bool) (l : list A) (x : A) :
  last_such p (l ++ [x]) = if p x then Some x else last_such p l.
Proof. unfold last_such. by rewrite rev_unit. Qed.

Lemma last_such_Some {A} (p : A → bool) (l : list A) (x : A) :
  last_such p l = Some x ↔
  ∃ before after, l = before ++ x :: after ∧ p x = true
                  ∧ ∀ y, y ∈ after → p y = false.
Proof.
  induction l as [|z l IH] using rev_ind.
  - split; [done|]. intros (b & a & Hl & _). by destruct b.
  - rewrite find_rev_snoc. destruct (p z) eqn:Hz.
    + split.
      * intros [= ->]. exists l, []. split_and!; [done | done |].
        by intros y ?%elem_of_nil.
      * intros (b & a & Hl & Hx & Hafter).
        destruct a as [|a0 a _] using rev_ind.
        -- apply app_inj_tail in Hl as [_ ->]. done.
        -- rewrite app_comm_cons, app_assoc in Hl.
           apply app_inj_tail in Hl as [_ ->].
           rewrite Hafter in Hz; [done|]. clear. set_solver.
    + rewrite IH. split.
      * intros (b & a & -> & Hx & Hafter). exists b, (a ++ [z]).
        split_and!; [by rewrite <- app_assoc | done |].
        intros y [Hy| ->%list_elem_of_singleton]%elem_of_app; [by apply Hafter|done].
      * intros (b & a & Hl & Hx & Hafter).
        destruct a as [|a0 a _] using rev_ind.
        -- apply app_inj_tail in Hl as [_ ->]. congruence.
        -- rewrite app_comm_cons, app_assoc in Hl.
           apply app_inj_tail in Hl as [-> ->].
           exists b, a. split_and!; [done | done |].
           intros y Hy. apply Hafter. clear -Hy. set_solver.
Qed.

Lemma last_such_None {A} (p : A → bool) (l : list A) :
  last_such p l = None ↔ ∀ y, y ∈ l → p y = false.
Proof.
  unfold last_such. split.
  - intros Hn y Hy. apply (find_none _ _ Hn).
    apply (proj1 (in_rev l y)). by apply list_elem_of_In.
  - intros Hall. destruct (List.find p (rev l)) as [x|] eqn:E; [|done].
    apply find_some in E as [Hin Hp].
    apply (proj2 (in_rev l x)), list_elem_of_In in Hin.
    rewrite (Hall x Hin) in Hp. done.
Qed.

(** A dict filled by a loop of assignments [d[key(x)] = val(x)], some of
    them skipped: what a key is bound to is decided by the last element
    that assigned it. *)
Lemma foldl_insert_lookup {A V} (keep : A → bool) (key : A → pystr)
    (val : A → V) (l : list A) (m : gmap pystr V) (k : pystr) :
  foldl (λ m x, if keep x then <[key x := val x]> m else m) m l !! k
  = match last_such (λ x, keep x && bool_decide (key x = k)) l with
    | Some x => Some (val x)
    | None => m !! k
    end.
Proof.
  induction l as [|z l IH] using rev_ind; [done|].
  rewrite foldl_snoc, find_rev_snoc. destruct (keep z) eqn:Hz; cbn [andb].
  - case_bool_decide as Hk.
    + subst k. by rewrite lookup_insert_eq.
    + by rewrite lookup_insert_ne.
  - done.
Qed.

Lemma foldl_ext_in {A B} (f g : B → A → B) (l : list A) (b : B) :
  (∀ b x, f b x = g b x) → foldl f b l = foldl g b l.
Proof.
  intros Hfg. revert b. induction l as [|x l IH]; intros b; [done|].
  cbn. by rewrite Hfg, IH.
Qed.

(** ** The order [sorted] sorts by *)

Lemma str_leb_total (a b : pystr) : str_leb a b = true ∨ str_leb b a = true.
Proof.
  revert b. induction a as [|x a IH]; intros b; [by left|].
  destruct b as [|y b]; [by right|]. cbn.
  destruct (N.ltb_spec x y), (N.ltb_spec y x); try lia; auto.
Qed.

Lemma str_leb_trans (a b c : pystr) :
  str_leb a b = true → str_leb b c = true → str_leb a c = true.
Proof.
  revert b c. induction a as [|x a IH]; intros b c; [done|].
  destruct b as [|y b]; [done|]. destruct c as [|z c]; [done|]. cbn.
  destruct (N.ltb_spec x y), (N.ltb_spec y x), (N.ltb_spec y z),
    (N.ltb_spec z y), (N.ltb_spec x z), (N.ltb_spec z x);
    try lia; try done.
  all: try apply IH.
Qed.

#[local] Instance str_le_total : Total str_le.
Proof. intros a b. apply str_leb_total. Qed.

#[local] Instance str_le_transitive : Transitive str_le.
Proof. intros a b c. apply str_leb_trans. Qed.

(** [sorted(d)] of a dict: its keys, each once, in ascending order. *)
Lemma sorted_keys {V} (m : gmap pystr V) :
  Sorted str_le (sorted (map_to_list m).*1)
  ∧ NoDup (sorted (map_to_list m).*1)
  ∧ ∀ k, k ∈ sorted (map_to_list m).*1 ↔ is_Some (m !! k).
Proof.
  unfold sorted. split_and!.
  - apply Sorted_merge_sort, _.
  - rewrite merge_sort_Permutation. apply NoDup_fst_map_to_list.
  - intros k. rewrite merge_sort_Permutation, list_elem_of_fmap. split.
    + intros ([k' v] & -> & Hin). apply elem_of_map_to_list in Hin. by exists v.
    + intros [v Hv]. exists (k, v). split; [done|]. by apply elem_of_map_to_list.
Qed.

(** ** RootCommand: lookup of plugins *)

Section RootDispatch.

Context {collab : Collaborators}.

Lemma name_map_of_lookup (s : snapshot) (k : pystr) :
  name_map_of s !! k = snd <$> last_such (shown_as k) s.
Proof.
  unfold name_map_of.
  rewrite (foldl_ext_in _
             (λ m e, if nonempty (p_actions e.2)
                     then <[to_cli_name e.1 := e.2]> m else m))
    by (by intros m [name pl]).
  rewrite foldl_insert_lookup, lookup_empty. unfold shown_as.
  by destruct (last_such _ s).
Qed.

Lemma shown_as_true (k : pystr) (e : pystr * Plugin) :
  shown_as k e = true ↔ to_cli_name e.1 = k ∧ p_actions e.2 ≠ [].
Proof.
  unfold shown_as. rewrite andb_true_iff, nonempty_true, bool_decide_eq_true.
  tauto.
Qed.

Lemma shown_as_false (k : pystr) (e : pystr * Plugin) :
  shown_as k e = false ↔ ¬ (to_cli_name e.1 = k ∧ p_actions e.2 ≠ []).
Proof. rewrite <- shown_as_true. by destruct (shown_as k e). Qed.

(** X1. The name map of a snapshot binds a command name to the last plugin
    of the snapshot that has actions and whose name normalises to it;
    plugins without actions are never bound, and a name no such plugin
    normalises to is not bound at all. *)
Theorem X1_plugin_name_last_wins (s : snapshot) (k : pystr) :
  (∀ pl, name_map_of s !! k = Some pl ↔
         ∃ before name after,
           s = before ++ (name, pl) :: after
           ∧ to_cli_name name = k ∧ p_actions pl ≠ []
           ∧ ∀ e, e ∈ after → ¬ (to_cli_name e.1 = k ∧ p_actions e.2 ≠ []))
  ∧ (name_map_of s !! k = None ↔
     ∀ e, e ∈ s → ¬ (to_cli_name e.1 = k ∧ p_actions e.2 ≠ [])).
Proof.
  rewrite name_map_of_lookup. split.
  - intros pl. split.
    + destruct (last_such (shown_as k) s) as [[name pl']|] eqn:E; [|done].
      intros [= ->]. apply last_such_Some in E as (b & a & -> & Hx & Hafter).
      apply shown_as_true in Hx as [Hk Hact].
      exists b, name, a. split_and!; [done | done | done |].
      intros e He. by apply shown_as_false, Hafter.
    + intros (b & name & a & -> & Hk & Hact & Hafter).
      assert (last_such (shown_as k) (b ++ (name, pl) :: a) = Some (name, pl))
        as ->; [|done].
      apply last_such_Some. exists b, a. split_and!; [done | |].
      * by apply shown_as_true.
      * intros y Hy. by apply shown_as_false, Hafter.
  - rewrite fmap_None, last_such_None.
    split; intros H e He; apply shown_as_false; by apply H.
Qed.

Lemma builtin_find (name : pystr) :
  match list_find (λ entry : pystr * builtin, entry.1 = name) _builtin_commands with
  | Some (_, (name', cmd)) => name' = name ∧ (name, cmd) ∈ _builtin_commands
  | None => name ∉ builtin_names
  end.
Proof.
  destruct (list_find _ _) as [[i [name' cmd]]|] eqn:E.
  - apply list_find_Some in E as (Hi & Hn & _). cbn in Hn. subst name'.
    split; [done|]. by apply list_elem_of_lookup_2 in Hi.
  - apply list_find_None in E. unfold builtin_names.
    intros ([n c] & -> & Hin)%list_elem_of_fmap.
    by apply (proj1 (Forall_forall _ _) E (n, c) Hin).
Qed.

(** X2. [get_command] of the root: a builtin name yields the builtin
    command and touches neither the cache nor the object, whatever the
    plugins are called; any other name yields the plugin command of the
    last shown plugin of the snapshot in use, or the not-found signal when
    there is none. It reads the cache only if the object holds no snapshot,
    and it never exits or raises. *)
Theorem X2_root_get_command (self : RootCommand) (name : pystr) (w : World) :
  (name ∈ builtin_names →
   ∃ cmd, (name, cmd) ∈ _builtin_commands
          ∧ RootCommand_get_command self name w
            = (Ret (Some (inl cmd), self), w))
  ∧ (name ∉ builtin_names →
     RootCommand_get_command self name w
     = (Ret ((λ e, inr (PluginCommand_init e.2 name))
               <$> last_such (shown_as name) (snapshot_in_use self w),
             {| _plugins := Some (snapshot_in_use self w) |}),
        match _plugins self with
        | Some _ => w
        | None => set_trace (trace w ++ [CacheRead]) w
        end)).
Proof.
  pose proof (builtin_find name) as Hb. unfold RootCommand_get_command. split.
  - intros Hin. destruct (list_find _ _) as [[i [name' cmd]]|]; [|done].
    destruct Hb as [-> Hc]. by exists cmd.
  - intros Hout. destruct (list_find _ _) as [[i [name' cmd]]|].
    { destruct Hb as [-> Hc]. exfalso. apply Hout.
      by apply (list_elem_of_fmap_2 fst) in Hc. }
    unfold mbind, M_bind, snapshot_in_use.
    destruct self as [[s|]].
    + rewrite (plugin_lookup_memoised _ s) by done. cbn [_plugins default from_option id].
      rewrite name_map_of_lookup.
      by destruct (last_such (shown_as name) s) as [[n pl]|].
    + rewrite plugin_lookup_first by done. cbn [_plugins default from_option id].
      rewrite name_map_of_lookup.
      by destruct (last_such (shown_as name) (cache_plugins w)) as [[n pl]|].
Qed.


Lemma list_commands_eq (self : RootCommand) (w : World) :
  RootCommand_list_commands self w
  = (Ret (builtin_names
          ++ sorted (map_to_list (name_map_of (snapshot_in_use self w))).*1,
          {| _plugins := Some (snapshot_in_use self w) |}),
     match _plugins self with
     | Some _ => w
     | None => set_trace (trace w ++ [CacheRead]) w
     end).
Proof.
  unfold RootCommand_list_commands, mbind, M_bind, snapshot_in_use.
  destruct self as [[s|]].
  - by rewrite (plugin_lookup_memoised _ s).
  - by rewrite plugin_lookup_first.
Qed.

(** X3. [list_commands] of the root returns the three builtin names in
    their fixed order, then the command names of the shown plugins: each
    once, in ascending order of code points, and exactly the names that some
    plugin with actions normalises to. *)
Theorem X3_root_list_commands (self : RootCommand) (w : World) :
  ∃ names w',
    RootCommand_list_commands self w
    = (Ret ([lit "info"; lit "tools"; lit "dev"] ++ names,
            {| _plugins := Some (snapshot_in_use self w) |}), w')
    ∧ Sorted str_le names
    ∧ NoDup names
    ∧ ∀ k, k ∈ names ↔
           ∃ e, e ∈ snapshot_in_use self w
                ∧ to_cli_name e.1 = k ∧ p_actions e.2 ≠ [].
Proof.
  rewrite list_commands_eq.
  destruct (sorted_keys (name_map_of (snapshot_in_use self w)))
    as (Hsorted & Hnd & Hin).
  eexists _, _. split_and!; [done | done | done |].
  intros k. rewrite Hin, name_map_of_lookup, fmap_is_Some. split.
  - intros [e He]. apply last_such_Some in He as (b & a & Hs & Hx & _).
    exists e. split; [rewrite Hs; clear; set_solver | by apply shown_as_true].
  - intros (e & He & Hk & Hact).
    destruct (last_such (shown_as k) (snapshot_in_use self w)) eqn:E; [done|].
    exfalso. rewrite last_such_None in E.
    specialize (E e He). apply shown_as_false in E. by apply E.
Qed.

(** X4. The root lists a name exactly when [get_command] finds a command
    for it: every listed name can be got, and a name that is not listed
    gets the not-found signal. *)
Theorem X4_root_listed_iff_found (self : RootCommand) (name : pystr) (w : World) :
  name ∈ root_lists self w ↔ root_finds self name w = true.
Proof.
  unfold root_lists, root_finds. rewrite list_commands_eq. cbn [fst].
  destruct (sorted_keys (name_map_of (snapshot_in_use self w)))
    as (_ & _ & Hin).
  rewrite elem_of_app, Hin, name_map_of_lookup, fmap_is_Some.
  pose proof (builtin_find name) as Hb. unfold RootCommand_get_command.
  destruct (list_find _ _) as [[i [name' cmd]]|].
  - destruct Hb as [-> Hc]. cbn. split; [done|]. intros _. left.
    by apply (list_elem_of_fmap_2 fst) in Hc.
  - unfold mbind, M_bind, snapshot_in_use. destruct self as [[s|]].
    + rewrite (plugin_lookup_memoised _ s) by done.
      cbn [_plugins default from_option id]. rewrite name_map_of_lookup.
      destruct (last_such (shown_as name) s) as [[n pl]|]; cbn.
      * split; [done|]. intros _. right. by eexists.
      * split; [|done]. intros [?|[? [=]]]. done.
    + rewrite plugin_lookup_first by done.
      cbn [_plugins default from_option id]. rewrite name_map_of_lookup.
      destruct (last_such (shown_as name) (cache_plugins w)) as [[n pl]|]; cbn.
      * split; [done|]. intros _. right. by eexists.
      * split; [|done]. intros [?|[? [=]]]. done.
Qed.

End RootDispatch.

(** ** PluginCommand: lookup of actions *)

Section PluginDispatch.

Context {collab : Collaborators}.

Lemma action_lookup_last (pl : Plugin) (pcname k : pystr) :
  _action_lookup (PluginCommand_init pl pcname) !! k
  = snd <$> last_such (reached_as k) (p_actions pl).
Proof.
  cbn [PluginCommand_init _action_lookup].
  rewrite (foldl_ext_in _
             (λ m (e : pystr * Action),
                if true then <[to_cli_name e.1 := e.2]> m else m))
    by (by intros m [id a]).
  rewrite (foldl_insert_lookup (λ _, true)), lookup_empty. unfold reached_as.
  cbn [andb]. by destruct (last_such _ (p_actions pl)).
Qed.

(** X5. [get_command] of a plugin resolves a name to the last action of the
    plugin whose id normalises to it, so an earlier action with the same
    normalised id cannot be reached; it exits with status 2 exactly when no
    action id normalises to the name. *)
Theorem X5_plugin_get_command_last_wins (pl : Plugin) (pcname name : pystr)
    (w : World) :
  (∀ cmd w',
     PluginCommand_get_command (PluginCommand_init pl pcname) name w
     = (Ret cmd, w') ↔
     ∃ before id act after,
       p_actions pl = before ++ (id, act) :: after
       ∧ to_cli_name id = name
       ∧ (∀ e, e ∈ after → to_cli_name e.1 ≠ name)
       ∧ cmd = new_ActionCommand name pl act
       ∧ w' = set_handler_missing ∅ w)
  ∧ ((PluginCommand_get_command (PluginCommand_init pl pcname) name w).1 = Exit 2
     ↔ ∀ e, e ∈ p_actions pl → to_cli_name e.1 ≠ name).
Proof.
  unfold PluginCommand_get_command. rewrite action_lookup_last.
  destruct (last_such (reached_as name) (p_actions pl)) as [[id act]|] eqn:E.
  - apply last_such_Some in E as (b & a & Hl & Hx & Hafter).
    apply bool_decide_eq_true in Hx. cbn in Hx.
    assert (Hafter' : ∀ e, e ∈ a → to_cli_name e.1 ≠ name).
    { intros e He. specialize (Hafter e He).
      by apply bool_decide_eq_false in Hafter. }
    split.
    + intros cmd w'. cbn. unfold ActionCommand_init. split.
      * intros [= <- <-]. by exists b, id, act, a.
      * intros (b' & id' & act' & a' & Hl' & Hid' & Hafter'' & -> & ->).
        rewrite Hl in Hl'.
        assert (b = b' ∧ (id, act) = (id', act') ∧ a = a') as (_ & [= <- <-] & _).
        { apply (not_elem_of_app_cons_inv_r (id, act) (id', act') b a b' a');
            [| | done].
          - intros Hin. by apply (Hafter'' _ Hin).
          - intros Hin. by apply (Hafter' _ Hin). }
        done.
    + cbn. split; [done|]. intros Hall. exfalso.
      apply (Hall (id, act)); [rewrite Hl; clear; set_solver | done].
  - rewrite last_such_None in E. split.
    + intros cmd w'. cbn. split; [done|].
      intros (b & id & act & a & Hl & Hid & _). exfalso.
      assert (Hin : (id, act) ∈ p_actions pl) by (rewrite Hl; clear; set_solver).
      specialize (E _ Hin). apply bool_decide_eq_false in E. done.
    + cbn. split; [|done]. intros _ e He. specialize (E e He).
      by apply bool_decide_eq_false in E.
Qed.

(** X6. [list_commands] of a plugin returns the normalised action ids, each
    once, in ascending order of code points; and a name is listed exactly
    when [get_command] returns an ActionCommand for it instead of exiting. *)
Theorem X6_plugin_list_commands (pl : Plugin) (pcname : pystr) :
  let self := PluginCommand_init pl pcname in
  Sorted str_le (PluginCommand_list_commands self)
  ∧ NoDup (PluginCommand_list_commands self)
  ∧ (∀ k, k ∈ PluginCommand_list_commands self ↔
          ∃ e, e ∈ p_actions pl ∧ to_cli_name e.1 = k)
  ∧ (∀ k w, k ∈ PluginCommand_list_commands self ↔
            ∃ cmd w', PluginCommand_get_command self k w = (Ret cmd, w')).
Proof.
  intros self. unfold PluginCommand_list_commands.
  destruct (sorted_keys (_action_lookup self)) as (Hsorted & Hnd & Hin).
  split_and!; [done | done | |].
  - intros k. rewrite Hin. unfold self. rewrite action_lookup_last, fmap_is_Some.
    split.
    + intros [e He]. apply last_such_Some in He as (b & a & Hs & Hx & _).
      apply bool_decide_eq_true in Hx.
      exists e. split; [rewrite Hs; clear; set_solver | done].
    + intros (e & He & Hk).
      destruct (last_such (reached_as k) (p_actions pl)) eqn:E; [done|].
      exfalso. rewrite last_such_None in E. specialize (E e He).
      by apply bool_decide_eq_false in E.
  - intros k w. rewrite Hin. unfold PluginCommand_get_command.
    destruct (_action_lookup self !! k) as [act|]; cbn.
    + split; [|done]. intros _. by eexists _, _.
    + split; [by intros [? [=]] | by intros (? & ? & [=])].
Qed.

End PluginDispatch.

(** ** ActionCommand: handlers and resolution for any signature *)

Section ActionCoverage.

Context {collab : Collaborators}.

Lemma handlers_last (act : Action) (k : pystr) :
  build_generated_handlers act !! k
  = entry_handler <$> last_such (named k) (a_signature act).
Proof.
  unfold build_generated_handlers.
  rewrite (foldl_ext_in _
             (λ m item, if true then <[item_name item := entry_handler item]> m
                        else m)) by done.
  rewrite (foldl_insert_lookup (λ _, true)), lookup_empty.
  unfold named. cbn [andb]. by destruct (last_such _ _).
Qed.

Lemma handlers_bound (name : pystr) (pl : Plugin) (act : Action) (k : pystr) :
  is_Some (generated_handlers (new_ActionCommand name pl act) !! k)
  ↔ k ∈ item_name <$> a_signature act.
Proof.
  cbn [new_ActionCommand generated_handlers].
  rewrite handlers_last, fmap_is_Some, list_elem_of_fmap. split.
  - intros [item Hi]. apply last_such_Some in Hi as (b & a & Hs & Hk & _).
    apply bool_decide_eq_true in Hk. exists item.
    split; [done | rewrite Hs; clear; set_solver].
  - intros (item & -> & Hin).
    destruct (last_such (named (item_name item)) (a_signature act)) eqn:E; [done|].
    rewrite last_such_None in E. specialize (E item Hin).
    by apply bool_decide_eq_false in E.
Qed.

(** X7. [build_generated_handlers] binds every name of the signature, and
    no other name, to a handler: the one built for the last entry of that
    name, wrapped as a collection handler or not as that entry says. *)
Theorem X7_handlers_last_entry_wins (name : pystr) (pl : Plugin) (act : Action) :
  let self := new_ActionCommand name pl act in
  (∀ before item after,
     a_signature act = before ++ item :: after →
     (∀ later, later ∈ after → item_name later ≠ item_name item) →
     generated_handlers self !! item_name item = Some (entry_handler item))
  ∧ (∀ k, is_Some (generated_handlers self !! k)
          ↔ k ∈ item_name <$> a_signature act).
Proof.
  intros self. split; [|apply handlers_bound].
  intros b item a Hs Hlater. unfold self.
  cbn [new_ActionCommand generated_handlers]. rewrite handlers_last.
  assert (last_such (named (item_name item)) (a_signature act) = Some item)
    as ->; [|done].
  apply last_such_Some. exists b, a. split_and!; [done | |].
  - by apply bool_decide_eq_true.
  - intros y Hy. apply bool_decide_eq_false. by apply Hlater.
Qed.


Lemma in_params_body_frame (self : ActionCommand) (kw : kwargs) (fb : fallback)
    (verbose : bool) (arguments : gmap pystr value) (missing : list pystr)
    (x : SigItem) (w : World) :
  is_Some (generated_handlers self !! item_name x) →
  ∃ arguments' missing' w',
    in_params_body self kw fb verbose (arguments, missing) x w
    = (Ret (arguments', missing'), w')
    ∧ trace w' = trace w ++ (if is_in x then [GetValue (item_name x)] else [])
    ∧ same_host w w'
    ∧ (∀ k, is_Some (arguments' !! k) →
            is_Some (arguments !! k) ∨ (is_in x = true ∧ k = item_name x)).
Proof.
  intros [h Hh]. unfold in_params_body, lookup_handler, is_in. rewrite Hh.
  assert (Hcall : ∀ verbose', ∃ arguments' missing' w',
    (r ← try_get_value (item_name x) h verbose' kw fb;
     match r with
     | Some v => mret (<[item_name x := v]> arguments, missing)
     | None => recorded ← handler_missing_of (item_name x);
               mret (arguments, missing ++ recorded)
     end) w = (Ret (arguments', missing'), w')
    ∧ trace w' = trace w ++ [GetValue (item_name x)]
    ∧ same_host w w'
    ∧ (∀ k, is_Some (arguments' !! k) →
            is_Some (arguments !! k) ∨ (true = true ∧ k = item_name x))).
  { intros verbose'. unfold mbind, M_bind at 1. rewrite try_get_value_eq.
    destruct (h_get_value h verbose' kw fb) as [v|recorded]; cbn.
    - eexists _, _, _. split_and!; [done | done | done |].
      intros k. destruct (decide (k = item_name x)) as [->|Hne]; [by right|].
      rewrite lookup_insert_ne by done. by left.
    - eexists _, _, _. split_and!; [done | done | done |]. by left. }
  destruct (item_type x).
  - unfold mbind at 1, M_bind at 1, mret at 1, M_ret at 1.
    destruct (h_is_metadata h); apply Hcall.
  - unfold mbind at 1, M_bind at 1, mret at 1, M_ret at 1.
    destruct (h_is_metadata h); apply Hcall.
  - eexists _, _, _. split_and!; [done | by rewrite app_nil_r | done |].
    by left.
Qed.

Lemma same_host_trans (w1 w2 w3 : World) :
  same_host w1 w2 → same_host w2 w3 → same_host w1 w3.
Proof. unfold same_host. intros (?&?&?&?&?) (?&?&?&?&?). split_and!; congruence. Qed.

Lemma in_loop_frame (self : ActionCommand) (kw : kwargs) (fb : fallback)
    (verbose : bool) (items : list SigItem) (arguments : gmap pystr value)
    (missing : list pystr) (w : World) :
  (∀ item, item ∈ items → is_Some (generated_handlers self !! item_name item)) →
  ∃ arguments' missing' w',
    for_ items (in_params_body self kw fb verbose) (arguments, missing) w
    = (Ret (arguments', missing'), w')
    ∧ trace w' = trace w ++ ((λ item, GetValue (item_name item))
                               <$> List.filter is_in items)
    ∧ same_host w w'
    ∧ (∀ k, is_Some (arguments' !! k) →
            is_Some (arguments !! k)
            ∨ k ∈ item_name <$> List.filter is_in items).
Proof.
  revert arguments missing w.
  induction items as [|x items IH]; intros arguments missing w Hb.
  - exists arguments, missing, w. split_and!; [done | by rewrite app_nil_r | done |].
    by left.
  - destruct (in_params_body_frame self kw fb verbose arguments missing x w)
      as (a1 & m1 & w1 & Hbody & Ht1 & Hh1 & Hd1).
    { apply Hb. by left. }
    destruct (IH a1 m1 w1) as (a2 & m2 & w2 & Hrest & Ht2 & Hh2 & Hd2).
    { intros item Hin. apply Hb. by right. }
    exists a2, m2, w2. split_and!.
    + cbn [for_]. unfold mbind, M_bind. by rewrite Hbody.
    + rewrite Ht2, Ht1. cbn [List.filter]. destruct (is_in x); cbn.
      * by rewrite <- app_assoc.
      * by rewrite app_nil_r.
    + by apply (same_host_trans w w1 w2).
    + intros k Hk. cbn [List.filter].
      destruct (Hd2 k Hk) as [Hk1|Hk1].
      * destruct (Hd1 k Hk1) as [?|[Hx ->]]; [by left|]. right.
        rewrite Hx. cbn. by left.
      * right. destruct (is_in x); [cbn; by right | done].
Qed.

Lemma out_params_body_frame (self : ActionCommand) (kw : kwargs) (fb : fallback)
    (outputs : list value) (missing : list pystr) (x : SigItem) (w : World) :
  is_Some (generated_handlers self !! item_name x) →
  ∃ outputs' missing' w',
    out_params_body self kw fb (outputs, missing) x w
    = (Ret (outputs', missing'), w')
    ∧ trace w' = trace w ++ (if is_out x then [GetValue (item_name x)] else [])
    ∧ same_host w w'
    ∧ (length outputs' ≤ length outputs + (if is_out x then 1 else 0))%nat.
Proof.
  intros [h Hh]. unfold out_params_body, lookup_handler, is_out. rewrite Hh.
  destruct (item_type x).
  1, 2: eexists _, _, _; split_and!; [done | by rewrite app_nil_r | done | lia].
  unfold mbind at 1, M_bind at 1, mret at 1, M_ret at 1.
  unfold mbind, M_bind at 1. rewrite try_get_value_eq.
  destruct (h_get_value h None kw fb) as [v|recorded]; cbn.
  - eexists _, _, _. split_and!; [done | done | done |].
    rewrite length_app. cbn. lia.
  - eexists _, _, _. split_and!; [done | done | done | lia].
Qed.

Lemma out_loop_frame (self : ActionCommand) (kw : kwargs) (fb : fallback)
    (items : list SigItem) (outputs : list value) (missing : list pystr)
    (w : World) :
  (∀ item, item ∈ items → is_Some (generated_handlers self !! item_name item)) →
  ∃ outputs' missing' w',
    for_ items (out_params_body self kw fb) (outputs, missing) w
    = (Ret (outputs', missing'), w')
    ∧ trace w' = trace w ++ ((λ item, GetValue (item_name item))
                               <$> List.filter is_out items)
    ∧ same_host w w'
    ∧ (length outputs' ≤ length outputs + length (List.filter is_out items))%nat.
Proof.
  revert outputs missing w.
  induction items as [|x items IH]; intros outputs missing w Hb.
  - exists outputs, missing, w.
    split_and!; [done | by rewrite app_nil_r | done | cbn; lia].
  - destruct (out_params_body_frame self kw fb outputs missing x w)
      as (o1 & m1 & w1 & Hbody & Ht1 & Hh1 & Hl1).
    { apply Hb. by left. }
    destruct (IH o1 m1 w1) as (o2 & m2 & w2 & Hrest & Ht2 & Hh2 & Hl2).
    { intros item Hin. apply Hb. by right. }
    exists o2, m2, w2. split_and!.
    + cbn [for_]. unfold mbind, M_bind. by rewrite Hbody.
    + rewrite Ht2, Ht1. cbn [List.filter]. destruct (is_out x); cbn.
      * by rewrite <- app_assoc.
      * by rewrite app_nil_r.
    + by apply (same_host_trans w w1 w2).
    + cbn [List.filter]. destruct (is_out x); cbn [length] in *; lia.
Qed.

Lemma handle_in_params_frame (self : ActionCommand) (kw : kwargs) (w : World) :
  (∀ item, item ∈ a_signature (action self) →
           is_Some (generated_handlers self !! item_name item)) →
  resolved_verbose self kw && resolved_quiet self kw = false →
  ∃ arguments missing w',
    handle_in_params self kw w
    = (Ret (arguments, missing, resolved_verbose self kw,
            resolved_quiet self kw), w')
    ∧ trace w' = trace w ++ ((λ item, GetValue (item_name item))
                               <$> in_entries self)
    ∧ same_host w w'
    ∧ (∀ k, is_Some (arguments !! k) → k ∈ item_name <$> in_entries self).
Proof.
  intros Hb Hvq.
  destruct (in_loop_frame self kw (cmd_config_handler self kw)
              (resolved_verbose self kw) (a_signature (action self)) ∅ [] w Hb)
    as (a & m & w' & Hloop & Ht & Hh & Hd).
  exists a, m, w'. split_and!; [| done | done |].
  - unfold handle_in_params. fold (resolved_verbose self kw).
    fold (resolved_quiet self kw). rewrite Hvq. cbn [when].
    unfold mbind, M_bind, mret, M_ret. by rewrite Hloop.
  - intros k Hk. destruct (Hd k Hk) as [Hk'|Hk']; [|done].
    rewrite lookup_empty in Hk'. by destruct Hk'.
Qed.

Lemma handle_out_params_frame (self : ActionCommand) (kw : kwargs) (w : World) :
  (∀ item, item ∈ a_signature (action self) →
           is_Some (generated_handlers self !! item_name item)) →
  ∃ outputs missing w',
    handle_out_params self kw w = (Ret (outputs, missing), w')
    ∧ trace w' = trace w ++ ((λ item, GetValue (item_name item))
                               <$> out_entries self)
    ∧ same_host w w'
    ∧ (length outputs ≤ length (out_entries self))%nat.
Proof.
  intros Hb. unfold handle_out_params.
  destruct (out_loop_frame self kw (composite_fallback self kw)
              (a_signature (action self)) [] [] w Hb)
    as (o & m & w' & Hloop & Ht & Hh & Hl).
  exists o, m, w'. split_and!; done.
Qed.

Lemma init_handlers_bound (name : pystr) (pl : Plugin) (act : Action) :
  ∀ item, item ∈ a_signature (action (new_ActionCommand name pl act)) →
    is_Some (generated_handlers (new_ActionCommand name pl act)
             !! item_name item).
Proof.
  intros item Hin. apply handlers_bound. apply list_elem_of_fmap. by exists item.
Qed.

(** X8. On a command built by [__init__], whatever its signature (names
    may repeat), neither resolution pass raises: the lookups
    [self.generated_handlers[name]] all succeed. [handle_in_params], when
    [verbose] and [quiet] do not clash, returns after asking each input and
    parameter entry once in signature order, and [handle_out_params] after
    asking each output entry once; neither prints, touches a file or binds
    a name that is not an entry's; there are at most as many outputs as
    output entries. *)
Theorem X8_resolution_never_raises (name : pystr) (pl : Plugin) (act : Action)
    (kw : kwargs) (w : World) :
  let self := new_ActionCommand name pl act in
  (resolved_verbose self kw && resolved_quiet self kw = false →
   ∃ arguments missing w',
     handle_in_params self kw w
     = (Ret (arguments, missing, resolved_verbose self kw,
             resolved_quiet self kw), w')
     ∧ trace w' = trace w ++ ((λ item, GetValue (item_name item))
                                <$> in_entries self)
     ∧ same_host w w'
     ∧ (∀ k, is_Some (arguments !! k) → k ∈ item_name <$> in_entries self))
  ∧ ∃ outputs missing w',
      handle_out_params self kw w = (Ret (outputs, missing), w')
      ∧ trace w' = trace w ++ ((λ item, GetValue (item_name item))
                                 <$> out_entries self)
      ∧ same_host w w'
      ∧ (length outputs ≤ length (out_entries self))%nat.
Proof.
  intros self. split.
  - apply handle_in_params_frame, init_handlers_bound.
  - apply handle_out_params_frame, init_handlers_bound.
Qed.

Lemma in_arguments_lookup (self : ActionCommand) (kw : kwargs) (k : pystr)
    (v : value) :
  NoDup (item_name <$> a_signature (action self)) →
  in_arguments self kw !! k = Some v ↔
  ∃ item, item ∈ a_signature (action self) ∧ is_in item = true
          ∧ item_name item = k ∧ in_resolution self kw item = Resolved v.
Proof.
  intros Hnd. unfold in_arguments.
  rewrite (foldl_ext_in _
             (λ m item,
                if bool_decide (is_Some (value_of (in_resolution self kw item)))
                then <[item_name item :=
                         default VNone (value_of (in_resolution self kw item))]> m
                else m))
    by (intros m item; by destruct (in_resolution self kw item)).
  rewrite foldl_insert_lookup, lookup_empty.
  destruct (last_such _ (in_entries self)) as [item|] eqn:E.
  - apply last_such_Some in E as (b & a & Hs & Hp & _).
    apply andb_true_iff in Hp as [Hres Hk].
    apply bool_decide_eq_true in Hres, Hk.
    assert (Hin : item ∈ in_entries self) by (rewrite Hs; clear; set_solver).
    apply list_elem_of_In, filter_In in Hin as [Hin%list_elem_of_In Hi].
    destruct (in_resolution self kw item) as [v'|] eqn:Hr; [|by destruct Hres].
    cbn. split.
    + intros [= ->]. by exists item.
    + intros (item' & Hin' & Hi' & Hk' & Hr').
      assert (item' = item) as ->.
      { apply (NoDup_fmap_eq item_name (a_signature (action self)));
          [done | done | done | congruence]. }
      congruence.
  - rewrite last_such_None in E. split; [done|].
    intros (item & Hin & Hi & Hk & Hr). exfalso.
    assert (Hin' : item ∈ in_entries self).
    { apply list_elem_of_In, filter_In. split; [by apply list_elem_of_In|done]. }
    specialize (E item Hin'). rewrite Hr in E. cbn in E.
    by apply bool_decide_eq_false in E.
Qed.

Lemma in_missing_elem (self : ActionCommand) (kw : kwargs) (option : pystr) :
  option ∈ in_missing self kw ↔
  ∃ item recorded, item ∈ a_signature (action self) ∧ is_in item = true
                   ∧ in_resolution self kw item = NotFound recorded
                   ∧ option ∈ recorded.
Proof.
  unfold in_missing, in_entries. rewrite list_elem_of_In, in_flat_map. split.
  - intros (item & [Hin Hi]%filter_In & Ho).
    destruct (in_resolution self kw item) as [v|recorded] eqn:Hr; [done|].
    exists item, recorded. split_and!; [by apply list_elem_of_In | done | done |].
    by apply list_elem_of_In.
  - intros (item & recorded & Hin & Hi & Hr & Ho). exists item. split.
    + apply filter_In. split; [by apply list_elem_of_In | done].
    + rewrite Hr. by apply list_elem_of_In.
Qed.

(** X9. For a signature whose names are distinct, on a command fresh from
    [__init__]: [handle_in_params] hands over a keyword argument exactly
    for the input and parameter entries that resolve, each bound to the
    value its handler returned, and its missing list holds exactly the
    option names recorded by the entries that do not resolve. *)
Theorem X9_arguments_are_resolved_entries (name : pystr) (pl : Plugin)
    (act : Action) (kw : kwargs) (w : World) :
  let self := new_ActionCommand name pl act in
  NoDup (item_name <$> a_signature act) →
  handler_missing w = ∅ →
  resolved_verbose self kw && resolved_quiet self kw = false →
  ∃ arguments missing w',
    handle_in_params self kw w
    = (Ret (arguments, missing, resolved_verbose self kw,
            resolved_quiet self kw), w')
    ∧ (∀ k v, arguments !! k = Some v ↔
              ∃ item, item ∈ a_signature act ∧ is_in item = true
                      ∧ item_name item = k
                      ∧ in_resolution self kw item = Resolved v)
    ∧ (∀ option, option ∈ missing ↔
                 ∃ item recorded, item ∈ a_signature act ∧ is_in item = true
                                  ∧ in_resolution self kw item = NotFound recorded
                                  ∧ option ∈ recorded).
Proof.
  intros self Hnd Hfresh Hvq.
  pose proof (handle_in_params_eq name pl act kw w Hnd Hfresh Hvq) as Hin.
  cbn zeta in Hin. fold self in Hin.
  eexists _, _, _. split_and!; [exact Hin | |].
  - intros k v. by apply in_arguments_lookup.
  - apply in_missing_elem.
Qed.

(** ** ActionCommand: the call of the action and the saving of results *)

Lemma saves_app (a b : list event) : saves (a ++ b) = saves a ++ saves b.
Proof. apply omap_app. Qed.

Lemma calls_app (a b : list event) : calls (a ++ b) = calls a ++ calls b.
Proof. apply omap_app. Qed.

Lemma saves_save_events (quiet : bool) (pairs : list (Result * value)) :
  saves (save_events quiet pairs) = pairs.
Proof.
  induction pairs as [|[result output] pairs IH]; [done|].
  unfold saves, save_events in *. cbn [flat_map].
  destruct quiet; cbn; by rewrite IH.
Qed.

Lemma calls_save_events (quiet : bool) (pairs : list (Result * value)) :
  calls (save_events quiet pairs) = [].
Proof.
  induction pairs as [|[result output] pairs IH]; [done|].
  unfold calls, save_events in *. cbn [flat_map].
  destruct quiet; cbn; by rewrite IH.
Qed.

Lemma writes_no_saves (writes : list (stream * pystr)) :
  saves ((λ '(to, text), StreamWrite to text) <$> writes) = []
  ∧ calls ((λ '(to, text), StreamWrite to text) <$> writes) = [].
Proof. induction writes as [|[to text] writes [IH1 IH2]]; [done|]. by cbn. Qed.

Lemma cleanup_no_saves (reaped : bool) (name : pystr) :
  saves (if reaped then [] else [Close name; Remove name]) = []
  ∧ calls (if reaped then [] else [Close name; Remove name]) = [].
Proof. by destruct reaped. Qed.

(** What [execute] adds to the trace, and how it ends, in every case. *)
Lemma execute_cases (self : ActionCommand) (verbose quiet : bool)
    (arguments : gmap pystr value) (outputs : list value) (w : World) :
  (verbose = false ∧ temp_name w = None
   ∧ execute self verbose quiet arguments outputs w = (Raise FileExistsError, w))
  ∨ ∃ o w' before after,
      execute self verbose quiet arguments outputs w = (o, w')
      ∧ (verbose = true ∨ is_Some (temp_name w))
      ∧ trace w' = trace w ++ before ++ [ActionCall arguments] ++ after
      ∧ saves before = [] ∧ calls before = [] ∧ calls after = []
      ∧ Forall (λ e, prints e = false) before
      ∧ (verbose = true → files w' = files w)
      ∧ match run_end (the_run self arguments) with
        | Returned results =>
            o = Ret tt ∧ saves after = zip results outputs
            ∧ files w' = files w
            ∧ ∃ mid, after = mid ++ save_events quiet (zip results outputs)
                     ∧ (if verbose then True else ∀ e, e ∈ mid → prints e = false)
        | Failed e =>
            o = (if is_Exception e then Exit error_exit_status else Raise e)
            ∧ saves after = []
            ∧ (if verbose then True else ∀ e, e ∈ after → prints e = false)
        | Exited status =>
            o = Exit status ∧ saves after = []
            ∧ (if verbose then True else ∀ e, e ∈ after → prints e = false)
        end.
Proof.
  destruct verbose.
  - right. rewrite execute_verbose_eq. cbn zeta.
    destruct (writes_no_saves (run_writes (the_run self arguments))) as [Hs Hc].
    destruct (run_end (the_run self arguments)) as [results|e|status];
      [|destruct (is_Exception e)|].
    all: eexists _, _, [], _.
    all: split; [done|]; split; [by left|].
    all: split; [cbn [trace set_trace app]; by rewrite <- ?app_assoc|].
    all: split; [done|]; split; [done|].
    all: split; [by rewrite ?calls_app, ?Hc, ?calls_save_events|].
    all: split; [done|]; split; [done|]; split; [done|].
    + split; [by rewrite saves_app, Hs, saves_save_events|].
      split; [done|]. by eexists.
    + split; [|done]. by rewrite saves_app, Hs.
    + done.
    + done.
  - rewrite execute_logged_eq. destruct (temp_name w) as [name|] eqn:Hn.
    2: by left.
    right. cbn zeta.
    destruct (cleanup_no_saves (run_tmp_reaped (the_run self arguments)) name)
      as [Hs Hc].
    destruct (run_end (the_run self arguments)) as [results|e|status];
      [|destruct (is_Exception e)|].
    all: eexists _, _, [TempCreate name], _.
    all: split; [done|]; split; [by right|].
    all: split; [cbn [trace set_trace set_files app]; by rewrite <- ?app_assoc|].
    all: split; [done|]; split; [done|].
    all: split;
      [rewrite ?app_nil_r; by rewrite ?calls_app, ?Hc, ?calls_save_events|].
    all: split; [by repeat constructor|]; split; [done|]; split; [done|].
    + split; [by rewrite saves_app, Hs, saves_save_events|].
      split; [done|]. eexists. split; [done|]. intros ev.
      destruct (run_tmp_reaped _); cbn;
        rewrite ?elem_of_cons, ?elem_of_nil; intros; by destruct_or!; subst.
    + split; [done|]. intros ev. rewrite list_elem_of_singleton. by intros ->.
    + split; [done|]. by intros ev ?%elem_of_nil.
    + split; [done|]. by intros ev ?%elem_of_nil.
Qed.

(** X10. When the action returns and the log file could be opened (or the
    run is verbose), [execute] returns normally after calling the action
    once and saving the i-th result to the i-th output location, for as
    many as both lists have: surplus results, or surplus locations, are
    dropped without a message. The temporary directory is as before. *)
Theorem X10_saves_pair_results_with_outputs (self : ActionCommand)
    (verbose quiet : bool) (arguments : gmap pystr value)
    (outputs : list value) (results : list Result) (w : World) :
  run_end (the_run self arguments) = Returned results →
  verbose = true ∨ is_Some (temp_name w) →
  ∃ w',
    execute self verbose quiet arguments outputs w = (Ret tt, w')
    ∧ saves (trace w') = saves (trace w) ++ zip results outputs
    ∧ length (saves (trace w'))
      = (length (saves (trace w)) + min (length results) (length outputs))%nat
    ∧ calls (trace w') = calls (trace w) ++ [arguments]
    ∧ files w' = files w.
Proof.
  intros Hrun Hlog.
  destruct (execute_cases self verbose quiet arguments outputs w)
    as [(Hv & Hn & _)|(o & w' & before & after & Hex & _ & Ht & Hsb & Hcb & Hca
                       & _ & _ & Hend)].
  { destruct Hlog as [Hlog|[name Hlog]]; congruence. }
  rewrite Hrun in Hend. destruct Hend as (-> & Hsa & Hf & _).
  exists w'. split; [done|].
  assert (Hs : saves (trace w') = saves (trace w) ++ zip results outputs).
  { rewrite Ht, !saves_app, Hsb, Hsa. done. }
  split_and!; [done | | | done].
  - rewrite Hs, length_app, length_zip_with. done.
  - rewrite Ht, !calls_app, Hcb, Hca. done.
Qed.

(** X11. [execute] returns normally exactly when the action returned and
    the run is verbose or the log file could be opened; whenever it ends
    otherwise, no result has been saved. *)
Theorem X11_no_save_unless_returned (self : ActionCommand)
    (verbose quiet : bool) (arguments : gmap pystr value)
    (outputs : list value) (w : World) :
  ∃ o w',
    execute self verbose quiet arguments outputs w = (o, w')
    ∧ (o = Ret tt ↔
       (∃ results, run_end (the_run self arguments) = Returned results)
       ∧ (verbose = true ∨ is_Some (temp_name w)))
    ∧ (o ≠ Ret tt → saves (trace w') = saves (trace w)).
Proof.
  destruct (execute_cases self verbose quiet arguments outputs w)
    as [(Hv & Hn & Hex)|(o & w' & before & after & Hex & Hlog & Ht & Hsb & Hcb
                         & Hca & _ & _ & Hend)].
  { exists (Raise FileExistsError), w. split_and!; [done | | done].
    split; [done|]. intros [_ [?|[name Hname]]]; congruence. }
  exists o, w'. split; [done|].
  destruct (run_end (the_run self arguments)) as [results|e|status].
  - destruct Hend as (-> & _). split; [|done]. split; [|done].
    intros _. split; [by eexists | done].
  - destruct Hend as (-> & Hsa & _). split.
    + split; [by destruct (is_Exception e) | by intros [[? [=]] _]].
    + intros _. rewrite Ht, !saves_app, Hsb, Hsa. cbn. by rewrite app_nil_r.
  - destruct Hend as (-> & Hsa & _). split.
    + split; [done | by intros [[? [=]] _]].
    + intros _. rewrite Ht, !saves_app, Hsb, Hsa. cbn. by rewrite app_nil_r.
Qed.



(** ** ActionCommand: how an invocation can end *)






End ActionCoverage.

(** ** From the root to an action *)

Section CommandTree.

Context {collab : Collaborators}.

Lemma root_get_plugin (self : RootCommand) (name : pystr) (w : World)
    (pc : PluginCommand) (self' : RootCommand) (w' : World) :
  RootCommand_get_command self name w = (Ret (Some (inr pc), self'), w') →
  ∃ e, last_such (shown_as name) (snapshot_in_use self w) = Some e
       ∧ pc = PluginCommand_init e.2 name.
Proof.
  unfold RootCommand_get_command.
  destruct (list_find _ _) as [[i [name' cmd]]|]; [done|].
  unfold mbind, M_bind, snapshot_in_use. destruct self as [[s|]].
  - rewrite (plugin_lookup_memoised _ s) by done.
    cbn [_plugins default from_option id]. rewrite name_map_of_lookup.
    destruct (last_such (shown_as name) s) as [[n pl]|]; [|done].
    intros [= <- _ _]. by eexists.
  - rewrite plugin_lookup_first by done.
    cbn [_plugins default from_option id]. rewrite name_map_of_lookup.
    destruct (last_such (shown_as name) (cache_plugins w)) as [[n pl]|]; [|done].
    intros [= <- _ _]. by eexists.
Qed.

(** X14. A plugin command that the root hands out is never empty: it is
    called by the name it was asked for, it lists at least one action, and
    for every name it lists [get_command] returns a new ActionCommand of
    that name for an action of the same plugin, without exiting. *)
Theorem X14_found_plugin_has_reachable_actions (self : RootCommand)
    (name : pystr) (w : World) (pc : PluginCommand) (self' : RootCommand)
    (w' : World) :
  RootCommand_get_command self name w = (Ret (Some (inr pc), self'), w') →
  pc_name pc = name
  ∧ PluginCommand_list_commands pc ≠ []
  ∧ ∀ a w1, a ∈ PluginCommand_list_commands pc →
      ∃ id act,
        (id, act) ∈ p_actions (_plugin pc) ∧ to_cli_name id = a
        ∧ PluginCommand_get_command pc a w1
          = (Ret (new_ActionCommand a (_plugin pc) act),
             set_handler_missing ∅ w1).
Proof.
  intros Hget. apply root_get_plugin in Hget as ([n pl] & He & ->).
  apply last_such_Some in He as (_ & _ & _ & Hshown & _).
  apply shown_as_true in Hshown as [_ Hact]. cbn [snd] in *.
  destruct (sorted_keys (_action_lookup (PluginCommand_init pl name)))
    as (_ & _ & Hin).
  split_and!; [done | |].
  - destruct (p_actions pl) as [|[id act] rest] eqn:Hacts; [done|].
    assert (Hk : to_cli_name id
                 ∈ PluginCommand_list_commands (PluginCommand_init pl name)).
    { apply Hin. rewrite action_lookup_last, fmap_is_Some.
      destruct (last_such (reached_as (to_cli_name id)) (p_actions pl)) eqn:E;
        [done|].
      exfalso. rewrite last_such_None in E. specialize (E (id, act)).
      rewrite Hacts in E. specialize (E ltac:(by left)).
      by apply bool_decide_eq_false in E. }
    intros Hnil. unfold PluginCommand_list_commands in *.
    rewrite Hnil in Hk. by apply elem_of_nil in Hk.
  - intros a w1 Ha. apply Hin in Ha. rewrite action_lookup_last in Ha.
    unfold PluginCommand_get_command. rewrite action_lookup_last.
    destruct (last_such (reached_as a) (p_actions pl)) as [[id act]|] eqn:E;
      [|by destruct Ha].
    apply last_such_Some in E as (b & af & Hs & Hx & _).
    apply bool_decide_eq_true in Hx. exists id, act.
    split_and!; [| done | done].
    cbn [_plugin PluginCommand_init]. rewrite Hs. clear. set_solver.
Qed.

Lemma occurrences_NoDup (k : pystr) (names : list pystr) :
  NoDup names → k ∈ names → occurrences k names = 1%nat.
Proof.
  unfold occurrences. induction 1 as [|x names Hx Hnd IH]; [by intros ?%elem_of_nil|].
  cbn [List.filter]. case_bool_decide as Hk.
  - subst x. intros _. cbn [length]. f_equal.
    assert (List.filter (λ x, bool_decide (x = k)) names = []) as ->; [|done].
    clear -Hx. induction names as [|y names IH]; [done|].
    cbn [List.filter]. rewrite bool_decide_eq_false_2 by (clear -Hx; set_solver).
    apply IH. clear -Hx. set_solver.
  - intros [->|Hin]%elem_of_cons; [done | by apply IH].
Qed.

Lemma occurrences_app (k : pystr) (a b : list pystr) :
  occurrences k (a ++ b) = (occurrences k a + occurrences k b)%nat.
Proof. unfold occurrences. by rewrite List.filter_app, length_app. Qed.

(** X15. A builtin command shadows a plugin of the same command name:
    when a plugin with actions normalises to [info], [tools] or [dev], the
    root lists that name twice, once among the builtins and once among the
    plugins, and yet [get_command] returns the builtin, so the plugin
    cannot be reached. *)
Theorem X15_builtin_shadows_plugin (self : RootCommand) (w : World)
    (name : pystr) (pl : Plugin) :
  (name, pl) ∈ snapshot_in_use self w →
  p_actions pl ≠ [] →
  to_cli_name name ∈ builtin_names →
  occurrences (to_cli_name name) (root_lists self w) = 2%nat
  ∧ ∃ cmd, RootCommand_get_command self (to_cli_name name) w
           = (Ret (Some (inl cmd), self), w).
Proof.
  intros Hin Hact Hb. split.
  - unfold root_lists. rewrite list_commands_eq. cbn [fst].
    rewrite occurrences_app.
    destruct (sorted_keys (name_map_of (snapshot_in_use self w)))
      as (_ & Hnd & Hkeys).
    rewrite (occurrences_NoDup _ (sorted _)); [| done |].
    + rewrite (occurrences_NoDup _ builtin_names); [done | | done].
      unfold builtin_names, _builtin_commands. cbn.
      repeat constructor; rewrite ?elem_of_cons, ?elem_of_nil;
        intros ?; destruct_or!; by try discriminate.
    + apply Hkeys. rewrite name_map_of_lookup, fmap_is_Some.
      destruct (last_such (shown_as (to_cli_name name))
                  (snapshot_in_use self w)) eqn:E; [done|].
      exfalso. rewrite last_such_None in E. specialize (E _ Hin).
      apply shown_as_false in E. by apply E.
  - pose proof (builtin_find (to_cli_name name)) as Hf.
    unfold RootCommand_get_command.
    destruct (list_find _ _) as [[i [name' cmd]]|]; [|done].
    by exists cmd.
Qed.

End CommandTree.

(** ** The [missing] lists of the handlers outlive a call *)

Section MissingLists.

Context {collab : Collaborators}.

(** What [handle_in_params] adds to its [missing] list for [item] when the
    handlers' lists are [store] at the start: the whole list of the
    handler, old names included. *)
Lemma in_loop_store (self : ActionCommand) (kw : kwargs) (items : list SigItem)
    (store : gmap pystr (list pystr)) (arguments : gmap pystr value)
    (missing : list pystr) (w : World) :
  (∀ item, item ∈ items →
     generated_handlers self !! item_name item = Some (entry_handler item)) →
  NoDup (item_name <$> items) →
  (∀ item, item ∈ items →
     handler_missing w !! item_name item = store !! item_name item) →
  ∃ arguments' w',
    for_ items
         (in_params_body self kw (cmd_config_handler self kw)
            (resolved_verbose self kw))
         (arguments, missing) w
    = (Ret (arguments',
            missing ++ flat_map (reported_again self kw store)
                                (List.filter is_in items)), w')
    ∧ (∀ item, item ∈ items → is_in item = true →
         handler_missing w' !! item_name item
         = match in_resolution self kw item with
           | NotFound recorded =>
               Some (default [] (store !! item_name item) ++ recorded)
           | Resolved _ => store !! item_name item
           end)
    ∧ (∀ k, k ∉ item_name <$> items →
            handler_missing w' !! k = handler_missing w !! k).
Proof.
  revert arguments missing w.
  induction items as [|x items IH]; intros arguments missing w Hb Hnd Hst.
  - exists arguments, w. split_and!; [by rewrite app_nil_r | | done].
    by intros item ?%elem_of_nil.
  - apply NoDup_cons in Hnd as [Hx Hnd]. cbn [for_].
    unfold mbind, M_bind at 1.
    rewrite in_params_body_eq by (apply Hb; by left).
    assert (Hxs : handler_missing w !! item_name x = store !! item_name x)
      by (apply Hst; by left).
    assert (Hother : ∀ item, item ∈ items → item_name item ≠ item_name x).
    { intros item Hin Heq. apply Hx. rewrite <- Heq.
      apply list_elem_of_fmap. by exists item. }
    cbn [List.filter]. destruct (is_in x) eqn:Hix.
    + destruct (in_resolution self kw x) as [v|recorded] eqn:Hr.
      * edestruct (IH (<[item_name x := v]> arguments) missing
                      (set_trace (trace w ++ [GetValue (item_name x)]) w))
          as (a' & w' & Hloop & Hin' & Hout').
        { intros item Hin. apply Hb. by right. }
        { done. }
        { intros item Hin. cbn. apply Hst. by right. }
        exists a', w'. split_and!.
        -- rewrite Hloop. cbn [flat_map]. unfold reported_again at 2.
           by rewrite Hr.
        -- intros item [->|Hin]%elem_of_cons Hi.
           ++ rewrite Hr, Hout' by done. done.
           ++ by apply Hin'.
        -- intros k Hk. rewrite fmap_cons in Hk.
           apply not_elem_of_cons in Hk as [_ Hk]. by rewrite Hout'.
      * cbn zeta.
        edestruct (IH arguments
                      (missing ++ default [] (handler_missing w !! item_name x)
                               ++ recorded)
                      (set_handler_missing
                         (<[item_name x :=
                              default [] (handler_missing w !! item_name x)
                              ++ recorded]> (handler_missing w))
                         (set_trace (trace w ++ [GetValue (item_name x)]) w)))
          as (a' & w' & Hloop & Hin' & Hout').
        { intros item Hin. apply Hb. by right. }
        { done. }
        { intros item Hin. cbn. rewrite lookup_insert_ne by by apply not_eq_sym, Hother.
          apply Hst. by right. }
        exists a', w'. split_and!.
        -- rewrite Hloop. cbn [flat_map]. unfold reported_again at 2.
           by rewrite Hr, Hxs, <- !app_assoc.
        -- intros item [->|Hin]%elem_of_cons Hi.
           ++ rewrite Hr, Hout' by done. cbn. by rewrite lookup_insert_eq, Hxs.
           ++ by apply Hin'.
        -- intros k Hk. rewrite fmap_cons in Hk.
           apply not_elem_of_cons in Hk as [Hkx Hk]. rewrite Hout' by done.
           cbn. by rewrite lookup_insert_ne.
    + edestruct (IH arguments missing w) as (a' & w' & Hloop & Hin' & Hout').
      { intros item Hin. apply Hb. by right. }
      { done. }
      { intros item Hin. apply Hst. by right. }
      exists a', w'. split_and!.
      * done.
      * intros item [->|Hin]%elem_of_cons Hi; [congruence | by apply Hin'].
      * intros k Hk. rewrite fmap_cons in Hk.
        apply not_elem_of_cons in Hk as [_ Hk]. by apply Hout'.
Qed.

(** X16. The [missing] list of a handler is never reset, and
    [handle_in_params] reports the whole of it: for a signature with
    distinct names, an entry that does not resolve contributes the names
    its handler recorded in earlier calls followed by the names recorded
    now, and leaves the handler with that longer list; an entry that
    resolves contributes nothing and leaves its handler's list alone. *)
Theorem X16_missing_lists_accumulate (name : pystr) (pl : Plugin)
    (act : Action) (kw : kwargs) (w : World) :
  let self := new_ActionCommand name pl act in
  NoDup (item_name <$> a_signature act) →
  resolved_verbose self kw && resolved_quiet self kw = false →
  ∃ arguments w',
    handle_in_params self kw w
    = (Ret (arguments,
            flat_map (reported_again self kw (handler_missing w))
                     (in_entries self),
            resolved_verbose self kw, resolved_quiet self kw), w')
    ∧ ∀ item, item ∈ in_entries self →
        handler_missing w' !! item_name item
        = match in_resolution self kw item with
          | NotFound recorded =>
              Some (default [] (handler_missing w !! item_name item)
                    ++ recorded)
          | Resolved _ => handler_missing w !! item_name item
          end.
Proof.
  intros self Hnd Hvq.
  destruct (in_loop_store self kw (a_signature act) (handler_missing w) ∅ [] w)
    as (a & w' & Hloop & Hin & _).
  { intros item Hin. by apply handlers_lookup. }
  { done. }
  { done. }
  exists a, w'. split.
  - unfold handle_in_params. fold (resolved_verbose self kw).
    fold (resolved_quiet self kw). rewrite Hvq. cbn [when].
    unfold mbind, M_bind, mret, M_ret.
    change (a_signature (action self)) with (a_signature act).
    by rewrite Hloop.
  - intros item [Hi1%list_elem_of_In Hi2]%list_elem_of_In%filter_In.
    by apply Hin.
Qed.

End MissingLists.

(** ** The options handed to click *)

Section ClickOrder.

Context {collab : Collaborators} {opts : ClickOptions}.

Lemma od_set_lookup {V} (k k' : pystr) (v : V) (d : list (pystr * V)) :
  NoDup d.*1 →
  (list_to_map (od_set k v d) : gmap pystr V) !! k'
  = (<[k := v]> (list_to_map d : gmap pystr V)) !! k'.
Proof.
  induction d as [|[k0 v0] d IH]; intros Hnd; [done|].
  apply NoDup_cons in Hnd as [Hk0 Hnd]. cbn [od_set].
  destruct (decide (k0 = k)) as [->|Hne]; cbn [list_to_map foldr uncurry].
  - by rewrite insert_insert_eq.
  - destruct (decide (k' = k0)) as [->|Hne'].
    + by rewrite lookup_insert_eq, lookup_insert_ne, lookup_insert_eq.
    + rewrite lookup_insert_ne by done. rewrite IH by done.
      destruct (decide (k' = k)) as [->|Hne''].
      * by rewrite !lookup_insert_eq.
      * by rewrite !lookup_insert_ne.
Qed.

Lemma od_set_keys {V} (k : pystr) (v : V) (d : list (pystr * V)) :
  (od_set k v d).*1 = if decide (k ∈ d.*1) then d.*1 else d.*1 ++ [k].
Proof.
  induction d as [|[k0 v0] d IH]; [done|]. cbn [od_set].
  destruct (decide (k0 = k)) as [->|Hne].
  - cbn. rewrite decide_True by by left. done.
  - cbn [fmap list_fmap fst]. rewrite IH.
    destruct (decide (k ∈ d.*1)) as [Hin|Hout].
    + rewrite decide_True by by right. done.
    + rewrite decide_False; [done|].
      intros [->|?]%elem_of_cons; done.
Qed.

Lemma od_set_new {V} (k : pystr) (v : V) (d : list (pystr * V)) :
  k ∉ d.*1 → od_set k v d = d ++ [(k, v)].
Proof.
  induction d as [|[k0 v0] d IH]; [done|]. cbn [od_set fmap list_fmap fst].
  intros [Hne Hout]%not_elem_of_cons.
  rewrite decide_False by done. by rewrite IH.
Qed.

Lemma od_set_NoDup {V} (k : pystr) (v : V) (d : list (pystr * V)) :
  NoDup d.*1 → NoDup (od_set k v d).*1.
Proof.
  intros Hnd. rewrite od_set_keys. destruct (decide (k ∈ d.*1)); [done|].
  apply NoDup_app. split_and!; [done | | apply NoDup_singleton].
  intros x Hx ->%list_elem_of_singleton. done.
Qed.

Lemma ordered_fold (items : list SigItem) (d : list (pystr * Handler)) :
  NoDup d.*1 →
  let d' := foldl (λ handlers item,
                     od_set (item_name item) (entry_handler item) handlers)
                  d items in
  NoDup d'.*1
  ∧ (∀ k, (list_to_map d' : gmap pystr Handler) !! k
          = foldl (λ handlers item,
                     <[item_name item := entry_handler item]> handlers)
                  (list_to_map d : gmap pystr Handler) items !! k)
  ∧ (NoDup (item_name <$> items) →
     (∀ item, item ∈ items → item_name item ∉ d.*1) →
     d' = d ++ ((λ item, (item_name item, entry_handler item)) <$> items)).
Proof.
  revert d. induction items as [|x items IH]; intros d Hnd; cbn zeta.
  - split_and!; [done | done |]. intros _ _. by rewrite app_nil_r.
  - cbn [foldl].
    destruct (IH (od_set (item_name x) (entry_handler x) d)
                (od_set_NoDup _ _ _ Hnd)) as (H1 & H2 & H3).
    cbn zeta in *. split_and!; [done | |].
    + intros k. rewrite H2. clear H1 H2 H3 IH.
      revert d Hnd. generalize (entry_handler x) (item_name x). intros h n d Hnd.
      assert (Heq : (list_to_map (od_set n h d) : gmap pystr Handler)
                    = <[n := h]> (list_to_map d)).
      { apply map_eq. intros k'. by apply od_set_lookup. }
      by rewrite Heq.
    + intros Hnd' Hfresh. apply NoDup_cons in Hnd' as [Hx Hnd'].
      rewrite H3.
      * rewrite od_set_new by (apply Hfresh; by left).
        by rewrite <- app_assoc.
      * done.
      * intros item Hin. rewrite od_set_keys.
        rewrite decide_False by (apply Hfresh; by left).
        intros [Hd|Heq%list_elem_of_singleton]%elem_of_app.
        -- apply (Hfresh item); [by right | done].
        -- apply Hx. rewrite <- Heq. apply list_elem_of_fmap. by exists item.
Qed.

(** X17. The options of an action command come in a fixed order: those of
    the generated handlers, then those of the output directory, of the
    command configuration, of [verbose] and of [quiet], and the citations
    option last. The [OrderedDict] of generated handlers has every
    signature name once, bound as in the dict the resolution passes look
    handlers up in; and when the names of the signature are distinct, the
    generated options are those of the entries' handlers in signature
    order. *)
Theorem X17_click_parameters_in_order (act : Action) :
  get_click_parameters act
  = flat_map get_click_options (ordered_handlers act).*2 ++ meta_options
  ∧ NoDup (ordered_handlers act).*1
  ∧ (∀ k, (list_to_map (ordered_handlers act) : gmap pystr Handler) !! k
          = build_generated_handlers act !! k)
  ∧ (NoDup (item_name <$> a_signature act) →
     get_click_parameters act
     = flat_map (λ item, get_click_options (entry_handler item))
                (a_signature act)
       ++ meta_options).
Proof.
  destruct (ordered_fold (a_signature act) [] (NoDup_nil_2)) as (H1 & H2 & H3).
  cbn zeta in *. split_and!; [done | exact H1 | exact H2 |].
  intros Hnd. unfold get_click_parameters, ordered_handlers.
  fold meta_options. f_equal.
  change (foldl _ [] (a_signature act))
    with (foldl (λ handlers item,
                   od_set (item_name item) (entry_handler item) handlers)
                [] (a_signature act)).
  rewrite H3; [| done | by intros item _ ?%elem_of_nil].
  cbn [app]. clear. induction (a_signature act) as [|x l IH]; [done|].
  cbn. by rewrite IH.
Qed.

End ClickOrder.

(** ** The further properties at the example deployment *)

(** X1 at two plugins of one command name: the later one is bound. *)
Lemma X1_witness :
  name_map_of (collab := demo) twin_snapshot !! lit "dummy-plugin"
  = Some shadow_plugin.
Proof.
  apply (proj2 (proj1 (X1_plugin_name_last_wins (collab := demo) twin_snapshot
                         (lit "dummy-plugin")) shadow_plugin)).
  exists [(lit "dummy_plugin", demo_plugin)], (lit "dummy-plugin"), [].
  split_and!; [reflexivity | vm_compute; reflexivity | discriminate |].
  intros e He. by apply elem_of_nil in He.
Defined.

(** X2 at a builtin name and at the name of the example plugin, on a root
    command that has not read the cache yet. *)
Lemma X2_witness :
  (∃ cmd, (lit "tools", cmd) ∈ _builtin_commands
          ∧ RootCommand_get_command (collab := demo) {| _plugins := None |}
              (lit "tools") (start_world [] injected_snapshot [] [])
            = (Ret (Some (inl cmd), {| _plugins := None |}),
               start_world [] injected_snapshot [] []))
  ∧ RootCommand_get_command (collab := demo) {| _plugins := None |}
      (lit "dummy-plugin") (start_world [] injected_snapshot [] [])
    = (Ret (Some (inr (PluginCommand_init (collab := demo) demo_plugin
                         (lit "dummy-plugin"))),
            {| _plugins := Some injected_snapshot |}),
       set_trace [CacheRead] (start_world [] injected_snapshot [] [])).
Proof.
  split.
  - refine (proj1 (X2_root_get_command (collab := demo) {| _plugins := None |}
                     (lit "tools") (start_world [] injected_snapshot [] [])) _).
    apply (bool_decide_unpack _). vm_compute. exact I.
  - refine (eq_trans
              (proj2 (X2_root_get_command (collab := demo) {| _plugins := None |}
                        (lit "dummy-plugin")
                        (start_world [] injected_snapshot [] [])) _) _).
    + apply (bool_decide_unpack _). vm_compute. exact I.
    + vm_compute. reflexivity.
Defined.

(** X5 at two actions of one command name: the later one is built. *)
Lemma X5_witness :
  PluginCommand_get_command (collab := demo)
    (PluginCommand_init (collab := demo) twin_plugin (lit "twins"))
    (lit "do-it") demo_world
  = (Ret (new_ActionCommand (collab := demo) (lit "do-it") twin_plugin
            twin_action),
     set_handler_missing ∅ demo_world).
Proof.
  apply (proj2 (proj1 (X5_plugin_get_command_last_wins (collab := demo)
                         twin_plugin (lit "twins") (lit "do-it") demo_world)
                 _ _)).
  exists [(lit "do_it", demo_action)], (lit "do-it"), twin_action, [].
  split_and!; [reflexivity | vm_compute; reflexivity | | reflexivity
               | reflexivity].
  intros e He. by apply elem_of_nil in He.
Defined.

(** X7 at the example action: the handler of its output entry. *)
Lemma X7_witness :
  generated_handlers demo_command !! lit "c"
  = Some (entry_handler (collab := demo) item_c).
Proof.
  apply (proj1 (X7_handlers_last_entry_wins (collab := demo) (lit "do-it")
                  demo_plugin demo_action) [item_a; item_b] item_c []).
  - reflexivity.
  - intros later He. by apply elem_of_nil in He.
Defined.

(** X8 at an action whose signature repeats a name. *)
Lemma X8_witness :
  ∃ arguments missing w',
    handle_in_params
      (new_ActionCommand (collab := demo) (lit "twice") demo_plugin twin_action)
      kw_partial demo_world
    = (Ret (arguments, missing, false, false), w')
    ∧ trace w' = [GetValue (lit "a"); GetValue (lit "a")].
Proof.
  destruct (proj1 (X8_resolution_never_raises (collab := demo) (lit "twice")
                     demo_plugin twin_action kw_partial demo_world))
    as (a & m & w' & Hrun & Ht & _).
  - vm_compute. reflexivity.
  - exists a, m, w'. split; [exact Hrun | exact Ht].
Defined.

(** X9 at the example action, invoked with [--a] and [--b]: both become
    arguments of the action and nothing is missing. *)
Lemma X9_witness :
  ∃ arguments missing w',
    handle_in_params demo_command kw_partial demo_world
    = (Ret (arguments, missing, false, false), w')
    ∧ arguments !! lit "b" = Some (VInt 5)
    ∧ lit "b" ∉ missing.
Proof.
  destruct (X9_arguments_are_resolved_entries (collab := demo) (lit "do-it")
              demo_plugin demo_action kw_partial demo_world)
    as (a & m & w' & Hrun & Ha & Hm).
  - exact demo_names_NoDup.
  - reflexivity.
  - vm_compute. reflexivity.
  - exists a, m, w'. split_and!; [exact Hrun | |].
    + apply Ha. exists item_b.
      split_and!; [apply list_elem_of_In; cbn; tauto | reflexivity
                   | reflexivity | vm_compute; reflexivity].
    + intros Hin. apply Hm in Hin as (item & recorded & Hi & Hin & Hr & _).
      refine (demo_signature_inv
                (λ item, is_in item = true →
                         ∀ recorded,
                           in_resolution (collab := demo) demo_command
                             kw_partial item = NotFound recorded → False)
                _ item Hi Hin recorded Hr).
      repeat constructor; intros Hi' recorded' Hr'; vm_compute in Hi', Hr';
        discriminate.
Defined.

(** X10 at the example action when no output location is given: the
    result the action returns is dropped. *)
Lemma X10_witness :
  ∃ w', execute (collab := demo) demo_command true false ∅ [] demo_world
        = (Ret tt, w')
        ∧ saves (trace w') = []
        ∧ calls (trace w') = [∅].
Proof.
  destruct (X10_saves_pair_results_with_outputs (collab := demo) demo_command
              true false ∅ [] [demo_result] demo_world)
    as (w' & Hrun & Hs & _ & Hc & _).
  - vm_compute. reflexivity.
  - left. reflexivity.
  - exists w'. split_and!; [exact Hrun | exact Hs | exact Hc].
Defined.

(** X11 at the example action when the engine fails. *)
Lemma X11_witness :
  ∃ o w',
    execute (collab := demo) demo_command true false
      {[ lit "b" := VInt 13 ]} [VStr (lit "out")] demo_world = (o, w')
    ∧ o ≠ Ret tt
    ∧ saves (trace w') = [].
Proof.
  destruct (X11_no_save_unless_returned (collab := demo) demo_command
              true false {[ lit "b" := VInt 13 ]} [VStr (lit "out")] demo_world)
    as (o & w' & Hrun & Hret & Hs).
  assert (Hno : o ≠ Ret tt).
  { intros Ho. apply Hret in Ho as [[results Hr] _].
    vm_compute in Hr. discriminate. }
  exists o, w'. split_and!; [exact Hrun | exact Hno | exact (Hs Hno)].
Defined.

(** X14 at the example plugin, got from the root. *)
Lemma X14_witness :
  PluginCommand_list_commands
    (PluginCommand_init (collab := demo) demo_plugin (lit "dummy-plugin")) ≠ [].
Proof.
  refine (proj1 (proj2 (X14_found_plugin_has_reachable_actions (collab := demo)
                          {| _plugins := Some injected_snapshot |}
                          (lit "dummy-plugin") (start_world [] [] [] [])
                          (PluginCommand_init (collab := demo) demo_plugin
                             (lit "dummy-plugin"))
                          {| _plugins := Some injected_snapshot |}
                          (start_world [] [] [] []) _))).
  vm_compute. reflexivity.
Defined.

(** X15 at a plugin called [info]. *)
Lemma X15_witness :
  occurrences (lit "info")
    (root_lists (collab := demo) {| _plugins := Some info_snapshot |}
       (start_world [] [] [] [])) = 2%nat
  ∧ ∃ cmd,
      RootCommand_get_command (collab := demo)
        {| _plugins := Some info_snapshot |} (lit "info")
        (start_world [] [] [] [])
      = (Ret (Some (inl cmd), {| _plugins := Some info_snapshot |}),
         start_world [] [] [] []).
Proof.
  apply (X15_builtin_shadows_plugin (collab := demo)
           {| _plugins := Some info_snapshot |} (start_world [] [] [] [])
           (lit "info") demo_plugin).
  - apply list_elem_of_In. cbn. tauto.
  - discriminate.
  - apply (bool_decide_unpack _). vm_compute. exact I.
Defined.

(** X16 at a second call of the example action without any option: the
    option of [a] that was recorded before is reported again. *)
Lemma X16_witness :
  ∃ arguments w',
    handle_in_params demo_command ∅ second_call_world
    = (Ret (arguments, [lit "a"; lit "a"; lit "b"], false, false), w').
Proof.
  destruct (X16_missing_lists_accumulate (collab := demo) (lit "do-it")
              demo_plugin demo_action ∅ second_call_world)
    as (a & w' & Hrun & _).
  - exact demo_names_NoDup.
  - vm_compute. reflexivity.
  - exists a, w'. refine (eq_trans Hrun _). vm_compute. reflexivity.
Defined.

(** X17 at the example action: one option per entry, then the five
    options every action command has. *)
Lemma X17_witness :
  get_click_parameters (collab := demo) (opts := demo_options) demo_action
  = [lit "--option"; lit "--option"; lit "--option"; lit "--output-dir";
     lit "--cmd-config"; lit "--verbose"; lit "--quiet"; lit "--citations"].
Proof.
  refine (eq_trans
            (proj2 (proj2 (proj2 (X17_click_parameters_in_order (collab := demo)
                                    (opts := demo_options) demo_action))) _) _).
  - exact demo_names_NoDup.
  - vm_compute. reflexivity.
Defined.
